(** * LifecycleEngine: a shallow embedding of app/lifecycle/core/LifecycleEngine.ts

    The engine is a TypeScript class whose methods mutate [this], call
    user code (modules, listeners, observers, the console, timers) and
    throw.  It is rendered here as state passing over a record [Machine]
    that holds the fields of [this] next to the part of the outside
    world the engine talks to:

    - [world]     everything the modules own (their private fields, the
                  wall clock); it is abstract, modules are functions on it;
    - [trace]     the calls the engine made to code it does not own, in
                  the order it made them;
    - [unawaited] the promises handed to the engine that it dropped
                  without awaiting them.

    JavaScript numbers are integers [Z] wherever the engine only counts
    or subtracts clock readings; the two averages are exact quotients
    [Q].  Listeners and observers are passive: they do not call back
    into the engine and do not touch the context or the modules. *)

From stdpp Require Import base gmap strings list.
From Stdlib Require Import ZArith Lia QArith Ascii String DecimalString DecimalZ.
From Equations Require Import Equations.

Open Scope Z_scope.

(** ** types/lifecycle.ts *)

Module LifecyclePhase.
Inductive t :=
  | INITIALIZATION | PREPARATION | VALIDATION | EXECUTION | MONITORING | CLEANUP.

(** The enum's values are the strings of the same spelling. *)
Definition to_string (p : t) : string :=
  match p with
  | INITIALIZATION => "INITIALIZATION"
  | PREPARATION => "PREPARATION"
  | VALIDATION => "VALIDATION"
  | EXECUTION => "EXECUTION"
  | MONITORING => "MONITORING"
  | CLEANUP => "CLEANUP"
  end.

(** [Object.values(LifecyclePhase)], in declaration order. *)
Definition values : list t :=
  [INITIALIZATION; PREPARATION; VALIDATION; EXECUTION; MONITORING; CLEANUP].

Definition to_nat (p : t) : nat :=
  match p with
  | INITIALIZATION => 0 | PREPARATION => 1 | VALIDATION => 2
  | EXECUTION => 3 | MONITORING => 4 | CLEANUP => 5
  end%nat.

Definition of_nat (n : nat) : option t :=
  match n with
  | 0 => Some INITIALIZATION | 1 => Some PREPARATION | 2 => Some VALIDATION
  | 3 => Some EXECUTION | 4 => Some MONITORING | 5 => Some CLEANUP
  | _ => None
  end%nat.

Lemma of_to_nat p : of_nat (to_nat p) = Some p.
Proof. by destruct p. Qed.

#[global] Instance eq_dec : EqDecision t.
Proof. solve_decision. Defined.

#[global] Instance countable : Countable t :=
  inj_countable to_nat of_nat of_to_nat.
End LifecyclePhase.

Module EventLevel.
Inductive t := DEBUG | INFO | WARN | ERROR | CRITICAL.

Definition to_string (l : t) : string :=
  match l with
  | DEBUG => "DEBUG" | INFO => "INFO" | WARN => "WARN"
  | ERROR => "ERROR" | CRITICAL => "CRITICAL"
  end.

#[global] Instance eq_dec : EqDecision t.
Proof. solve_decision. Defined.
End EventLevel.

Module ExecutionResult.
Inductive t := SUCCESS | FAILURE | PARTIAL_SUCCESS | SKIPPED.

#[global] Instance eq_dec : EqDecision t.
Proof. solve_decision. Defined.
End ExecutionResult.

Module LifecycleState.
Inductive t := UNINITIALIZED | PREPARING | RUNNING | PAUSED | STOPPED | ERROR.

#[global] Instance eq_dec : EqDecision t.
Proof. solve_decision. Defined.
End LifecycleState.

(** *** JavaScript values, errors and string conversions *)

Inductive JsValue :=
  | JsUndefined
  | JsNumber (z : Z)
  | JsString (s : string)
  | JsBoolean (b : bool)
  | JsObject (ref : nat).

(** An [Error] object.  [stack] is the text the runtime attached when the
    error was built; [None] where the engine builds the error itself and
    the text is the runtime's business. *)
Record JsError := { message : string; stack : option string }.

(** What a [catch (error)] clause may receive: [error: unknown]. *)
Inductive Thrown :=
  | ThrownError (e : JsError)
  | ThrownValue (v : JsValue).

#[global] Instance JsValue_eq_dec : EqDecision JsValue.
Proof. solve_decision. Defined.
#[global] Instance JsError_eq_dec : EqDecision JsError.
Proof. solve_decision. Defined.
#[global] Instance Thrown_eq_dec : EqDecision Thrown.
Proof. solve_decision. Defined.

Definition dquote : string := String "034"%char EmptyString.

(** [String(n)] / [`${n}`] for an integer. *)
Definition show_Z (z : Z) : string := NilZero.string_of_int (Z.to_int z).

(** [String(v)]. *)
Definition js_String (v : JsValue) : string :=
  match v with
  | JsUndefined => "undefined"
  | JsNumber z => show_Z z
  | JsString s => s
  | JsBoolean true => "true"
  | JsBoolean false => "false"
  | JsObject _ => "[object Object]"
  end.

(** [String(error)]: [Error.prototype.toString] for an [Error]. *)
Definition String_of_thrown (t : Thrown) : string :=
  match t with
  | ThrownError e => if decide (message e = "") then "Error" else "Error: " +:+ message e
  | ThrownValue v => js_String v
  end.

(** [new Error(msg)]. *)
Definition new_Error (msg : string) : JsError := {| message := msg; stack := None |}.

(** [error instanceof Error ? error : new Error(String(error))]. *)
Definition as_Error (t : Thrown) : JsError :=
  match t with
  | ThrownError e => e
  | ThrownValue v => new_Error (js_String v)
  end.

Definition stack_value (e : JsError) : JsValue :=
  match stack e with Some s => JsString s | None => JsUndefined end.

(** [a || b] on strings: the empty string is falsy. *)
Definition or_string (a : option string) (b : string) : string :=
  match a with
  | Some s => if decide (s = "") then b else s
  | None => b
  end.

(** [a || b] on numbers: zero is falsy. *)
Definition or_number (a : option Z) (b : Z) : Z :=
  match a with
  | Some z => if decide (z = 0) then b else z
  | None => b
  end.

(** *** LifecycleEvent and Partial<LifecycleEvent> *)

Record LifecycleEvent := {
  ev_id : string;
  ev_phase : LifecyclePhase.t;
  ev_type : string;
  ev_name : string;
  ev_timestamp : Z;
  ev_description : string;
  ev_level : EventLevel.t;
  ev_data : option (list (string * JsValue));
  ev_source : string;
  ev_duration : option Z
}.

Record PartialEvent := {
  pe_phase : option LifecyclePhase.t;
  pe_type : option string;
  pe_name : option string;
  pe_timestamp : option Z;
  pe_description : option string;
  pe_level : option EventLevel.t;
  pe_data : option (list (string * JsValue));
  pe_source : option string;
  pe_duration : option Z
}.

#[global] Instance LifecycleEvent_eq_dec : EqDecision LifecycleEvent.
Proof. solve_decision. Defined.

(** The object literals the engine passes to [logEvent] all have this
    shape: phase, type, name, level, description, and sometimes [data]
    and [duration]. *)
Definition event_literal (phase : LifecyclePhase.t) (type name : string)
    (level : EventLevel.t) (description : string)
    (data : option (list (string * JsValue))) (duration : option Z) : PartialEvent :=
  {| pe_phase := Some phase; pe_type := Some type; pe_name := Some name;
     pe_timestamp := None; pe_description := Some description;
     pe_level := Some level; pe_data := data; pe_source := None;
     pe_duration := duration |}.

(** *** LifecycleContext *)

Record LifecycleContext := {
  ctx_currentPhase : LifecyclePhase.t;
  ctx_previousPhase : option LifecyclePhase.t;
  ctx_startTime : Z;
  ctx_metadata : list (string * JsValue);
  ctx_data : gmap string JsValue;
  ctx_events : list LifecycleEvent;
  ctx_errors : list JsError
}.

Definition ctx_with_data (d : gmap string JsValue) (c : LifecycleContext) : LifecycleContext :=
  {| ctx_currentPhase := ctx_currentPhase c; ctx_previousPhase := ctx_previousPhase c;
     ctx_startTime := ctx_startTime c; ctx_metadata := ctx_metadata c;
     ctx_data := d; ctx_events := ctx_events c; ctx_errors := ctx_errors c |}.

(** The five closures over [dataMap], which is the very map stored in
    the [data] field. *)
Definition ctx_get (key : string) (c : LifecycleContext) : option JsValue := ctx_data c !! key.
Definition ctx_set (key : string) (value : JsValue) (c : LifecycleContext) : LifecycleContext :=
  ctx_with_data (<[key := value]> (ctx_data c)) c.
Definition ctx_has (key : string) (c : LifecycleContext) : bool := bool_decide (is_Some (ctx_data c !! key)).
Definition ctx_delete (key : string) (c : LifecycleContext) : bool * LifecycleContext :=
  (ctx_has key c, ctx_with_data (delete key (ctx_data c)) c).
Definition ctx_clear (c : LifecycleContext) : LifecycleContext := ctx_with_data ∅ c.

(** [context.events.push(e)] *)
Definition ctx_push_event (e : LifecycleEvent) (c : LifecycleContext) : LifecycleContext :=
  {| ctx_currentPhase := ctx_currentPhase c; ctx_previousPhase := ctx_previousPhase c;
     ctx_startTime := ctx_startTime c; ctx_metadata := ctx_metadata c;
     ctx_data := ctx_data c; ctx_events := ctx_events c ++ [e]; ctx_errors := ctx_errors c |}.

(** [context.errors.push(e)] *)
Definition ctx_push_error (e : JsError) (c : LifecycleContext) : LifecycleContext :=
  {| ctx_currentPhase := ctx_currentPhase c; ctx_previousPhase := ctx_previousPhase c;
     ctx_startTime := ctx_startTime c; ctx_metadata := ctx_metadata c;
     ctx_data := ctx_data c; ctx_events := ctx_events c; ctx_errors := ctx_errors c ++ [e] |}.

(** [context.previousPhase = context.currentPhase; context.currentPhase = phase] *)
Definition ctx_enter_phase (phase : LifecyclePhase.t) (c : LifecycleContext) : LifecycleContext :=
  {| ctx_currentPhase := phase; ctx_previousPhase := Some (ctx_currentPhase c);
     ctx_startTime := ctx_startTime c; ctx_metadata := ctx_metadata c;
     ctx_data := ctx_data c; ctx_events := ctx_events c; ctx_errors := ctx_errors c |}.

(** *** LifecycleConfig, Required<LifecycleConfig> *)

Record LifecycleConfig := {
  enableParallel : option bool;
  phaseTimeout : option Z;
  enableDebugLogging : option bool;
  continueOnError : option bool;
  maxRetries : option Z;
  retryDelay : option Z;
  saveHistory : option bool;
  maxHistorySize : option Z
}.

Record RequiredConfig := {
  cfg_enableParallel : bool;
  cfg_phaseTimeout : Z;
  cfg_enableDebugLogging : bool;
  cfg_continueOnError : bool;
  cfg_maxRetries : Z;
  cfg_retryDelay : Z;
  cfg_saveHistory : bool;
  cfg_maxHistorySize : Z
}.

(** *** PhaseStatistics, LifecycleStats *)

Record PhaseStatistics := {
  ps_phaseName : LifecyclePhase.t;
  ps_executionCount : Z;
  ps_successCount : Z;
  ps_failureCount : Z;
  ps_totalDuration : Z;
  ps_averageDuration : Q;
  ps_lastExecutionTime : Z
}.

(** [minDuration] starts at [Infinity], which is [None] here. *)
Record LifecycleStats := {
  st_totalExecutions : Z;
  st_successfulExecutions : Z;
  st_failedExecutions : Z;
  st_totalDuration : Z;
  st_averageDuration : Q;
  st_minDuration : option Z;
  st_maxDuration : Z;
  st_phaseStats : gmap LifecyclePhase.t PhaseStatistics
}.

(** *** Promises and callbacks

    A callback typed [void | Promise<void>] either returns, returns a
    promise, or throws.  A promise is described by how it settles. *)

Inductive Outcome := Fulfils | Rejects (e : Thrown).

Inductive CallbackReturn :=
  | ReturnsVoid
  | ReturnsPromise (o : Outcome)
  | ThrowsSync (e : Thrown).

(** [type LifecycleListener = (event) => void | Promise<void>]; [l_ref]
    is the identity of the function object, which is what a [Set] compares. *)
Record LifecycleListener := {
  l_ref : nat;
  l_call : LifecycleEvent -> CallbackReturn
}.

(** [interface LifecycleObserver]: every hook is optional.  [o_method]
    is the lookup [observer[methodName]] restricted to function values,
    [o_onError] the [onError] member. *)
Record LifecycleObserver := {
  o_ref : nat;
  o_method : string -> option CallbackReturn;
  o_onError : option (JsError -> LifecyclePhase.t -> CallbackReturn)
}.

(** What [Promise.race([module.execute(context), timeoutPromise])] sees
    of the module's promise: settled before the timer, or not. *)
Inductive Raced := SettlesInTime (o : Outcome) | StillPending.

Inductive Completion (A : Type) :=
  | Normal (a : A)
  | Throw (e : Thrown).
Arguments Normal {A} a.
Arguments Throw {A} e.

(** The promise of an [async] function at the moment the function gives
    control back to its caller. *)
Inductive AsyncState :=
  | Settled (r : Completion unit)
  | AwaitingAll (promises : list Outcome).

(** [Promise.all(promises)], awaited. *)
Fixpoint await_all (promises : list Outcome) : Completion unit :=
  match promises with
  | [] => Normal tt
  | Fulfils :: rest => await_all rest
  | Rejects e :: _ => Throw e
  end.

Definition await (p : AsyncState) : Completion unit :=
  match p with
  | Settled r => r
  | AwaitingAll promises => await_all promises
  end.

Inductive ModuleMethod := m_initialize_ | m_execute_ | m_cleanup_ | m_getStatus_.
Inductive ConsoleMethod := console_debug | console_info | console_warn | console_error.

#[global] Instance ModuleMethod_eq_dec : EqDecision ModuleMethod.
Proof. solve_decision. Defined.
#[global] Instance ConsoleMethod_eq_dec : EqDecision ConsoleMethod.
Proof. solve_decision. Defined.

(** Calls that leave the engine, as the engine makes them. *)
Inductive Action :=
  | ListenerCall (l : nat) (event : LifecycleEvent)
  | ObserverCall (o : nat) (methodName : string)
  | ObserverErrorCall (o : nat) (error : JsError) (phase : LifecyclePhase.t)
  | ConsoleCall (method : ConsoleMethod) (event : LifecycleEvent)
  | ModuleCall (m : nat) (method : ModuleMethod) (context : LifecycleContext) (result : Raced)
  | TimerWait (ms : Z).

(** The clock and the timers of the runtime, over the world the
    modules own. *)
Class Runtime (World : Type) := {
  (** [Date.now()] *)
  now : World -> Z;
  (** the world once a [setTimeout] of that many milliseconds has fired *)
  sleep : Z -> World -> World
}.

Section Objects.

Context {World : Type}.

(** [interface LifecycleModule].  The module is an object: [m_ref] is
    its identity, its mutable members ([isInitialized] and whatever it
    keeps private) live in the world.  [m_initialize] is [None] when
    [typeof module.initialize !== 'function'].  [m_execute] returns what
    the race against the timeout sees of the promise, the context as the
    module left it and the world at the moment the race is decided. *)
Record LifecycleModule := {
  m_ref : nat;
  m_name : string;
  m_version : string;
  m_phase : LifecyclePhase.t;
  m_initialize : option (LifecycleContext -> World -> Outcome * LifecycleContext * World);
  m_execute : LifecycleContext -> World -> Raced * LifecycleContext * World;
  m_cleanup : LifecycleContext -> World -> Outcome * LifecycleContext * World
}.

(** The private fields of [LifecycleEngine] ([name] is a constant),
    then the world around it. *)
Record Machine := {
  state : LifecycleState.t;
  currentPhase : option LifecyclePhase.t;
  modules : gmap LifecyclePhase.t (list LifecycleModule);
  listeners : list LifecycleListener;
  observers : list LifecycleObserver;
  eventHistory : list LifecycleEvent;
  stats : LifecycleStats;
  config : RequiredConfig;
  context : option LifecycleContext;
  eventCounter : Z;
  world : World;
  trace : list Action;
  unawaited : list AsyncState
}.

Definition set_state (v : LifecycleState.t) (s : Machine) : Machine :=
  {| state := v; currentPhase := currentPhase s; modules := modules s;
     listeners := listeners s; observers := observers s; eventHistory := eventHistory s;
     stats := stats s; config := config s; context := context s;
     eventCounter := eventCounter s; world := world s; trace := trace s;
     unawaited := unawaited s |}.

Definition set_currentPhase (v : option LifecyclePhase.t) (s : Machine) : Machine :=
  {| state := state s; currentPhase := v; modules := modules s;
     listeners := listeners s; observers := observers s; eventHistory := eventHistory s;
     stats := stats s; config := config s; context := context s;
     eventCounter := eventCounter s; world := world s; trace := trace s;
     unawaited := unawaited s |}.

Definition set_modules (v : gmap LifecyclePhase.t (list LifecycleModule)) (s : Machine) : Machine :=
  {| state := state s; currentPhase := currentPhase s; modules := v;
     listeners := listeners s; observers := observers s; eventHistory := eventHistory s;
     stats := stats s; config := config s; context := context s;
     eventCounter := eventCounter s; world := world s; trace := trace s;
     unawaited := unawaited s |}.

Definition set_listeners (v : list LifecycleListener) (s : Machine) : Machine :=
  {| state := state s; currentPhase := currentPhase s; modules := modules s;
     listeners := v; observers := observers s; eventHistory := eventHistory s;
     stats := stats s; config := config s; context := context s;
     eventCounter := eventCounter s; world := world s; trace := trace s;
     unawaited := unawaited s |}.

Definition set_observers (v : list LifecycleObserver) (s : Machine) : Machine :=
  {| state := state s; currentPhase := currentPhase s; modules := modules s;
     listeners := listeners s; observers := v; eventHistory := eventHistory s;
     stats := stats s; config := config s; context := context s;
     eventCounter := eventCounter s; world := world s; trace := trace s;
     unawaited := unawaited s |}.

Definition set_eventHistory (v : list LifecycleEvent) (s : Machine) : Machine :=
  {| state := state s; currentPhase := currentPhase s; modules := modules s;
     listeners := listeners s; observers := observers s; eventHistory := v;
     stats := stats s; config := config s; context := context s;
     eventCounter := eventCounter s; world := world s; trace := trace s;
     unawaited := unawaited s |}.

Definition set_stats (v : LifecycleStats) (s : Machine) : Machine :=
  {| state := state s; currentPhase := currentPhase s; modules := modules s;
     listeners := listeners s; observers := observers s; eventHistory := eventHistory s;
     stats := v; config := config s; context := context s;
     eventCounter := eventCounter s; world := world s; trace := trace s;
     unawaited := unawaited s |}.

Definition set_context (v : option LifecycleContext) (s : Machine) : Machine :=
  {| state := state s; currentPhase := currentPhase s; modules := modules s;
     listeners := listeners s; observers := observers s; eventHistory := eventHistory s;
     stats := stats s; config := config s; context := v;
     eventCounter := eventCounter s; world := world s; trace := trace s;
     unawaited := unawaited s |}.

Definition set_eventCounter (v : Z) (s : Machine) : Machine :=
  {| state := state s; currentPhase := currentPhase s; modules := modules s;
     listeners := listeners s; observers := observers s; eventHistory := eventHistory s;
     stats := stats s; config := config s; context := context s;
     eventCounter := v; world := world s; trace := trace s;
     unawaited := unawaited s |}.

Definition set_world (v : World) (s : Machine) : Machine :=
  {| state := state s; currentPhase := currentPhase s; modules := modules s;
     listeners := listeners s; observers := observers s; eventHistory := eventHistory s;
     stats := stats s; config := config s; context := context s;
     eventCounter := eventCounter s; world := v; trace := trace s;
     unawaited := unawaited s |}.

(** The engine made these calls, in this order. *)
Definition emit (actions : list Action) (s : Machine) : Machine :=
  {| state := state s; currentPhase := currentPhase s; modules := modules s;
     listeners := listeners s; observers := observers s; eventHistory := eventHistory s;
     stats := stats s; config := config s; context := context s;
     eventCounter := eventCounter s; world := world s; trace := trace s ++ actions;
     unawaited := unawaited s |}.

(** A promise came back to the engine and nobody holds it. *)
Definition drop_promise (p : AsyncState) (s : Machine) : Machine :=
  {| state := state s; currentPhase := currentPhase s; modules := modules s;
     listeners := listeners s; observers := observers s; eventHistory := eventHistory s;
     stats := stats s; config := config s; context := context s;
     eventCounter := eventCounter s; world := world s; trace := trace s;
     unawaited := unawaited s ++ [p] |}.

(** A statement on the object [this.context] points to, if any. *)
Definition on_context (f : LifecycleContext -> LifecycleContext) (s : Machine) : Machine :=
  set_context (f <$> context s) s.

(** ** Methods as state passing with exceptions *)

Definition Eng (A : Type) : Type := Machine -> Completion A * Machine.

Definition ret {A} (a : A) : Eng A := fun s => (Normal a, s).

Definition bind {A B} (m : Eng A) (k : A -> Eng B) : Eng B :=
  fun s =>
    match m s with
    | (Normal a, s') => k a s'
    | (Throw e, s') => (Throw e, s')
    end.

Definition throw {A} (e : Thrown) : Eng A := fun s => (Throw e, s).

(** A synchronous statement that cannot throw. *)
Definition exec (f : Machine -> Machine) : Eng unit := fun s => (Normal tt, f s).

Definition gets {A} (f : Machine -> A) : Eng A := fun s => (Normal (f s), s).

(** [try { body } catch (error) { handler }] *)
Definition try_catch {A} (body : Eng A) (handler : Thrown -> Eng A) : Eng A :=
  fun s =>
    match body s with
    | (Normal a, s') => (Normal a, s')
    | (Throw e, s') => handler e s'
    end.

(** [try { body } finally { final }]: a [final] that completes normally
    leaves the completion of [body] in place. *)
Definition try_finally {A} (body : Eng A) (final : Completion A -> Eng unit) : Eng A :=
  fun s =>
    match body s with
    | (r, s') =>
        match final r s' with
        | (Normal _, s'') => (r, s'')
        | (Throw e, s'') => (Throw e, s'')
        end
    end.

(** [for (const x of xs) { await body(x) }] *)
Fixpoint for_of {A} (xs : list A) (body : A -> Eng unit) : Eng unit :=
  match xs with
  | [] => ret tt
  | x :: rest => bind (body x) (fun _ => for_of rest body)
  end.

End Objects.

Arguments LifecycleModule : clear implicits.
Arguments Machine : clear implicits.
Arguments Eng : clear implicits.

Notation "'let*' x ':=' m 'in' k" := (bind m (fun x => k))
  (at level 10, x name, m at level 100, k at level 200, only parsing).
Notation "m ;;; k" := (bind m (fun _ => k))
  (at level 100, k at level 200, right associativity, only parsing).

(** ** core/LifecycleEngine.ts *)

Section Engine.

Context {World : Type} `{!Runtime World}.

Abbreviation Machine := (Machine World).
Abbreviation LifecycleModule := (LifecycleModule World).
Abbreviation Eng := (Eng World).

(** [private name: string = '生命周期引擎'] *)
Definition engine_name : string := "生命周期引擎".

Definition quoted (s : string) : string := dquote +:+ s +:+ dquote.

(** *** The event literals, method by method *)

Definition event_engine_created : PartialEvent :=
  event_literal LifecyclePhase.INITIALIZATION "engine_created" "生命周期引擎已创建"
    EventLevel.INFO (engine_name +:+ "已初始化并准备使用") None None.

Definition event_module_registered (phase : LifecyclePhase.t) (module : LifecycleModule) : PartialEvent :=
  event_literal phase "module_registered"
    ("模块 " +:+ quoted (m_name module) +:+ " 已注册") EventLevel.INFO
    ("模块 " +:+ quoted (m_name module) +:+ " (v" +:+ m_version module +:+ ") 已注册到 "
       +:+ LifecyclePhase.to_string phase +:+ " 阶段")
    (Some [("moduleName", JsString (m_name module)); ("moduleVersion", JsString (m_version module))])
    None.

Definition event_listener_added (phase : LifecyclePhase.t) : PartialEvent :=
  event_literal phase "listener_added" "事件监听器已添加" EventLevel.DEBUG
    "一个新的事件监听器已被注册" None None.

Definition event_observer_added (phase : LifecyclePhase.t) : PartialEvent :=
  event_literal phase "observer_added" "生命周期观察者已添加" EventLevel.DEBUG
    "一个新的生命周期观察者已被注册" None None.

Definition event_initialization_start : PartialEvent :=
  event_literal LifecyclePhase.INITIALIZATION "initialization_start" "生命周期引擎初始化开始"
    EventLevel.INFO "生命周期引擎正在初始化" None None.

Definition event_initialization_complete : PartialEvent :=
  event_literal LifecyclePhase.INITIALIZATION "initialization_complete" "生命周期引擎初始化完成"
    EventLevel.INFO "生命周期引擎已初始化完成，准备启动" None None.

Definition event_lifecycle_start : PartialEvent :=
  event_literal LifecyclePhase.INITIALIZATION "lifecycle_start" "完整生命周期执行开始"
    EventLevel.INFO "生命周期引擎开始执行完整的生命周期流程" None None.

Definition event_lifecycle_complete (duration : Z) : PartialEvent :=
  event_literal LifecyclePhase.CLEANUP "lifecycle_complete" "完整生命周期执行完成"
    EventLevel.INFO ("生命周期引擎已完成所有阶段，总耗时 " +:+ show_Z duration +:+ "ms")
    None (Some duration).

Definition event_phase_start (phase : LifecyclePhase.t) : PartialEvent :=
  event_literal phase "phase_start" (LifecyclePhase.to_string phase +:+ " 阶段开始")
    EventLevel.INFO ("生命周期的 " +:+ LifecyclePhase.to_string phase +:+ " 阶段正在执行")
    None None.

Definition event_phase_complete (phase : LifecyclePhase.t) : PartialEvent :=
  event_literal phase "phase_complete" (LifecyclePhase.to_string phase +:+ " 阶段完成")
    EventLevel.INFO ("生命周期的 " +:+ LifecyclePhase.to_string phase +:+ " 阶段已成功完成")
    None None.

Definition event_module_execute_start (module : LifecycleModule) : PartialEvent :=
  event_literal (m_phase module) "module_execute_start"
    ("模块 " +:+ quoted (m_name module) +:+ " 执行开始") EventLevel.DEBUG
    ("模块 " +:+ quoted (m_name module) +:+ " (v" +:+ m_version module +:+ ") 开始执行")
    None None.

Definition event_module_execute_complete (module : LifecycleModule) (duration : Z) : PartialEvent :=
  event_literal (m_phase module) "module_execute_complete"
    ("模块 " +:+ quoted (m_name module) +:+ " 执行完成") EventLevel.DEBUG
    ("模块 " +:+ quoted (m_name module) +:+ " 已成功执行，耗时 " +:+ show_Z duration +:+ "ms")
    None (Some duration).

Definition event_module_execute_failed (module : LifecycleModule) (maxRetries : Z)
    (error : Thrown) (retries : Z) : PartialEvent :=
  event_literal (m_phase module) "module_execute_failed"
    ("模块 " +:+ quoted (m_name module) +:+ " 执行失败") EventLevel.ERROR
    ("模块 " +:+ quoted (m_name module) +:+ " 在重试 " +:+ show_Z maxRetries +:+ " 次后仍然失败")
    (Some [("error", JsString (String_of_thrown error)); ("retries", JsNumber retries)])
    None.

Definition event_module_execute_retry (module : LifecycleModule) (retryDelay : Z)
    (error : Thrown) (retries : Z) : PartialEvent :=
  event_literal (m_phase module) "module_execute_retry"
    ("模块 " +:+ quoted (m_name module) +:+ " 执行失败，准备重试") EventLevel.WARN
    ("模块 " +:+ quoted (m_name module) +:+ " 执行失败，" +:+ show_Z retryDelay
       +:+ "ms 后进行第 " +:+ show_Z retries +:+ " 次重试")
    (Some [("error", JsString (String_of_thrown error)); ("retries", JsNumber retries);
           ("nextRetryIn", JsNumber retryDelay)])
    None.

Definition event_phase_error (phase : LifecyclePhase.t) (errorObj : JsError) : PartialEvent :=
  event_literal phase "phase_error" (LifecyclePhase.to_string phase +:+ " 阶段发生错误")
    EventLevel.ERROR
    ("生命周期的 " +:+ LifecyclePhase.to_string phase +:+ " 阶段发生错误: " +:+ message errorObj)
    (Some [("error", JsString (message errorObj)); ("stack", stack_value errorObj)])
    None.

Definition event_lifecycle_error (phase : LifecyclePhase.t) (errorObj : JsError) : PartialEvent :=
  event_literal phase "lifecycle_error" "生命周期执行过程中发生错误" EventLevel.CRITICAL
    ("生命周期执行失败: " +:+ message errorObj)
    (Some [("error", JsString (message errorObj)); ("stack", stack_value errorObj)])
    None.

Definition event_lifecycle_paused (phase : LifecyclePhase.t) : PartialEvent :=
  event_literal phase "lifecycle_paused" "生命周期执行已暂停" EventLevel.INFO
    "生命周期引擎已暂停执行" None None.

Definition event_lifecycle_resumed (phase : LifecyclePhase.t) : PartialEvent :=
  event_literal phase "lifecycle_resumed" "生命周期执行已继续" EventLevel.INFO
    "生命周期引擎已继续执行" None None.

Definition event_lifecycle_stopped (phase : LifecyclePhase.t) : PartialEvent :=
  event_literal phase "lifecycle_stopped" "生命周期执行已停止" EventLevel.INFO
    "生命周期引擎已停止" None None.

(** [this.currentPhase || LifecyclePhase.INITIALIZATION] *)
Definition currentPhase_or_INITIALIZATION (s : Machine) : LifecyclePhase.t :=
  default LifecyclePhase.INITIALIZATION (currentPhase s).

(** *** createContext, getContext *)

Definition createContext (s : Machine) : LifecycleContext :=
  {| ctx_currentPhase := currentPhase_or_INITIALIZATION s;
     ctx_previousPhase := None;
     ctx_startTime := now (world s);
     ctx_metadata := [("engineName", JsString engine_name); ("engineVersion", JsString "1.0.0")];
     ctx_data := ∅;
     ctx_events := [];
     ctx_errors := [] |}.

Definition getContext : Eng LifecycleContext :=
  fun s =>
    match context s with
    | Some c => (Normal c, s)
    | None => let c := createContext s in (Normal c, set_context (Some c) s)
    end.

(** *** The notification loops

    [notifyListeners], [notifyObserversByMethod] and [notifyObserversError]
    are the same [async] body: call each callback in turn, keep the
    promises, then [await Promise.all(promises)] when there is one.  A
    callback that throws ends the loop and rejects the function's promise.
    [calls] pairs each call with what the callback does. *)
Fixpoint notify_loop (calls : list (Action * CallbackReturn)) (promises : list Outcome)
    : list Action * AsyncState :=
  match calls with
  | [] =>
      ([], match promises with [] => Settled (Normal tt) | _ => AwaitingAll promises end)
  | (call, ReturnsVoid) :: rest =>
      let r := notify_loop rest promises in (call :: r.1, r.2)
  | (call, ReturnsPromise p) :: rest =>
      let r := notify_loop rest (promises ++ [p]) in (call :: r.1, r.2)
  | (call, ThrowsSync e) :: _ =>
      ([call], Settled (Throw e))
  end.

Definition listener_calls (event : LifecycleEvent) (ls : list LifecycleListener)
    : list (Action * CallbackReturn) :=
  (fun l => (ListenerCall (l_ref l) event, l_call l event)) <$> ls.

(** [typeof method === 'function'] filters the observers. *)
Definition observer_calls (methodName : string) (os : list LifecycleObserver)
    : list (Action * CallbackReturn) :=
  omap (fun o => (fun r => (ObserverCall (o_ref o) methodName, r)) <$> o_method o methodName) os.

Definition observer_error_calls (error : JsError) (phase : LifecyclePhase.t)
    (os : list LifecycleObserver) : list (Action * CallbackReturn) :=
  omap (fun o => (fun f => (ObserverErrorCall (o_ref o) error phase, f error phase)) <$> o_onError o) os.

(** An [async] method hands back its promise. *)
Definition notifyListeners (event : LifecycleEvent) (s : Machine) : AsyncState * Machine :=
  let r := notify_loop (listener_calls event (listeners s)) [] in (r.2, emit r.1 s).

Definition notifyObserversByMethod (methodName : string) (s : Machine) : AsyncState * Machine :=
  let r := notify_loop (observer_calls methodName (observers s)) [] in (r.2, emit r.1 s).

Definition notifyObserversError (error : JsError) (phase : LifecyclePhase.t) (s : Machine)
    : AsyncState * Machine :=
  let r := notify_loop (observer_error_calls error phase (observers s)) [] in (r.2, emit r.1 s).

(** [await f(...)] *)
Definition awaited (f : Machine -> AsyncState * Machine) : Eng unit :=
  fun s => let r := f s in (await r.1, r.2).

(** [f(...);] as a statement: the promise is lost. *)
Definition not_awaited (f : Machine -> AsyncState * Machine) (s : Machine) : Machine :=
  let r := f s in drop_promise r.1 r.2.

Definition notifyObservers (methodName : string) : Eng unit :=
  awaited (notifyObserversByMethod methodName).

(** *** outputLog, logEvent *)

Definition console_method (level : EventLevel.t) : ConsoleMethod :=
  match level with
  | EventLevel.DEBUG => console_debug
  | EventLevel.INFO => console_info
  | EventLevel.WARN => console_warn
  | EventLevel.ERROR | EventLevel.CRITICAL => console_error
  end.

Definition outputLog (event : LifecycleEvent) (s : Machine) : Machine :=
  emit (if cfg_enableDebugLogging (config s) || bool_decide (ev_level event ≠ EventLevel.DEBUG)
        then [ConsoleCall (console_method (ev_level event)) event]
        else []) s.

(** [const fullEvent = { id: `event_${++this.eventCounter}`, ... }], read
    once the counter has been incremented. *)
Definition fullEvent (event : PartialEvent) (s : Machine) : LifecycleEvent :=
  {| ev_id := "event_" +:+ show_Z (eventCounter s);
     ev_phase := default (currentPhase_or_INITIALIZATION s) (pe_phase event);
     ev_type := or_string (pe_type event) "unknown";
     ev_name := or_string (pe_name event) "未命名事件";
     ev_timestamp := or_number (pe_timestamp event) (now (world s));
     ev_description := or_string (pe_description event) "";
     ev_level := default EventLevel.INFO (pe_level event);
     ev_data := pe_data event;
     ev_source := or_string (pe_source event) engine_name;
     ev_duration := pe_duration event |}.

(** [this.eventHistory.push(e); if (length > maxHistorySize) shift()],
    under [saveHistory]. *)
Definition history_push (cfg : RequiredConfig) (e : LifecycleEvent)
    (history : list LifecycleEvent) : list LifecycleEvent :=
  if cfg_saveHistory cfg then
    let pushed := history ++ [e] in
    if decide (Z.of_nat (List.length pushed) > cfg_maxHistorySize cfg) then tail pushed else pushed
  else history.

Definition logEvent (event : PartialEvent) (s : Machine) : Machine :=
  let s1 := set_eventCounter (eventCounter s + 1) s in
  let e := fullEvent event s1 in
  let s2 := set_eventHistory (history_push (config s1) e (eventHistory s1)) s1 in
  let s3 := on_context (ctx_push_event e) s2 in
  let s4 := not_awaited (notifyListeners e) s3 in
  outputLog e s4.

(** *** constructor *)

Definition default_config : RequiredConfig :=
  {| cfg_enableParallel := false;
     cfg_phaseTimeout := 30000;
     cfg_enableDebugLogging := false;
     cfg_continueOnError := false;
     cfg_maxRetries := 3;
     cfg_retryDelay := 1000;
     cfg_saveHistory := true;
     cfg_maxHistorySize := 1000 |}.

(** [{ ...defaults, ...config }]: a member the caller left out keeps its default. *)
Definition spread_config (cfg : option LifecycleConfig) : RequiredConfig :=
  match cfg with
  | None => default_config
  | Some c =>
      {| cfg_enableParallel := default (cfg_enableParallel default_config) (enableParallel c);
         cfg_phaseTimeout := default (cfg_phaseTimeout default_config) (phaseTimeout c);
         cfg_enableDebugLogging := default (cfg_enableDebugLogging default_config) (enableDebugLogging c);
         cfg_continueOnError := default (cfg_continueOnError default_config) (continueOnError c);
         cfg_maxRetries := default (cfg_maxRetries default_config) (maxRetries c);
         cfg_retryDelay := default (cfg_retryDelay default_config) (retryDelay c);
         cfg_saveHistory := default (cfg_saveHistory default_config) (saveHistory c);
         cfg_maxHistorySize := default (cfg_maxHistorySize default_config) (maxHistorySize c) |}
  end.

Definition stats_with_phaseStats (m : gmap LifecyclePhase.t PhaseStatistics)
    (st : LifecycleStats) : LifecycleStats :=
  {| st_totalExecutions := st_totalExecutions st;
     st_successfulExecutions := st_successfulExecutions st;
     st_failedExecutions := st_failedExecutions st;
     st_totalDuration := st_totalDuration st;
     st_averageDuration := st_averageDuration st;
     st_minDuration := st_minDuration st;
     st_maxDuration := st_maxDuration st;
     st_phaseStats := m |}.

Definition fresh_phase_statistics (phase : LifecyclePhase.t) : PhaseStatistics :=
  {| ps_phaseName := phase; ps_executionCount := 0; ps_successCount := 0;
     ps_failureCount := 0; ps_totalDuration := 0; ps_averageDuration := 0%Q;
     ps_lastExecutionTime := 0 |}.

Definition initializePhaseStats (s : Machine) : Machine :=
  set_stats
    (stats_with_phaseStats
       (foldl (fun acc phase => <[phase := fresh_phase_statistics phase]> acc)
              (st_phaseStats (stats s)) LifecyclePhase.values)
       (stats s)) s.

(** The field initialisers of the class, with [config] as the
    constructor assigns it. *)
Definition field_initializers (cfg : RequiredConfig) (w : World) : Machine :=
  {| state := LifecycleState.UNINITIALIZED;
     currentPhase := None;
     modules := ∅;
     listeners := [];
     observers := [];
     eventHistory := [];
     stats := {| st_totalExecutions := 0; st_successfulExecutions := 0;
                 st_failedExecutions := 0; st_totalDuration := 0;
                 st_averageDuration := 0%Q; st_minDuration := None;
                 st_maxDuration := 0; st_phaseStats := ∅ |};
     config := cfg;
     context := None;
     eventCounter := 0;
     world := w;
     trace := [];
     unawaited := [] |}.

(** [new LifecycleEngine(config)] in the world [w]. *)
Definition new_LifecycleEngine (cfg : option LifecycleConfig) (w : World) : Machine :=
  logEvent event_engine_created
    (initializePhaseStats (field_initializers (spread_config cfg) w)).

(** *** registerModule, listeners and observers *)

Definition invalid_module_error : Thrown :=
  ThrownError (new_Error "无效的生命周期模块").

(** [module] is [None] for a falsy argument. *)
Definition registerModule (phase : LifecyclePhase.t) (module : option LifecycleModule) : Eng unit :=
  match module with
  | None => throw invalid_module_error
  | Some m =>
      match m_initialize m with
      | None => throw invalid_module_error
      | Some _ =>
          exec (fun s => set_modules
                  (<[phase := default [] (modules s !! phase) ++ [m]]> (modules s)) s) ;;;
          exec (logEvent (event_module_registered phase m))
      end
  end.

(** [Set.prototype.add]: an object already in the set is not added again. *)
Definition addEventListener (listener : LifecycleListener) (s : Machine) : Machine :=
  let s1 := set_listeners
              (if bool_decide (l_ref listener ∈ l_ref <$> listeners s) then listeners s
               else listeners s ++ [listener]) s in
  logEvent (event_listener_added (currentPhase_or_INITIALIZATION s1)) s1.

Definition removeEventListener (listener : LifecycleListener) (s : Machine) : bool * Machine :=
  (bool_decide (l_ref listener ∈ l_ref <$> listeners s),
   set_listeners (filter (fun l => l_ref l ≠ l_ref listener) (listeners s)) s).

Definition addObserver (observer : LifecycleObserver) (s : Machine) : Machine :=
  let s1 := set_observers
              (if bool_decide (o_ref observer ∈ o_ref <$> observers s) then observers s
               else observers s ++ [observer]) s in
  logEvent (event_observer_added (currentPhase_or_INITIALIZATION s1)) s1.

Definition removeObserver (observer : LifecycleObserver) (s : Machine) : bool * Machine :=
  (bool_decide (o_ref observer ∈ o_ref <$> observers s),
   set_observers (filter (fun o => o_ref o ≠ o_ref observer) (observers s)) s).

(** *** executeModule *)

Definition timeout_error (module : LifecycleModule) : Thrown :=
  ThrownError (new_Error ("模块 " +:+ quoted (m_name module) +:+ " 执行超时")).

(** [await Promise.race([executePromise, timeoutPromise])] *)
Definition race (module : LifecycleModule) (r : Raced) : Completion unit :=
  match r with
  | SettlesInTime Fulfils => Normal tt
  | SettlesInTime (Rejects e) => Throw e
  | StillPending => Throw (timeout_error module)
  end.

(** [module.execute(context)] raced against the timer.  [context] is the
    object [this.context] holds since the [getContext()] of
    [executePhaseModules]; the module works on that very object. *)
Definition call_execute (module : LifecycleModule) : Eng unit :=
  let* context := getContext in
  fun s =>
    let r := m_execute module context (world s) in
    (race module r.1.1,
     emit [ModuleCall (m_ref module) m_execute_ context r.1.1]
       (set_world r.2 (set_context (Some r.1.2) s))).

(** [await new Promise(resolve => setTimeout(resolve, ms))] *)
Definition wait (ms : Z) (s : Machine) : Machine :=
  emit [TimerWait ms] (set_world (sleep ms (world s)) s).

Inductive LoopControl := Break | Continue.

(** One turn of the [while]: the [try] block and its [catch].  The
    increment [retries++] is the caller's, it is [retries + 1] here. *)
Definition attempt (module : LifecycleModule) (retries : Z) : Eng LoopControl :=
  try_catch
    (let* startTime := gets (fun s => now (world s)) in
     exec (logEvent (event_module_execute_start module)) ;;;
     call_execute module ;;;
     let* duration := gets (fun s => now (world s) - startTime) in
     exec (logEvent (event_module_execute_complete module duration)) ;;;
     ret Break)
    (fun error =>
     let* cfg := gets config in
     if decide (retries + 1 > cfg_maxRetries cfg) then
       exec (logEvent (event_module_execute_failed module (cfg_maxRetries cfg) error (retries + 1))) ;;;
       throw error
     else
       exec (logEvent (event_module_execute_retry module (cfg_retryDelay cfg) error (retries + 1))) ;;;
       exec (wait (cfg_retryDelay cfg)) ;;;
       ret Continue).

Definition inspect {A} (a : A) : {b | a = b} := exist _ a eq_refl.

(** [while (retries <= this.config.maxRetries) { ... }].  [config] is
    assigned by the constructor only, the bound is read once. *)
Equations? executeModule_while (module : LifecycleModule) (maxRetries retries : Z)
    (s : Machine) : Completion unit * Machine
    by wf (Z.to_nat (maxRetries + 1 - retries)) lt :=
  executeModule_while module maxRetries retries s with inspect (retries <=? maxRetries) := {
    | exist _ true _ =>
        match attempt module retries s with
        | (Normal Break, s') => (Normal tt, s')
        | (Normal Continue, s') => executeModule_while module maxRetries (retries + 1) s'
        | (Throw e, s') => (Throw e, s')
        end;
    | exist _ false _ => (Normal tt, s) }.
Proof. lia. Qed.

Definition executeModule (module : LifecycleModule) : Eng unit :=
  fun s => executeModule_while module (cfg_maxRetries (config s)) 0 s.

(** *** executePhaseModules *)

Definition executePhaseModules (phase : LifecyclePhase.t) : Eng unit :=
  let* registered := gets (fun s => default [] (modules s !! phase)) in
  let* context := getContext in
  for_of registered executeModule.

(** *** handlePhaseError, handleLifecycleError *)

Definition handlePhaseError (error : Thrown) (phase : LifecyclePhase.t) (s : Machine) : Machine :=
  let errorObj := as_Error error in
  let s1 := on_context (ctx_push_error errorObj) s in
  let s2 := logEvent (event_phase_error phase errorObj) s1 in
  not_awaited (notifyObserversError errorObj phase) s2.

Definition handleLifecycleError (error : Thrown) (s : Machine) : Machine :=
  let errorObj := as_Error error in
  logEvent (event_lifecycle_error (currentPhase_or_INITIALIZATION s) errorObj) s.

(** *** executePhase *)

Definition getPhaseMethodName (phase : LifecyclePhase.t) : string :=
  match phase with
  | LifecyclePhase.INITIALIZATION => "Initialization"
  | LifecyclePhase.PREPARATION => "Preparation"
  | LifecyclePhase.VALIDATION => "Validation"
  | LifecyclePhase.EXECUTION => "Execution"
  | LifecyclePhase.MONITORING => "Monitoring"
  | LifecyclePhase.CLEANUP => "Cleanup"
  end.

(** The string keys [in] finds on the object [this.observers.values()]
    returns: a Set iterator has no own property, its prototypes are
    %SetIteratorPrototype%, %Iterator.prototype% and [Object.prototype]. *)
Definition SetIterator_keys : list string :=
  [ "next";
    "constructor"; "map"; "filter"; "take"; "drop"; "flatMap"; "reduce"; "toArray";
    "forEach"; "some"; "every"; "find";
    "hasOwnProperty"; "isPrototypeOf"; "propertyIsEnumerable"; "toLocaleString";
    "toString"; "valueOf"; "__proto__"; "__defineGetter__"; "__defineSetter__";
    "__lookupGetter__"; "__lookupSetter__" ].

(** [methodName in this.observers.values()] *)
Definition in_observers_values (methodName : string) : bool :=
  bool_decide (methodName ∈ SetIterator_keys).

Definition phaseStats_missing : Thrown :=
  ThrownError (new_Error "TypeError: phaseStats is undefined").

(** The [finally] block.  [this.stats.phaseStats.get(phase)!] is
    dereferenced: a missing entry is a [TypeError]. *)
Definition update_phase_statistics (phase : LifecyclePhase.t) (startTime : Z)
    (result : ExecutionResult.t) : Eng unit :=
  fun s =>
    let duration := now (world s) - startTime in
    match st_phaseStats (stats s) !! phase with
    | None => (Throw phaseStats_missing, s)
    | Some phaseStats =>
        let executionCount := ps_executionCount phaseStats + 1 in
        let totalDuration := ps_totalDuration phaseStats + duration in
        let updated :=
          {| ps_phaseName := ps_phaseName phaseStats;
             ps_executionCount := executionCount;
             ps_successCount :=
               if decide (result = ExecutionResult.SUCCESS)
               then ps_successCount phaseStats + 1 else ps_successCount phaseStats;
             ps_failureCount :=
               if decide (result = ExecutionResult.SUCCESS)
               then ps_failureCount phaseStats else ps_failureCount phaseStats + 1;
             ps_totalDuration := totalDuration;
             ps_averageDuration := (inject_Z totalDuration / inject_Z executionCount)%Q;
             ps_lastExecutionTime := now (world s) |} in
        (Normal tt,
         set_stats (stats_with_phaseStats (<[phase := updated]> (st_phaseStats (stats s)))
                      (stats s)) s)
    end.

(** The [try] block of [executePhase] and its [catch].  [let result =
    SUCCESS] is written by the [catch] block only, before it rethrows or
    falls through: the value is [FAILURE] exactly when the [try] block
    threw, and the block hands it on. *)
Definition executePhase_try (phase : LifecyclePhase.t) : Eng ExecutionResult.t :=
  try_catch
    (let onStartMethod := "on" +:+ getPhaseMethodName phase +:+ "Start" in
     (if in_observers_values onStartMethod
      then awaited (notifyObserversByMethod onStartMethod) else ret tt) ;;;
     exec (logEvent (event_phase_start phase)) ;;;
     executePhaseModules phase ;;;
     let onCompleteMethod := "on" +:+ getPhaseMethodName phase +:+ "Complete" in
     (if in_observers_values onCompleteMethod
      then awaited (notifyObserversByMethod onCompleteMethod) else ret tt) ;;;
     exec (logEvent (event_phase_complete phase)) ;;;
     ret ExecutionResult.SUCCESS)
    (fun error =>
     exec (handlePhaseError error phase) ;;;
     let* cfg := gets config in
     if negb (cfg_continueOnError cfg) then throw error
     else ret ExecutionResult.FAILURE).

(** What the [finally] block reads in [result]. *)
Definition result_of (completion : Completion ExecutionResult.t) : ExecutionResult.t :=
  match completion with
  | Normal result => result
  | Throw _ => ExecutionResult.FAILURE
  end.

Definition executePhase (phase : LifecyclePhase.t) : Eng unit :=
  exec (set_currentPhase (Some phase)) ;;;
  let* context := getContext in
  exec (on_context (ctx_enter_phase phase)) ;;;
  let* startTime := gets (fun s => now (world s)) in
  let* result :=
    try_finally (executePhase_try phase)
      (fun completion => update_phase_statistics phase startTime (result_of completion)) in
  ret tt.

(** *** initialize, start *)

Definition already_initialized_error : Thrown :=
  ThrownError (new_Error "引擎已初始化，无法重复初始化").

Definition cannot_start_error : Thrown :=
  ThrownError (new_Error "引擎状态不正确，无法启动").

(** The [try] block of [initialize] and its [catch]. *)
Definition initialize_try : Eng unit :=
  try_catch
    (exec (set_state LifecycleState.PREPARING) ;;;
     exec (fun s => set_context (Some (createContext s)) s) ;;;
     exec (logEvent event_initialization_start) ;;;
     notifyObservers "onInitializationStart" ;;;
     executePhaseModules LifecyclePhase.INITIALIZATION ;;;
     notifyObservers "onInitializationComplete" ;;;
     exec (set_state LifecycleState.STOPPED) ;;;
     exec (logEvent event_initialization_complete))
    (fun error =>
     exec (set_state LifecycleState.ERROR) ;;;
     exec (handlePhaseError error LifecyclePhase.INITIALIZATION) ;;;
     throw error).

Definition initialize : Eng unit :=
  let* st := gets state in
  if decide (st ≠ LifecycleState.UNINITIALIZED) then throw already_initialized_error
  else initialize_try.

(** The phases [start] walks through. *)
Definition start_phases : list LifecyclePhase.t :=
  [ LifecyclePhase.PREPARATION; LifecyclePhase.VALIDATION; LifecyclePhase.EXECUTION;
    LifecyclePhase.MONITORING; LifecyclePhase.CLEANUP ].

Definition record_successful_run (duration : Z) (s : Machine) : Machine :=
  let st := stats s in
  let totalExecutions := st_totalExecutions st + 1 in
  let totalDuration := st_totalDuration st + duration in
  set_stats
    {| st_totalExecutions := totalExecutions;
       st_successfulExecutions := st_successfulExecutions st + 1;
       st_failedExecutions := st_failedExecutions st;
       st_totalDuration := totalDuration;
       st_averageDuration := (inject_Z totalDuration / inject_Z totalExecutions)%Q;
       st_minDuration :=
         Some (match st_minDuration st with
               | None => duration
               | Some m => Z.min m duration
               end);
       st_maxDuration := Z.max (st_maxDuration st) duration;
       st_phaseStats := st_phaseStats st |} s.

Definition record_failed_run (s : Machine) : Machine :=
  let st := stats s in
  set_stats
    {| st_totalExecutions := st_totalExecutions st + 1;
       st_successfulExecutions := st_successfulExecutions st;
       st_failedExecutions := st_failedExecutions st + 1;
       st_totalDuration := st_totalDuration st;
       st_averageDuration := st_averageDuration st;
       st_minDuration := st_minDuration st;
       st_maxDuration := st_maxDuration st;
       st_phaseStats := st_phaseStats st |} s.

(** The [try] block of [start] and its [catch]. *)
Definition start_try : Eng unit :=
  try_catch
    (exec (set_state LifecycleState.RUNNING) ;;;
     exec (logEvent event_lifecycle_start) ;;;
     let* startTime := gets (fun s => now (world s)) in
     for_of start_phases executePhase ;;;
     let* duration := gets (fun s => now (world s) - startTime) in
     exec (record_successful_run duration) ;;;
     exec (set_state LifecycleState.STOPPED) ;;;
     exec (logEvent (event_lifecycle_complete duration)))
    (fun error =>
     exec (set_state LifecycleState.ERROR) ;;;
     exec record_failed_run ;;;
     exec (handleLifecycleError error) ;;;
     throw error).

Definition start : Eng unit :=
  let* st := gets state in
  (if decide (st = LifecycleState.UNINITIALIZED) then initialize else ret tt) ;;;
  let* st := gets state in
  if decide (st ≠ LifecycleState.STOPPED ∧ st ≠ LifecycleState.PAUSED)
  then throw cannot_start_error
  else start_try.

(** *** The accessors and pause, resume, stop *)

Definition getState (s : Machine) : LifecycleState.t := state s.
Definition getCurrentPhase (s : Machine) : option LifecyclePhase.t := currentPhase s.
Definition getStats (s : Machine) : LifecycleStats := stats s.

(** [limit === undefined ? [...history] : history.slice(-limit)] *)
Definition getEventHistory (limit : option Z) (s : Machine) : list LifecycleEvent :=
  match limit with
  | None => eventHistory s
  | Some l =>
      let len := Z.of_nat (List.length (eventHistory s)) in
      let from := if decide (- l < 0) then Z.max (len + - l) 0 else Z.min (- l) len in
      drop (Z.to_nat from) (eventHistory s)
  end.

Definition pause (s : Machine) : Machine :=
  if decide (state s = LifecycleState.RUNNING) then
    let s1 := set_state LifecycleState.PAUSED s in
    logEvent (event_lifecycle_paused (currentPhase_or_INITIALIZATION s1)) s1
  else s.

Definition resume (s : Machine) : Machine :=
  if decide (state s = LifecycleState.PAUSED) then
    let s1 := set_state LifecycleState.RUNNING s in
    logEvent (event_lifecycle_resumed (currentPhase_or_INITIALIZATION s1)) s1
  else s.

Definition stop (s : Machine) : Machine :=
  if decide (state s ≠ LifecycleState.STOPPED) then
    let s1 := set_state LifecycleState.STOPPED s in
    logEvent (event_lifecycle_stopped (currentPhase_or_INITIALIZATION s1)) s1
  else s.

End Engine.

(** ** Reading a trace *)

(** The calls of [method] on the module [ref]. *)
Definition is_module_call (ref : nat) (method : ModuleMethod) (a : Action) : bool :=
  match a with
  | ModuleCall r m _ _ => bool_decide (r = ref ∧ m = method)
  | _ => false
  end.

Definition module_calls (ref : nat) (method : ModuleMethod) (tr : list Action) : list Action :=
  List.filter (is_module_call ref method) tr.

(** The observer hooks called, with the observer they were called on. *)
Definition hook_calls (tr : list Action) : list (nat * string) :=
  omap (fun a => match a with ObserverCall o name => Some (o, name) | _ => None end) tr.

(** The phase markers of a context. *)
Definition markers (current : LifecyclePhase.t) (previous : option LifecyclePhase.t)
    (c : LifecycleContext) : Prop :=
  ctx_currentPhase c = current ∧ ctx_previousPhase c = previous.

Definition is_console_call (a : Action) : bool :=
  match a with ConsoleCall _ _ => true | _ => false end.

(** *** Events up to their phase tag *)

Definition retag (phase : LifecyclePhase.t) (e : LifecycleEvent) : LifecycleEvent :=
  {| ev_id := ev_id e; ev_phase := phase; ev_type := ev_type e; ev_name := ev_name e;
     ev_timestamp := ev_timestamp e; ev_description := ev_description e;
     ev_level := ev_level e; ev_data := ev_data e; ev_source := ev_source e;
     ev_duration := ev_duration e |}.

(** An event, a context and a call with the phase tags of the events
    blanked. *)
Definition untag (e : LifecycleEvent) : LifecycleEvent := retag LifecyclePhase.INITIALIZATION e.

Definition untag_context (c : LifecycleContext) : LifecycleContext :=
  {| ctx_currentPhase := ctx_currentPhase c; ctx_previousPhase := ctx_previousPhase c;
     ctx_startTime := ctx_startTime c; ctx_metadata := ctx_metadata c;
     ctx_data := ctx_data c; ctx_events := untag <$> ctx_events c;
     ctx_errors := ctx_errors c |}.

Definition untag_action (a : Action) : Action :=
  match a with
  | ListenerCall l e => ListenerCall l (untag e)
  | ConsoleCall method e => ConsoleCall method (untag e)
  | ModuleCall m method c r => ModuleCall m method (untag_context c) r
  | ObserverCall _ _ | ObserverErrorCall _ _ _ | TimerWait _ => a
  end.

(** The events a call carries have the phase tag [phase]. *)
Definition tagged (phase : LifecyclePhase.t) (a : Action) : Prop :=
  match a with
  | ListenerCall _ e | ConsoleCall _ e => ev_phase e = phase
  | _ => True
  end.

(** A listener that does not look at the phase tag of the event. *)
Definition phase_blind (l : LifecycleListener) : Prop :=
  ∀ e, l_call l (untag e) = l_call l e.

(** The phase markers of the contexts the module [ref] was handed. *)
Definition markers_handed (ref : nat) (tr : list Action)
    : list (LifecyclePhase.t * option LifecyclePhase.t) :=
  omap (fun a => match a with
                 | ModuleCall r _ c _ =>
                     if decide (r = ref) then Some (ctx_currentPhase c, ctx_previousPhase c)
                     else None
                 | _ => None
                 end) tr.

(** The console lines among the calls. *)
Definition console_calls (tr : list Action) : list Action := List.filter is_console_call tr.


(** The statistics of a phase with one more execution counted: it took
    [duration], ended at [time], and went through or not. *)
Definition counted (old : PhaseStatistics) (duration time : Z) (success : bool)
    : PhaseStatistics :=
  {| ps_phaseName := ps_phaseName old;
     ps_executionCount := ps_executionCount old + 1;
     ps_successCount := if success then ps_successCount old + 1 else ps_successCount old;
     ps_failureCount := if success then ps_failureCount old else ps_failureCount old + 1;
     ps_totalDuration := ps_totalDuration old + duration;
     ps_averageDuration :=
       (inject_Z (ps_totalDuration old + duration) / inject_Z (ps_executionCount old + 1))%Q;
     ps_lastExecutionTime := time |}.


(** ** Vocabulary of the statements *)

Section Vocabulary.

Context {World : Type} `{!Runtime World}.

(** [logEvent] called on each literal in turn. *)
Definition emit_all (events : list PartialEvent) (s : Machine World) : Machine World :=
  foldl (fun acc event => logEvent event acc) s events.

(** The full events those calls build, in emission order. *)
Fixpoint emitted (events : list PartialEvent) (s : Machine World) : list LifecycleEvent :=
  match events with
  | [] => []
  | event :: rest =>
      fullEvent event (set_eventCounter (eventCounter s + 1) s) :: emitted rest (logEvent event s)
  end.

(** What one [logEvent] adds to the trace: the listener calls, then the console. *)
Definition logEvent_actions (event : PartialEvent) (s : Machine World) : list Action :=
  let e := fullEvent event (set_eventCounter (eventCounter s + 1) s) in
  (notify_loop (listener_calls e (listeners s)) []).1 ++
  (if cfg_enableDebugLogging (config s) || bool_decide (ev_level e ≠ EventLevel.DEBUG)
   then [ConsoleCall (console_method (ev_level e)) e] else []).

(** A module whose [execute] never resolves in time, whatever the
    context and the world. *)
Definition always_fails (module : LifecycleModule World) : Prop :=
  ∀ c w, (m_execute module c w).1.1 ≠ SettlesInTime Fulfils.

Definition failed (r : Raced) : Prop := r ≠ SettlesInTime Fulfils.

(** A promise that was complete when it was dropped. *)
Definition settled (p : AsyncState) : bool :=
  match p with Settled _ => true | AwaitingAll _ => false end.

Definition throws_sync (r : CallbackReturn) : bool :=
  match r with ThrowsSync _ => true | _ => false end.

(** The promise a callback returned, if it returned one. *)
Definition returned_promise (r : CallbackReturn) : option Outcome :=
  match r with ReturnsPromise p => Some p | _ => None end.

(** The last [n] entries of a list. *)
Definition keep_last {A} (n : nat) (l : list A) : list A := drop (List.length l - n) l.

(** *** Runs

    What a stretch of the engine's code leaves alone, and what it may
    add to the trace.  The global counters of the statistics and the set
    of phases that have statistics are left alone by everything but
    [start]. *)
Definition stats_rel (a b : LifecycleStats) : Prop :=
  st_totalExecutions b = st_totalExecutions a ∧
  st_successfulExecutions b = st_successfulExecutions a ∧
  st_failedExecutions b = st_failedExecutions a ∧
  ∀ p, is_Some (st_phaseStats a !! p) → is_Some (st_phaseStats b !! p).

Record frame (P : Action → Prop) (s s' : Machine World) : Prop := {
  frame_config : config s' = config s;
  frame_modules : modules s' = modules s;
  frame_listeners : listeners s' = listeners s;
  frame_observers : observers s' = observers s;
  frame_stats : stats_rel (stats s) (stats s');
  frame_trace : ∃ d, trace s' = trace s ++ d ∧ Forall P d
}.

(** The same without the statistics, for [start], which counts the runs. *)
Record traced (P : Action → Prop) (s s' : Machine World) : Prop := {
  traced_config : config s' = config s;
  traced_modules : modules s' = modules s;
  traced_listeners : listeners s' = listeners s;
  traced_observers : observers s' = observers s;
  traced_trace : ∃ d, trace s' = trace s ++ d ∧ Forall P d
}.

(** The context exists and satisfies [I]. *)
Definition ctx_inv (I : LifecycleContext → Prop) (s : Machine World) : Prop :=
  ∃ c, context s = Some c ∧ I c.

(** [I] does not look at the lists the engine appends to. *)
Definition stable (I : LifecycleContext → Prop) : Prop :=
  ∀ c, I c → (∀ e, I (ctx_push_event e c)) ∧ (∀ e, I (ctx_push_error e c)).

(** The module hands back a context that still satisfies [I]. *)
Definition respects (I : LifecycleContext → Prop) (module : LifecycleModule World) : Prop :=
  ∀ c w, I c → I (m_execute module c w).1.2.

(** The calls a run of the modules [refs] may make: [execute] on those
    modules, with a context that satisfies [I]; the observer hooks named
    in [hooks]; listeners, console, timers and [onError] at will. *)
Definition run_action (I : LifecycleContext → Prop) (refs : list nat) (hooks : list string)
    (a : Action) : Prop :=
  match a with
  | ListenerCall _ _ | ConsoleCall _ _ | TimerWait _ | ObserverErrorCall _ _ _ => True
  | ObserverCall _ name => name ∈ hooks
  | ModuleCall r method c _ => r ∈ refs ∧ method = m_execute_ ∧ I c
  end.

(** From a state that satisfies [Pre] the method ends, normally or
    not, in a state that satisfies [Post], and [R] relates the two. *)
Definition hoare (Pre Post : Machine World → Prop) (R : Machine World → Machine World → Prop)
    {A} (m : Eng World A) : Prop :=
  ∀ s, Pre s → Post (m s).2 ∧ R s (m s).2.

(** What a method added to the trace. *)
Definition added (s s' : Machine World) : list Action :=
  drop (List.length (trace s)) (trace s').

(** The identities of the modules registered under the given phases. *)
Definition registered_refs (M : gmap LifecyclePhase.t (list (LifecycleModule World)))
    (phases : list LifecyclePhase.t) : list nat :=
  phases ≫= (fun p => m_ref <$> default [] (M !! p)).

Definition is_normal {A} (r : Completion A) : bool :=
  match r with Normal _ => true | Throw _ => false end.

(** The context a module is handed: the engine's, created on the spot
    when there is none yet. *)
Definition the_context (s : Machine World) : LifecycleContext :=
  default (createContext s) (context s).

(** *** The beat of a module execution

    What counts for the retry policy among the calls of a trace: the
    executions, the console lines of level WARN and above, the timers. *)
Inductive Beat :=
  | Attempt (r : Raced)
  | Logged (level : EventLevel.t) (type : string)
  | Waited (ms : Z).

Definition beat (a : Action) : option Beat :=
  match a with
  | ModuleCall _ m_execute_ _ r => Some (Attempt r)
  | ConsoleCall _ e =>
      match ev_level e with
      | EventLevel.DEBUG | EventLevel.INFO => None
      | level => Some (Logged level (ev_type e))
      end
  | TimerWait ms => Some (Waited ms)
  | _ => None
  end.

Definition rhythm (d : list Action) : list Beat := omap beat d.

(** A failed attempt that is retried: the execution, the WARN line of
    the retry event, the wait. *)
Definition retry_beat (delay : Z) (r : Raced) : list Beat :=
  [Attempt r; Logged EventLevel.WARN "module_execute_retry"; Waited delay].

(** A call in the trace is the call of [execute] on [module], and what
    it records is what [execute] gave. *)
Definition genuine (module : LifecycleModule World) (a : Action) : Prop :=
  match a with
  | ModuleCall ref method c r =>
      ref = m_ref module ∧ method = m_execute_ ∧ ∃ w, (m_execute module c w).1.1 = r
  | _ => True
  end.






(** The first statements of [executePhase], up to the [try]. *)
Definition enter_phase (phase : LifecyclePhase.t) (s : Machine World) : Machine World :=
  on_context (ctx_enter_phase phase) (getContext (set_currentPhase (Some phase) s)).2.

(** [error] is the failure of an execution, recorded in [d], of one of
    the modules [ms]. *)
Definition raised_by (ms : list (LifecycleModule World)) (error : Thrown) (d : list Action) : Prop :=
  ∃ module c r,
    module ∈ ms ∧ ModuleCall (m_ref module) m_execute_ c r ∈ d ∧ race module r = Throw error.

(** The modules registered under the given phases. *)
Definition registered (M : gmap LifecyclePhase.t (list (LifecycleModule World)))
    (phases : list LifecyclePhase.t) : list (LifecycleModule World) :=
  phases ≫= (fun p => default [] (M !! p)).

(** [start] gets past its guards: the engine is stopped or paused, or
    new and its initialization goes through. *)
Definition ready (s : Machine World) : Prop :=
  state s = LifecycleState.STOPPED ∨ state s = LifecycleState.PAUSED ∨
  (state s = LifecycleState.UNINITIALIZED ∧ (initialize s).1 = Normal tt).

(** Every phase has its statistics, as the constructor leaves them. *)
Definition stats_complete (s : Machine World) : Prop :=
  ∀ p, is_Some (st_phaseStats (stats s) !! p).

(** The state in which [executePhase] starts the modules of the phase:
    the markers set, the "phase_start" event logged. *)
Definition modules_start (phase : LifecyclePhase.t) (s : Machine World) : Machine World :=
  logEvent (event_phase_start phase) (enter_phase phase s).

(** [module], registered under [phase] after the modules [before],
    fails for good when [executePhase phase] is called in [s]: the
    modules before it go through, its own [executeModule] throws
    [error], which it does once the attempts it had have failed. *)
Definition fails_for_good (phase : LifecyclePhase.t) (before : list (LifecycleModule World))
    (module : LifecycleModule World) (error : Thrown) (s : Machine World) : Prop :=
  (for_of before executeModule (modules_start phase s)).1 = Normal tt ∧
  (executeModule module (for_of before executeModule (modules_start phase s)).2).1 = Throw error.

(** The phases of [phases] before [p]. *)
Fixpoint before_phase (p : LifecyclePhase.t) (phases : list LifecyclePhase.t)
    : list LifecyclePhase.t :=
  match phases with
  | [] => []
  | x :: rest => if decide (x = p) then [] else x :: before_phase p rest
  end.

(** The state in which [start()] enters its loop over the phases: the
    engine initialized if it was new, RUNNING, the "lifecycle_start"
    event logged. *)
Definition phases_start (s : Machine World) : Machine World :=
  logEvent event_lifecycle_start
    (set_state LifecycleState.RUNNING
       (if decide (state s = LifecycleState.UNINITIALIZED) then (initialize s).2 else s)).

(** The loop of [start()] up to the call [executePhase(phase)]. *)
Definition phase_entry (phase : LifecyclePhase.t) (s : Machine World)
    : Completion unit * Machine World :=
  for_of (before_phase phase start_phases) executePhase (phases_start s).

(** [initialize()] up to the modules of INITIALIZATION. *)
Definition initialization_entry (s : Machine World) : Completion unit * Machine World :=
  let s0 := set_state LifecycleState.PREPARING s in
  notifyObservers "onInitializationStart"
    (logEvent event_initialization_start (set_context (Some (createContext s0)) s0)).

(** The run of [start()] from [s] gets to the module registered under
    [phase] after the modules [before]: what comes before it in the
    run ends without throwing. *)
Definition reaches (phase : LifecyclePhase.t) (before : list (LifecycleModule World))
    (s : Machine World) : Prop :=
  match phase with
  | LifecyclePhase.INITIALIZATION =>
      state s = LifecycleState.UNINITIALIZED ∧
      (initialization_entry s).1 = Normal tt ∧
      (for_of before executeModule (initialization_entry s).2).1 = Normal tt
  | _ =>
      ready s ∧
      (phase_entry phase s).1 = Normal tt ∧
      (for_of before executeModule (modules_start phase (phase_entry phase s).2)).1 = Normal tt
  end.

(** [module] with another [phase] member. *)
Definition with_phase (phase : LifecyclePhase.t) (module : LifecycleModule World)
    : LifecycleModule World :=
  {| m_ref := m_ref module; m_name := m_name module; m_version := m_version module;
     m_phase := phase; m_initialize := m_initialize module; m_execute := m_execute module;
     m_cleanup := m_cleanup module |}.


(** A module whose [execute] resolves in time, whatever the context
    and the world. *)
Definition always_succeeds (module : LifecycleModule World) : Prop :=
  ∀ c w, (m_execute module c w).1.1 = SettlesInTime Fulfils.

(** A module whose [execute] does not look at the phase tags of the
    events the context holds. *)
Definition events_blind (module : LifecycleModule World) : Prop :=
  ∀ c c' w, untag_context c = untag_context c' →
    (m_execute module c w).1.1 = (m_execute module c' w).1.1 ∧
    (m_execute module c w).2 = (m_execute module c' w).2 ∧
    untag_context (m_execute module c w).1.2 = untag_context (m_execute module c' w).1.2.

(** Two states of the engine and its surroundings that differ by the
    phase tags of events at most. *)
Record same_but_tags (s s' : Machine World) : Prop := {
  sbt_state : state s' = state s;
  sbt_currentPhase : currentPhase s' = currentPhase s;
  sbt_modules : modules s' = modules s;
  sbt_listeners : listeners s' = listeners s;
  sbt_observers : observers s' = observers s;
  sbt_stats : stats s' = stats s;
  sbt_config : config s' = config s;
  sbt_eventCounter : eventCounter s' = eventCounter s;
  sbt_world : world s' = world s;
  sbt_unawaited : unawaited s' = unawaited s;
  sbt_eventHistory : untag <$> eventHistory s' = untag <$> eventHistory s;
  sbt_context : untag_context <$> context s' = untag_context <$> context s;
  sbt_trace : untag_action <$> trace s' = untag_action <$> trace s
}.

(** The [catch] block of [initialize()]. *)
Definition initialize_catch (error : Thrown) (s : Machine World)
    : Completion unit * Machine World :=
  (Throw error,
   handlePhaseError error LifecyclePhase.INITIALIZATION (set_state LifecycleState.ERROR s)).

End Vocabulary.
(** ** A small concrete runtime

    The world is a clock in milliseconds; timers advance it, modules
    leave it alone.  The modules below always resolve, always reject,
    never settle, or reject by what the context holds; they are what
    the examples further down run. *)

Module Lab.

#[global] Instance clock_runtime : Runtime nat :=
  {| now := fun w => Z.of_nat w; sleep := fun ms w => (w + Z.to_nat ms)%nat |}.

Definition boom : Thrown := ThrownError {| message := "boom"; stack := None |}.

Definition no_setup : LifecycleContext -> nat -> Outcome * LifecycleContext * nat :=
  fun c w => (Fulfils, c, w).

(** A module whose [execute] always resolves. *)
Definition steady (ref : nat) (name : string) (phase : LifecyclePhase.t) : LifecycleModule nat :=
  {| m_ref := ref; m_name := name; m_version := "1.0.0"; m_phase := phase;
     m_initialize := Some no_setup;
     m_execute := fun c w => (SettlesInTime Fulfils, c, w);
     m_cleanup := no_setup |}.

(** A module whose [execute] always rejects. *)
Definition faulty (ref : nat) (name : string) (phase : LifecyclePhase.t) : LifecycleModule nat :=
  {| m_ref := ref; m_name := name; m_version := "1.0.0"; m_phase := phase;
     m_initialize := Some no_setup;
     m_execute := fun c w => (SettlesInTime (Rejects boom), c, w);
     m_cleanup := no_setup |}.

(** A listener that is an [async] function. *)
Definition async_listener (ref : nat) : LifecycleListener :=
  {| l_ref := ref; l_call := fun _ => ReturnsPromise Fulfils |}.

(** An observer that defines every hook, [onError] included. *)
Definition keen_observer (ref : nat) : LifecycleObserver :=
  {| o_ref := ref; o_method := fun _ => Some ReturnsVoid;
     o_onError := Some (fun _ _ => ReturnsVoid) |}.

Definition config_with (continue : bool) (retries history : Z) : option LifecycleConfig :=
  Some {| enableParallel := None; phaseTimeout := None; enableDebugLogging := None;
          continueOnError := Some continue; maxRetries := Some retries;
          retryDelay := None; saveHistory := None; maxHistorySize := Some history |}.

(** [const engine = new LifecycleEngine(cfg); engine.registerModule(...); ...] *)
Definition engine_with (cfg : option LifecycleConfig)
    (registrations : list (LifecyclePhase.t * LifecycleModule nat)) : Machine nat :=
  foldl (fun s pm => (registerModule pm.1 (Some pm.2) s).2)
        (new_LifecycleEngine cfg 0%nat) registrations.

(** [new LifecycleEngine()] at time zero. *)
Definition fresh : Machine nat := new_LifecycleEngine None 0%nat.

(** One module, registered under PREPARATION. *)
Definition one_module : Machine nat :=
  engine_with None [(LifecyclePhase.PREPARATION, steady 1 "m" LifecyclePhase.PREPARATION)].

(** The same with an observer that defines every hook. *)
Definition watched : Machine nat := addObserver (keen_observer 7) one_module.


(** An engine with one [async] listener. *)
Definition listened : Machine nat := addEventListener (async_listener 1) fresh.

(** [engine.stop()] on an engine that was never initialized. *)
Definition stopped_before_use : Machine nat := stop one_module.

(** The constructor before its first [logEvent], with room for two
    events in the history. *)
Definition under_construction : Machine nat :=
  initializePhaseStats (field_initializers (spread_config (config_with false 0 2)) 0%nat).

(** A listener that throws. *)
Definition throwing_listener (ref : nat) : LifecycleListener :=
  {| l_ref := ref; l_call := fun _ => ThrowsSync boom |}.

(** Three listeners, the second of which throws. *)
Definition interrupted : Machine nat :=
  addEventListener (async_listener 3)
    (addEventListener (throwing_listener 2) (addEventListener (async_listener 1) fresh)).


(** An initialized engine in the middle of a run. *)
Definition running : Machine nat :=
  set_state LifecycleState.RUNNING (initialize one_module).2.

(** Under [continueOnError], a failing module under INITIALIZATION. *)
Definition failing_initialization : Machine nat :=
  engine_with (config_with true 1 10)
    [(LifecyclePhase.INITIALIZATION, faulty 1 "i" LifecyclePhase.INITIALIZATION);
     (LifecyclePhase.PREPARATION, steady 2 "p" LifecyclePhase.PREPARATION)].

(** A module whose [execute] rejects unless the context holds the key
    "cache": it fails or not by what the modules before it have left
    there. *)
Definition needy (ref : nat) (name : string) (phase : LifecyclePhase.t) : LifecycleModule nat :=
  {| m_ref := ref; m_name := name; m_version := "1.0.0"; m_phase := phase;
     m_initialize := Some no_setup;
     m_execute := fun c w =>
       (SettlesInTime (if ctx_has "cache" c then Fulfils else Rejects boom), c, w);
     m_cleanup := no_setup |}.


(** Without [continueOnError]: a module under PREPARATION, under
    VALIDATION a module that resolves and one that misses its key, a
    module under EXECUTION. *)
Definition needy_validation : Machine nat :=
  engine_with (config_with false 1 10)
    [(LifecyclePhase.PREPARATION, steady 1 "p" LifecyclePhase.PREPARATION);
     (LifecyclePhase.VALIDATION, steady 2 "u" LifecyclePhase.VALIDATION);
     (LifecyclePhase.VALIDATION, needy 3 "v" LifecyclePhase.VALIDATION);
     (LifecyclePhase.EXECUTION, steady 4 "x" LifecyclePhase.EXECUTION)].

(** A new engine with one module registered under PREPARATION whose
    [phase] member says CLEANUP. *)
Definition misfiled : Machine nat :=
  (registerModule LifecyclePhase.PREPARATION
     (Some (steady 1 "m" LifecyclePhase.CLEANUP)) fresh).2.

End Lab.


(** ** Proofs *)

Section Proofs.

Context {World : Type} `{!Runtime World}.
Implicit Types (s : Machine World) (event : PartialEvent) (module : LifecycleModule World).

(** *** logEvent, field by field *)

Lemma logEvent_state event s : state (logEvent event s) = state s.
Proof. reflexivity. Qed.

Lemma logEvent_currentPhase event s : currentPhase (logEvent event s) = currentPhase s.
Proof. reflexivity. Qed.

Lemma logEvent_config event s : config (logEvent event s) = config s.
Proof. reflexivity. Qed.

Lemma logEvent_modules event s : modules (logEvent event s) = modules s.
Proof. reflexivity. Qed.

Lemma logEvent_listeners event s : listeners (logEvent event s) = listeners s.
Proof. reflexivity. Qed.

Lemma logEvent_observers event s : observers (logEvent event s) = observers s.
Proof. reflexivity. Qed.

Lemma logEvent_stats event s : stats (logEvent event s) = stats s.
Proof. reflexivity. Qed.

Lemma logEvent_world event s : world (logEvent event s) = world s.
Proof. reflexivity. Qed.

Lemma logEvent_eventCounter event s : eventCounter (logEvent event s) = eventCounter s + 1.
Proof. reflexivity. Qed.

Lemma logEvent_trace event s :
  trace (logEvent event s) = trace s ++ logEvent_actions event s.
Proof. unfold logEvent_actions. cbn. rewrite <- app_assoc. reflexivity. Qed.

Lemma logEvent_eventHistory event s :
  eventHistory (logEvent event s) =
  history_push (config s) (fullEvent event (set_eventCounter (eventCounter s + 1) s))
    (eventHistory s).
Proof. reflexivity. Qed.

Lemma logEvent_context event s :
  context (logEvent event s) =
  ctx_push_event (fullEvent event (set_eventCounter (eventCounter s + 1) s)) <$> context s.
Proof. reflexivity. Qed.

Lemma logEvent_unawaited event s :
  unawaited (logEvent event s) =
  unawaited s ++
  [(notify_loop
      (listener_calls (fullEvent event (set_eventCounter (eventCounter s + 1) s)) (listeners s))
      []).2].
Proof. reflexivity. Qed.

(** *** The bounded history *)

Lemma history_push_keep_last cfg e h :
  cfg_saveHistory cfg = true → 0 ≤ cfg_maxHistorySize cfg →
  (List.length h ≤ Z.to_nat (cfg_maxHistorySize cfg))%nat →
  history_push cfg e h = keep_last (Z.to_nat (cfg_maxHistorySize cfg)) (h ++ [e]).
Proof.
  intros Hs Hn Hl. unfold history_push, keep_last. rewrite Hs.
  rewrite length_app. cbn [List.length].
  case_decide as Hd.
  - replace (List.length h + 1 - Z.to_nat (cfg_maxHistorySize cfg))%nat with 1%nat.
    + destruct h; reflexivity.
    + cbn in Hd. lia.
  - replace (List.length h + 1 - Z.to_nat (cfg_maxHistorySize cfg))%nat with 0%nat.
    + reflexivity.
    + cbn in Hd. lia.
Qed.

Lemma keep_last_length {A} n (l : list A) : (List.length (keep_last n l) ≤ n)%nat.
Proof. unfold keep_last. rewrite length_drop. lia. Qed.

Lemma keep_last_snoc {A} n (l : list A) x :
  keep_last n (keep_last n l ++ [x]) = keep_last n (l ++ [x]).
Proof.
  unfold keep_last. rewrite !length_app, length_drop. cbn [List.length].
  rewrite <- (drop_app_le l [x]) by lia.
  rewrite drop_drop. f_equal. lia.
Qed.

Lemma keep_last_app_keep_last {A} n (h : list A) x tl :
  keep_last n (keep_last n (h ++ [x]) ++ tl) = keep_last n (h ++ x :: tl).
Proof.
  revert x. induction tl as [|y tl IH] using rev_ind; intros x.
  - rewrite !app_nil_r. unfold keep_last at 1.
    pose proof (keep_last_length n (h ++ [x])).
    replace (_ - _)%nat with 0%nat by lia. done.
  - rewrite (app_assoc _ tl [y]), <- keep_last_snoc, IH, keep_last_snoc.
    by rewrite <- !app_assoc.
Qed.

Lemma emit_all_cons e events s : emit_all (e :: events) s = emit_all events (logEvent e s).
Proof. reflexivity. Qed.

Lemma emit_all_config events s : config (emit_all events s) = config s.
Proof.
  revert s. induction events as [|e es IH]; intros s; [done|].
  by rewrite emit_all_cons, IH.
Qed.

Lemma emitted_length events s : List.length (emitted events s) = List.length events.
Proof. revert s. induction events; intros; cbn; [done|]. by rewrite IHevents. Qed.

Lemma emit_all_history events s :
  cfg_saveHistory (config s) = true → 0 ≤ cfg_maxHistorySize (config s) →
  (List.length (eventHistory s) ≤ Z.to_nat (cfg_maxHistorySize (config s)))%nat →
  eventHistory (emit_all events s) =
  keep_last (Z.to_nat (cfg_maxHistorySize (config s))) (eventHistory s ++ emitted events s).
Proof.
  revert s. induction events as [|e es IH]; intros s Hs Hn Hl.
  - cbn. rewrite app_nil_r. unfold keep_last.
    replace (_ - _)%nat with 0%nat by lia. reflexivity.
  - rewrite emit_all_cons. cbn [emitted].
    assert (Hh := logEvent_eventHistory e s).
    rewrite (history_push_keep_last _ _ _ Hs Hn Hl) in Hh.
    rewrite IH; rewrite ?logEvent_config; try done.
    + rewrite Hh. apply keep_last_app_keep_last.
    + rewrite Hh. apply keep_last_length.
Qed.

(** C6.  With [saveHistory] on and a positive [maxHistorySize], a new
    engine (empty history) that emits [maxHistorySize + k] events, [k >= 1],
    ends with exactly [maxHistorySize] events in its history: the events
    emitted last, in emission order.  An emission into a full history
    drops the oldest entry and nothing else. *)
Theorem history_holds_the_most_recent_events s (events : list PartialEvent) (k : nat) :
  cfg_saveHistory (config s) = true →
  0 < cfg_maxHistorySize (config s) →
  eventHistory s = [] →
  List.length events = (Z.to_nat (cfg_maxHistorySize (config s)) + k)%nat →
  (1 ≤ k)%nat →
  List.length (eventHistory (emit_all events s)) = Z.to_nat (cfg_maxHistorySize (config s)) ∧
  eventHistory (emit_all events s) = drop k (emitted events s) ∧
  ∀ s0 event,
    config s0 = config s →
    List.length (eventHistory s0) = Z.to_nat (cfg_maxHistorySize (config s)) →
    eventHistory (logEvent event s0) =
    tail (eventHistory s0) ++ [fullEvent event (set_eventCounter (eventCounter s0 + 1) s0)].
Proof.
  intros Hs Hn Hh Hl Hk.
  assert (He : eventHistory (emit_all events s) = drop k (emitted events s)).
  { rewrite emit_all_history, Hh by (rewrite ?Hh; cbn; lia || done).
    cbn [app]. unfold keep_last. rewrite emitted_length, Hl. f_equal. lia. }
  split; [|split; [exact He|]].
  - rewrite He, length_drop, emitted_length, Hl. lia.
  - intros s0 event Hc Hfull. rewrite logEvent_eventHistory.
    unfold history_push. rewrite Hc, Hs, length_app, Hfull. cbn [List.length].
    rewrite decide_True by lia.
    destruct (eventHistory s0) as [|x h] eqn:E; [cbn in Hfull; lia|reflexivity].
Qed.

(** *** Runs compose *)

Lemma stats_rel_refl st : stats_rel st st.
Proof. by repeat split. Qed.

Lemma stats_rel_trans a b c : stats_rel a b → stats_rel b c → stats_rel a c.
Proof.
  intros (?&?&?&Hk1) (?&?&?&Hk2). repeat split; try congruence.
  intros p Hp. by apply Hk2, Hk1.
Qed.

#[local] Instance frame_preorder P : PreOrder (@frame World P).
Proof.
  split.
  - intros s. split; [done..|apply stats_rel_refl|].
    exists []. by rewrite app_nil_r.
  - intros s1 s2 s3 [? ? ? ? ? (d1&E1&F1)] [? ? ? ? ? (d2&E2&F2)]. split; try congruence.
    + eapply stats_rel_trans; eassumption.
    + exists (d1 ++ d2). rewrite E2, E1, app_assoc. split; [done|].
      by apply Forall_app.
Qed.

#[local] Instance traced_preorder P : PreOrder (@traced World P).
Proof.
  split.
  - intros s. split; try done. exists []. by rewrite app_nil_r.
  - intros s1 s2 s3 [? ? ? ? (d1&E1&F1)] [? ? ? ? (d2&E2&F2)]. split; try congruence.
    exists (d1 ++ d2). rewrite E2, E1, app_assoc. split; [done|].
    by apply Forall_app.
Qed.

Lemma frame_silent P s s' :
  config s' = config s → modules s' = modules s → listeners s' = listeners s →
  observers s' = observers s → stats s' = stats s → trace s' = trace s →
  frame P s s'.
Proof.
  intros ? ? ? ? Hst Htr. split; try done.
  - rewrite Hst. apply stats_rel_refl.
  - exists []. by rewrite app_nil_r.
Qed.

Lemma frame_traced P s s' : frame P s s' → traced P s s'.
Proof. intros []. by split. Qed.

Lemma frame_weaken (P Q : Action → Prop) s s' :
  (∀ a, P a → Q a) → frame P s s' → frame Q s s'.
Proof.
  intros HPQ [? ? ? ? ? (d&E&F)]. split; try done. exists d. split; [done|].
  eapply Forall_impl; eauto.
Qed.

Lemma traced_weaken (P Q : Action → Prop) s s' :
  (∀ a, P a → Q a) → traced P s s' → traced Q s s'.
Proof.
  intros HPQ [? ? ? ? (d&E&F)]. split; try done. exists d. split; [done|].
  eapply Forall_impl; eauto.
Qed.

(** *** A method keeps what its statements keep *)

Section Hoare.

Context (R : Machine World → Machine World → Prop) `{!PreOrder R}.
Implicit Types (Pre Post Inv : Machine World → Prop).

Lemma hoare_ret Inv {A} (a : A) : hoare Inv Inv R (ret a).
Proof. intros s HI. split; [done|reflexivity]. Qed.

Lemma hoare_throw Inv {A} e : hoare Inv Inv R (throw (A := A) e).
Proof. intros s HI. split; [done|reflexivity]. Qed.

Lemma hoare_gets Inv {A} (f : Machine World → A) : hoare Inv Inv R (gets f).
Proof. intros s HI. split; [done|reflexivity]. Qed.

Lemma hoare_exec Pre Post f :
  (∀ s, Pre s → Post (f s) ∧ R s (f s)) → hoare Pre Post R (exec f).
Proof. intros Hf s HI. exact (Hf s HI). Qed.

Lemma hoare_awaited Pre Post (f : Machine World → AsyncState * Machine World) :
  (∀ s, Pre s → Post (f s).2 ∧ R s (f s).2) → hoare Pre Post R (awaited f).
Proof. intros Hf s HI. exact (Hf s HI). Qed.

(** A statement may throw: what follows it must hold where it stopped. *)
Lemma hoare_bind Pre Mid {A B} (m : Eng World A) (k : A → Eng World B) :
  hoare Pre Mid R m → (∀ a, hoare Mid Mid R (k a)) → hoare Pre Mid R (bind m k).
Proof.
  intros Hm Hk s HI. unfold bind. destruct (Hm s HI) as [HI1 HR1].
  destruct (m s) as [[a|e] s1]; cbn in *; [|done].
  destruct (Hk a s1 HI1) as [HI2 HR2]. split; [done|]. by etransitivity.
Qed.

(** A statement that cannot throw may change the invariant. *)
Lemma hoare_bind_total Pre Mid Post {A B} (m : Eng World A) (k : A → Eng World B) :
  (∀ s, ∃ a, (m s).1 = Normal a) →
  hoare Pre Mid R m → (∀ a, hoare Mid Post R (k a)) → hoare Pre Post R (bind m k).
Proof.
  intros Ht Hm Hk s HI. unfold bind. destruct (Hm s HI) as [HI1 HR1].
  destruct (Ht s) as [a Ha].
  destruct (m s) as [r s1]; cbn in *. subst r.
  destruct (Hk a s1 HI1) as [HI2 HR2]. split; [done|]. by etransitivity.
Qed.

Lemma hoare_try_catch Pre Post {A} (body : Eng World A) handler :
  hoare Pre Post R body → (∀ e, hoare Post Post R (handler e)) →
  hoare Pre Post R (try_catch body handler).
Proof.
  intros Hm Hk s HI. unfold try_catch. destruct (Hm s HI) as [HI1 HR1].
  destruct (body s) as [[a|e] s1]; cbn in *; [done|].
  destruct (Hk e s1 HI1) as [HI2 HR2]. split; [done|]. by etransitivity.
Qed.

Lemma hoare_try_finally Pre Post {A} (body : Eng World A) final :
  hoare Pre Post R body → (∀ r, hoare Post Post R (final r)) →
  hoare Pre Post R (try_finally body final).
Proof.
  intros Hm Hk s HI. unfold try_finally. destruct (Hm s HI) as [HI1 HR1].
  destruct (body s) as [r s1]; cbn in *.
  destruct (Hk r s1 HI1) as [HI2 HR2].
  destruct (final r s1) as [[[]|e] s2]; cbn in *; (split; [done|]; by etransitivity).
Qed.

Lemma hoare_for_of Inv {A} (xs : list A) body :
  (∀ x, x ∈ xs → hoare Inv Inv R (body x)) → hoare Inv Inv R (for_of xs body).
Proof.
  induction xs as [|x xs IH]; intros Hb; cbn [for_of].
  - apply hoare_ret.
  - apply hoare_bind.
    + apply Hb. by left.
    + intros _. apply IH. intros y Hy. apply Hb. by right.
Qed.

Lemma hoare_and Inv Q {A} (m : Eng World A) :
  (∀ s s', R s s' → Q s → Q s') → hoare Inv Inv R m →
  hoare (fun s => Inv s ∧ Q s) (fun s => Inv s ∧ Q s) R m.
Proof. intros HQ Hm s [HI Hq]. destruct (Hm s HI). repeat split; eauto. Qed.

End Hoare.

Lemma hoare_weaken Pre Post (R R' : Machine World → Machine World → Prop)
    {A} (m : Eng World A) :
  (∀ s s', R s s' → R' s s') → hoare Pre Post R m → hoare Pre Post R' m.
Proof. intros HR Hm s HI. destruct (Hm s HI). split; [done|]. by apply HR. Qed.

Lemma hoare_conseq (Pre Pre' Post Post' : Machine World → Prop)
    (R : Machine World → Machine World → Prop) {A} (m : Eng World A) :
  (∀ s, Pre' s → Pre s) → (∀ s, Post s → Post' s) →
  hoare Pre Post R m → hoare Pre' Post' R m.
Proof. intros HP HQ Hm s HI. destruct (Hm s (HP s HI)). split; [by apply HQ|done]. Qed.

(** *** The notification loop *)

Lemma notify_loop_prefix calls promises :
  (notify_loop calls promises).1 `prefix_of` calls.*1.
Proof.
  revert promises. induction calls as [|[call r] calls IH]; intros promises; cbn.
  - done.
  - destruct r; cbn.
    + apply prefix_cons, IH.
    + apply prefix_cons, IH.
    + apply prefix_cons, prefix_nil.
Qed.

Lemma notify_loop_complete calls promises :
  Forall (fun c => throws_sync c.2 = false) calls →
  (notify_loop calls promises).1 = calls.*1 ∧
  (notify_loop calls promises).2 =
    match promises ++ omap (fun c => returned_promise c.2) calls with
    | [] => Settled (Normal tt)
    | ps => AwaitingAll ps
    end.
Proof.
  revert promises. induction calls as [|[call r] calls IH]; intros promises Hc.
  - cbn. rewrite app_nil_r. by destruct promises.
  - apply Forall_cons in Hc as [Hr Hc]. destruct r; cbn in *; try done.
    + destruct (IH promises Hc) as [-> ->]. done.
    + destruct (IH (promises ++ [o]) Hc) as [-> ->]. rewrite <- app_assoc. done.
Qed.

Lemma Forall_prefix {A} (P : A → Prop) l1 l2 : l1 `prefix_of` l2 → Forall P l2 → Forall P l1.
Proof. intros [k ->] H. by apply Forall_app in H as [? ?]. Qed.

Section Run.

Context (I : LifecycleContext → Prop) (refs : list nat) (hooks : list string).
Context (HI : stable I).

Lemma logEvent_actions_run event s :
  Forall (run_action I refs hooks) (logEvent_actions event s).
Proof.
  unfold logEvent_actions. apply Forall_app. split.
  - eapply Forall_prefix; [apply notify_loop_prefix|].
    unfold listener_calls. rewrite <- list_fmap_compose.
    apply Forall_fmap, Forall_forall. by intros.
  - case_match; repeat constructor.
Qed.

Lemma logEvent_frame event s : frame (run_action I refs hooks) s (logEvent event s).
Proof.
  split; [reflexivity..|apply stats_rel_refl|].
  eexists. split; [apply logEvent_trace|apply logEvent_actions_run].
Qed.

Lemma logEvent_ctx_inv event s : ctx_inv I s → ctx_inv I (logEvent event s).
Proof.
  intros (c&Hc&Ic). unfold ctx_inv. rewrite logEvent_context, Hc. cbn.
  eexists. split; [done|]. by apply HI.
Qed.

Lemma logEvent_maintains event :
  hoare (ctx_inv I) (ctx_inv I) (frame (run_action I refs hooks)) (exec (logEvent event)).
Proof. apply hoare_exec. intros s Hs. split; [by apply logEvent_ctx_inv|apply logEvent_frame]. Qed.

Lemma getContext_maintains :
  hoare (ctx_inv I) (ctx_inv I) (frame (run_action I refs hooks)) getContext.
Proof.
  intros s (c&Hc&Ic). unfold getContext. rewrite Hc. cbn.
  split; [by exists c|reflexivity].
Qed.

Lemma call_execute_maintains module :
  respects I module → m_ref module ∈ refs →
  hoare (ctx_inv I) (ctx_inv I) (frame (run_action I refs hooks)) (call_execute module).
Proof.
  intros Hm Href s (c&Hc&Ic). unfold call_execute, bind, getContext. rewrite Hc. cbn.
  split.
  - eexists. split; [reflexivity|]. by apply Hm.
  - split; [reflexivity..|apply stats_rel_refl|].
    eexists. split; [reflexivity|]. repeat constructor; done.
Qed.

Lemma wait_maintains ms :
  hoare (ctx_inv I) (ctx_inv I) (frame (run_action I refs hooks)) (exec (wait ms)).
Proof.
  apply hoare_exec. intros s Hs. split; [exact Hs|].
  split; [reflexivity..|apply stats_rel_refl|].
  eexists. split; [reflexivity|]. by repeat constructor.
Qed.

Lemma attempt_maintains module retries :
  respects I module → m_ref module ∈ refs →
  hoare (ctx_inv I) (ctx_inv I) (frame (run_action I refs hooks)) (attempt module retries).
Proof.
  intros Hm Href. unfold attempt.
  apply hoare_try_catch; [apply _|..].
  - apply hoare_bind; [apply _|apply hoare_gets; apply _|intros startTime].
    apply hoare_bind; [apply _|by apply logEvent_maintains|intros _].
    apply hoare_bind; [apply _|by apply call_execute_maintains|intros _].
    apply hoare_bind; [apply _|apply hoare_gets; apply _|intros duration].
    apply hoare_bind; [apply _|by apply logEvent_maintains|intros _].
    apply hoare_ret; apply _.
  - intros error.
    apply hoare_bind; [apply _|apply hoare_gets; apply _|intros cfg].
    case_decide.
    + apply hoare_bind; [apply _|by apply logEvent_maintains|intros _].
      apply hoare_throw; apply _.
    + apply hoare_bind; [apply _|by apply logEvent_maintains|intros _].
      apply hoare_bind; [apply _|by apply wait_maintains|intros _].
      apply hoare_ret; apply _.
Qed.

Lemma executeModule_while_eq module maxRetries retries s :
  executeModule_while module maxRetries retries s =
  if retries <=? maxRetries then
    match attempt module retries s with
    | (Normal Break, s') => (Normal tt, s')
    | (Normal Continue, s') => executeModule_while module maxRetries (retries + 1) s'
    | (Throw e, s') => (Throw e, s')
    end
  else (Normal tt, s).
Proof.
  rewrite executeModule_while_equation_1.
  unfold executeModule_while_unfold_clause_1, inspect.
  destruct (retries <=? maxRetries); reflexivity.
Qed.

Lemma executeModule_while_maintains module maxRetries retries :
  respects I module → m_ref module ∈ refs →
  hoare (ctx_inv I) (ctx_inv I) (frame (run_action I refs hooks))
    (executeModule_while module maxRetries retries).
Proof.
  intros Hm Href.
  remember (Z.to_nat (maxRetries + 1 - retries)) as n eqn:Hn.
  revert retries Hn. induction n as [n IH] using lt_wf_ind. intros retries Hn s Hs.
  rewrite executeModule_while_eq.
  destruct (retries <=? maxRetries) eqn:Hle; [|split; [done|reflexivity]].
  destruct (attempt_maintains module retries Hm Href s Hs) as [HI1 HR1].
  destruct (attempt module retries s) as [[[]|e] s1]; cbn in *; try done.
  destruct (IH (Z.to_nat (maxRetries + 1 - (retries + 1))) ltac:(lia) (retries + 1) eq_refl s1 HI1)
    as [HI2 HR2].
  split; [done|]. by etransitivity.
Qed.

Lemma executeModule_maintains module :
  respects I module → m_ref module ∈ refs →
  hoare (ctx_inv I) (ctx_inv I) (frame (run_action I refs hooks)) (executeModule module).
Proof. intros Hm Href s. by apply executeModule_while_maintains. Qed.

Lemma observer_error_calls_run error phase os :
  Forall (run_action I refs hooks) (observer_error_calls error phase os).*1.
Proof.
  unfold observer_error_calls. induction os as [|o os IH]; cbn; [constructor|].
  destruct (o_onError o); cbn; [constructor; [exact Logic.I|exact IH]|exact IH].
Qed.

Lemma observer_calls_run name os :
  name ∈ hooks → Forall (run_action I refs hooks) (observer_calls name os).*1.
Proof.
  intros Hn. unfold observer_calls. induction os as [|o os IH]; cbn; [constructor|].
  destruct (o_method o name); cbn; [constructor; [exact Hn|exact IH]|exact IH].
Qed.

Lemma handlePhaseError_maintains error phase :
  hoare (ctx_inv I) (ctx_inv I) (frame (run_action I refs hooks)) (exec (handlePhaseError error phase)).
Proof.
  apply hoare_exec. intros s (c&Hc&Ic). unfold handlePhaseError.
  set (s1 := on_context _ s).
  assert (H1 : ctx_inv I s1).
  { exists (ctx_push_error (as_Error error) c). split; [subst s1; cbn; by rewrite Hc|].
    by apply HI. }
  assert (F1 : frame (run_action I refs hooks) s s1) by by apply frame_silent.
  set (s2 := logEvent _ s1).
  assert (H2 : ctx_inv I s2) by by apply logEvent_ctx_inv.
  assert (F2 : frame (run_action I refs hooks) s1 s2) by apply logEvent_frame.
  split; [exact H2|].
  etransitivity; [exact F1|]. etransitivity; [exact F2|].
  split; [reflexivity..|apply stats_rel_refl|].
  eexists. split; [reflexivity|].
  eapply Forall_prefix; [apply notify_loop_prefix|apply observer_error_calls_run].
Qed.

Lemma notifyObservers_maintains name :
  name ∈ hooks →
  hoare (ctx_inv I) (ctx_inv I) (frame (run_action I refs hooks)) (notifyObservers (World := World) name).
Proof.
  intros Hn. apply hoare_awaited. intros s Hs. split; [exact Hs|].
  split; [reflexivity..|apply stats_rel_refl|].
  eexists. split; [reflexivity|].
  eapply Forall_prefix; [apply notify_loop_prefix|by apply observer_calls_run].
Qed.

Lemma frame_keeps_modules P (M : gmap LifecyclePhase.t (list (LifecycleModule World))) s s' :
  frame P s s' → modules s = M → modules s' = M.
Proof. intros [? E ? ? ? ?] <-. exact E. Qed.

Lemma executePhaseModules_eq phase s :
  executePhaseModules phase s =
  (let* context := getContext in
   for_of (default [] (modules s !! phase)) executeModule) s.
Proof. reflexivity. Qed.

Lemma executePhaseModules_maintains phase M :
  (∀ module, module ∈ default [] (M !! phase) → respects I module ∧ m_ref module ∈ refs) →
  hoare (fun s => ctx_inv I s ∧ modules s = M) (fun s => ctx_inv I s ∧ modules s = M)
    (frame (run_action I refs hooks)) (executePhaseModules phase).
Proof.
  intros Hms s [Hs HM].
  assert (Hk : hoare (fun s => ctx_inv I s ∧ modules s = M) (fun s => ctx_inv I s ∧ modules s = M)
                 (frame (run_action I refs hooks))
                 (let* context := getContext in
                  for_of (default [] (M !! phase)) executeModule)).
  { apply hoare_bind; [apply _|..].
    - apply hoare_and; [apply frame_keeps_modules|apply getContext_maintains].
    - intros _. apply hoare_for_of; [apply _|]. intros module Hin.
      apply hoare_and; [apply frame_keeps_modules|].
      destruct (Hms module Hin). by apply executeModule_maintains. }
  specialize (Hk s (conj Hs HM)).
  rewrite executePhaseModules_eq, HM. exact Hk.
Qed.

Lemma in_observers_values_Start phase :
  in_observers_values ("on" +:+ getPhaseMethodName phase +:+ "Start") = false.
Proof. by destruct phase; vm_compute. Qed.

Lemma in_observers_values_Complete phase :
  in_observers_values ("on" +:+ getPhaseMethodName phase +:+ "Complete") = false.
Proof. by destruct phase; vm_compute. Qed.

Lemma update_phase_statistics_maintains phase startTime result M :
  hoare (fun s => ctx_inv I s ∧ modules s = M) (fun s => ctx_inv I s ∧ modules s = M)
    (frame (run_action I refs hooks)) (update_phase_statistics phase startTime result).
Proof.
  intros s Hs. unfold update_phase_statistics.
  destruct (st_phaseStats (stats s) !! phase) as [ps|] eqn:E; cbn.
  - split; [exact Hs|].
    split; [reflexivity..| |exists []; by rewrite app_nil_r].
    repeat split; try reflexivity. intros p Hp. cbn.
    destruct (decide (phase = p)) as [->|Hne].
    + rewrite lookup_insert_eq. by eexists.
    + by rewrite lookup_insert_ne.
  - split; [exact Hs|reflexivity].
Qed.

Lemma executePhase_try_maintains phase M :
  (∀ module, module ∈ default [] (M !! phase) → respects I module ∧ m_ref module ∈ refs) →
  hoare (fun s => ctx_inv I s ∧ modules s = M) (fun s => ctx_inv I s ∧ modules s = M)
    (frame (run_action I refs hooks)) (executePhase_try phase).
Proof.
  intros Hms. unfold executePhase_try.
  rewrite in_observers_values_Start, in_observers_values_Complete.
  apply hoare_try_catch; [apply _|..].
  - apply hoare_bind; [apply _|apply hoare_ret; apply _|intros _].
    apply hoare_bind; [apply _| |intros _].
    { apply hoare_and; [apply frame_keeps_modules|by apply logEvent_maintains]. }
    apply hoare_bind; [apply _|by apply executePhaseModules_maintains|intros _].
    apply hoare_bind; [apply _|apply hoare_ret; apply _|intros _].
    apply hoare_bind; [apply _| |intros _].
    { apply hoare_and; [apply frame_keeps_modules|by apply logEvent_maintains]. }
    apply hoare_ret; apply _.
  - intros error.
    apply hoare_bind; [apply _| |intros _].
    { apply hoare_and; [apply frame_keeps_modules|by apply handlePhaseError_maintains]. }
    apply hoare_bind; [apply _|apply hoare_gets; apply _|intros cfg].
    destruct (negb _); [apply hoare_throw|apply hoare_ret]; apply _.
Qed.

Lemma executePhase_hoare phase M :
  (∀ module, module ∈ default [] (M !! phase) → respects I module ∧ m_ref module ∈ refs) →
  hoare
    (fun s => modules s = M ∧
              I (ctx_enter_phase phase
                   (default (createContext (set_currentPhase (Some phase) s)) (context s))))
    (fun s => ctx_inv I s ∧ modules s = M)
    (frame (run_action I refs hooks)) (executePhase phase).
Proof.
  intros Hms. unfold executePhase.
  set (Inv := fun s : Machine World => ctx_inv I s ∧ modules s = M).
  apply hoare_bind_total with
    (Mid := fun s => modules s = M ∧
              I (ctx_enter_phase phase (default (createContext s) (context s))));
    [apply _|by eexists|..].
  { apply hoare_exec. intros s [HM Hc]. split; [done|by apply frame_silent]. }
  intros _.
  apply hoare_bind_total with
    (Mid := fun s => modules s = M ∧ ∃ c, context s = Some c ∧ I (ctx_enter_phase phase c));
    [apply _|..].
  { intros s. unfold getContext. destruct (context s); by eexists. }
  { intros s [HM Hc]. unfold getContext. destruct (context s) as [c|] eqn:E; cbn.
    - split; [|reflexivity]. split; [done|]. by exists c.
    - split; [|by apply frame_silent]. split; [done|]. by eexists. }
  intros _.
  apply hoare_bind_total with (Mid := Inv); [apply _|by eexists|..].
  { apply hoare_exec. intros s (HM&c&Hc&Ic). split; [|by apply frame_silent].
    split; [|done]. eexists. split; [|exact Ic]. cbn. by rewrite Hc. }
  intros _.
  apply hoare_bind; [apply _|apply hoare_gets; apply _|intros startTime].
  apply hoare_bind; [apply _| |intros _; apply hoare_ret; apply _].
  apply hoare_try_finally; [apply _|..].
  - by apply executePhase_try_maintains.
  - intros r. apply update_phase_statistics_maintains.
Qed.

End Run.

(** *** initialize and start, whatever the context holds *)

Lemma stable_True : stable (fun _ => True).
Proof. by intros c _. Qed.

Lemma respects_True module : respects (fun _ => True) module.
Proof. by intros c w _. Qed.

Lemma traced_silent P s s' :
  config s' = config s → modules s' = modules s → listeners s' = listeners s →
  observers s' = observers s → trace s' = trace s → traced P s s'.
Proof. intros ? ? ? ? Htr. split; try done. exists []. by rewrite app_nil_r. Qed.

Lemma traced_keeps_modules P (M : gmap LifecyclePhase.t (list (LifecycleModule World))) s s' :
  traced P s s' → modules s = M → modules s' = M.
Proof. intros [? E ? ? ?] <-. exact E. Qed.

Lemma executePhase_framed (M : gmap LifecyclePhase.t (list (LifecycleModule World)))
    refs hooks phase :
  (∀ module, module ∈ default [] (M !! phase) → m_ref module ∈ refs) →
  hoare (fun s => modules s = M) (fun s => modules s = M)
    (frame (run_action (fun _ => True) refs hooks)) (executePhase phase).
Proof.
  intros Hrefs.
  eapply hoare_conseq; [| |apply (executePhase_hoare (fun _ => True) refs hooks stable_True phase M)].
  - by intros s HM.
  - by intros s [].
  - intros module Hin. split; [apply respects_True|by apply Hrefs].
Qed.

Lemma initialize_framed (M : gmap LifecyclePhase.t (list (LifecycleModule World))) refs hooks :
  (∀ module, module ∈ default [] (M !! LifecyclePhase.INITIALIZATION) → m_ref module ∈ refs) →
  "onInitializationStart" ∈ hooks → "onInitializationComplete" ∈ hooks →
  hoare (fun s => modules s = M) (fun s => modules s = M)
    (frame (run_action (fun _ => True) refs hooks)) initialize.
Proof.
  intros Hrefs Hstart Hcomplete.
  set (Inv := fun s : Machine World => ctx_inv (fun _ => True) s ∧ modules s = M).
  unfold initialize, initialize_try.
  apply hoare_bind; [apply _|apply hoare_gets; apply _|intros st].
  case_decide; [apply hoare_throw; apply _|].
  apply hoare_conseq with (Pre := fun s => modules s = M) (Post := Inv); [done|by intros s []|].
  apply hoare_try_catch; [apply _|..].
  - apply hoare_bind_total with (Mid := fun s => modules s = M); [apply _|by eexists|..].
    { apply hoare_exec. intros s HM. split; [done|by apply frame_silent]. }
    intros _.
    apply hoare_bind_total with (Mid := Inv); [apply _|by eexists|..].
    { apply hoare_exec. intros s HM. split; [|by apply frame_silent].
      split; [by eexists|done]. }
    intros _.
    apply hoare_bind; [apply _| |intros _].
    { apply hoare_and; [apply frame_keeps_modules|apply logEvent_maintains, stable_True]. }
    apply hoare_bind; [apply _| |intros _].
    { apply hoare_and; [apply frame_keeps_modules|by apply notifyObservers_maintains]. }
    apply hoare_bind; [apply _| |intros _].
    { apply executePhaseModules_maintains; [apply stable_True|].
      intros module Hin. split; [apply respects_True|by apply Hrefs]. }
    apply hoare_bind; [apply _| |intros _].
    { apply hoare_and; [apply frame_keeps_modules|by apply notifyObservers_maintains]. }
    apply hoare_bind; [apply _| |intros _].
    { apply hoare_exec. intros s HM. split; [done|by apply frame_silent]. }
    apply hoare_and; [apply frame_keeps_modules|apply logEvent_maintains, stable_True].
  - intros error.
    apply hoare_bind; [apply _| |intros _].
    { apply hoare_exec. intros s HM. split; [done|by apply frame_silent]. }
    apply hoare_bind; [apply _| |intros _; apply hoare_throw; apply _].
    apply hoare_and; [apply frame_keeps_modules|apply handlePhaseError_maintains, stable_True].
Qed.

Section Whole.

Context (M : gmap LifecyclePhase.t (list (LifecycleModule World))).
Context (refs : list nat) (hooks : list string).
Context (Hrefs : ∀ p module, module ∈ default [] (M !! p) → m_ref module ∈ refs).
Context (Hstart : "onInitializationStart" ∈ hooks) (Hcomplete : "onInitializationComplete" ∈ hooks).

Let P := run_action (fun _ => True) refs hooks.

Lemma initialize_hoare :
  hoare (fun s => modules s = M) (fun s => modules s = M) (frame P) initialize.
Proof. apply initialize_framed; [|done..]. intros module Hin. by eapply Hrefs. Qed.

Lemma executePhase_traced phase :
  hoare (fun s => modules s = M) (fun s => modules s = M) (frame P) (executePhase phase).
Proof. apply executePhase_framed. intros module Hin. by eapply Hrefs. Qed.

Lemma start_hoare :
  hoare (fun s => modules s = M) (fun s => modules s = M) (traced P) start.
Proof.
  unfold start, start_try.
  apply hoare_bind; [apply _|apply hoare_gets; apply _|intros st].
  apply hoare_bind; [apply _| |intros _].
  { case_decide; [|apply hoare_ret; apply _].
    eapply hoare_weaken; [apply frame_traced|apply initialize_hoare]. }
  apply hoare_bind; [apply _|apply hoare_gets; apply _|intros st'].
  case_decide; [apply hoare_throw; apply _|].
  apply hoare_try_catch; [apply _|..].
  - apply hoare_bind; [apply _| |intros _].
    { apply hoare_exec. intros s HM. split; [done|by apply traced_silent]. }
    apply hoare_bind; [apply _| |intros _].
    { apply hoare_exec. intros s HM. split; [done|]. apply frame_traced, logEvent_frame. }
    apply hoare_bind; [apply _|apply hoare_gets; apply _|intros startTime].
    apply hoare_bind; [apply _| |intros _].
    { apply hoare_for_of; [apply _|]. intros phase _.
      eapply hoare_weaken; [apply frame_traced|apply executePhase_traced]. }
    apply hoare_bind; [apply _|apply hoare_gets; apply _|intros duration].
    apply hoare_bind; [apply _| |intros _].
    { apply hoare_exec. intros s HM. split; [done|by apply traced_silent]. }
    apply hoare_bind; [apply _| |intros _].
    { apply hoare_exec. intros s HM. split; [done|by apply traced_silent]. }
    apply hoare_exec. intros s HM. split; [done|]. apply frame_traced, logEvent_frame.
  - intros error.
    apply hoare_bind; [apply _| |intros _].
    { apply hoare_exec. intros s HM. split; [done|by apply traced_silent]. }
    apply hoare_bind; [apply _| |intros _].
    { apply hoare_exec. intros s HM. split; [done|by apply traced_silent]. }
    apply hoare_bind; [apply _| |intros _; apply hoare_throw; apply _].
    apply hoare_exec. intros s HM. split; [done|]. apply frame_traced, logEvent_frame.
Qed.

End Whole.

(** *** Methods, summed up *)

Lemma call_execute_eq module s :
  call_execute module s =
  let r := m_execute module (the_context s) (world s) in
  (race module r.1.1,
   emit [ModuleCall (m_ref module) m_execute_ (the_context s) r.1.1]
     (set_world r.2 (set_context (Some r.1.2) s))).
Proof.
  unfold call_execute, bind, getContext, the_context.
  destruct (context s); reflexivity.
Qed.

Lemma attempt_eq module retries s :
  attempt module retries s =
  let r := call_execute module (logEvent (event_module_execute_start module) s) in
  match r.1 with
  | Normal _ =>
      (Normal Break,
       logEvent (event_module_execute_complete module (now (world r.2) - now (world s))) r.2)
  | Throw error =>
      if decide (retries + 1 > cfg_maxRetries (config r.2)) then
        (Throw error,
         logEvent (event_module_execute_failed module (cfg_maxRetries (config r.2)) error
                     (retries + 1)) r.2)
      else
        (Normal Continue,
         wait (cfg_retryDelay (config r.2))
           (logEvent (event_module_execute_retry module (cfg_retryDelay (config r.2)) error
                        (retries + 1)) r.2))
  end.
Proof.
  unfold attempt, try_catch, bind, exec, gets, ret, throw.
  destruct (call_execute module _) as [[[]|e] s2]; cbn [fst snd]; [reflexivity|].
  case_decide; reflexivity.
Qed.

Lemma call_execute_config module s : config (call_execute module s).2 = config s.
Proof. by rewrite call_execute_eq. Qed.

Lemma call_execute_trace module s :
  trace (call_execute module s).2 =
  trace s ++ [ModuleCall (m_ref module) m_execute_ (the_context s)
                (m_execute module (the_context s) (world s)).1.1].
Proof. by rewrite call_execute_eq. Qed.

Lemma call_execute_result module s :
  (call_execute module s).1 = race module (m_execute module (the_context s) (world s)).1.1.
Proof. by rewrite call_execute_eq. Qed.

Lemma race_normal module r u : race module r = Normal u → r = SettlesInTime Fulfils.
Proof. by destruct r as [[]|]. Qed.

Lemma race_throw module r e : race module r = Throw e → failed r.
Proof. by destruct r as [[]|]. Qed.

Lemma wait_trace ms s : trace (wait ms s) = trace s ++ [TimerWait ms].
Proof. reflexivity. Qed.

Lemma wait_config ms s : config (wait ms s) = config s.
Proof. reflexivity. Qed.

(** *** The beat of the retry loop *)

Lemma rhythm_app d1 d2 : rhythm (d1 ++ d2) = rhythm d1 ++ rhythm d2.
Proof. apply omap_app. Qed.

Lemma rhythm_silent d : Forall (fun a => beat a = None) d → rhythm d = [].
Proof. induction 1 as [|a d Ha _ IH]; cbn; [done|]. by rewrite Ha. Qed.

Lemma rhythm_logEvent event s :
  rhythm (logEvent_actions event s) =
  let e := fullEvent event (set_eventCounter (eventCounter s + 1) s) in
  match ev_level e with
  | EventLevel.DEBUG | EventLevel.INFO => []
  | level => [Logged level (ev_type e)]
  end.
Proof.
  unfold logEvent_actions. rewrite rhythm_app, rhythm_silent.
  - cbn zeta. set (e := fullEvent _ _). clearbody e.
    destruct (ev_level e) eqn:E; destruct (cfg_enableDebugLogging (config s));
      cbn [orb]; try case_bool_decide; try done; cbn; rewrite ?E; reflexivity.
  - eapply Forall_prefix; [apply notify_loop_prefix|].
    unfold listener_calls. rewrite <- list_fmap_compose.
    apply Forall_fmap, Forall_forall. by intros.
Qed.

Lemma genuine_logEvent module event s : Forall (genuine module) (logEvent_actions event s).
Proof.
  unfold logEvent_actions. apply Forall_app. split.
  - eapply Forall_prefix; [apply notify_loop_prefix|].
    unfold listener_calls. rewrite <- list_fmap_compose.
    apply Forall_fmap, Forall_forall. by intros.
  - case_match; repeat constructor.
Qed.

(** What the loop does from [retries] on, told by its beat: failed
    attempts, each followed by the retry line and the wait, then either
    the attempt that succeeds or the last failed attempt and the ERROR
    line. *)
Lemma executeModule_while_spec module retries s :
  0 ≤ retries ≤ cfg_maxRetries (config s) →
  ∃ d fails,
    trace (executeModule_while module (cfg_maxRetries (config s)) retries s).2 = trace s ++ d ∧
    config (executeModule_while module (cfg_maxRetries (config s)) retries s).2 = config s ∧
    Forall (genuine module) d ∧
    Forall failed fails ∧
    ((executeModule_while module (cfg_maxRetries (config s)) retries s).1 = Normal tt ∧
     retries + Z.of_nat (List.length fails) ≤ cfg_maxRetries (config s) ∧
     rhythm d = (fails ≫= retry_beat (cfg_retryDelay (config s))) ++
                [Attempt (SettlesInTime Fulfils)]
     ∨
     ∃ final,
       failed final ∧
       (executeModule_while module (cfg_maxRetries (config s)) retries s).1 = race module final ∧
       retries + Z.of_nat (List.length fails) = cfg_maxRetries (config s) ∧
       rhythm d = (fails ≫= retry_beat (cfg_retryDelay (config s))) ++
                  [Attempt final; Logged EventLevel.ERROR "module_execute_failed"]).
Proof.
  remember (Z.to_nat (cfg_maxRetries (config s) + 1 - retries)) as n eqn:Hn.
  revert retries s Hn. induction n as [n IH] using lt_wf_ind. intros retries s Hn Hr.
  rewrite executeModule_while_eq.
  replace (retries <=? cfg_maxRetries (config s)) with true by (symmetry; apply Z.leb_le; lia).
  rewrite attempt_eq. cbn zeta.
  set (s1 := logEvent (event_module_execute_start module) s).
  assert (Hc1 : config (call_execute module s1).2 = config s) by by rewrite call_execute_config.
  assert (Ht1 : trace (call_execute module s1).2 =
                trace s ++ logEvent_actions (event_module_execute_start module) s ++
                [ModuleCall (m_ref module) m_execute_ (the_context s1)
                   (m_execute module (the_context s1) (world s1)).1.1]).
  { rewrite call_execute_trace. subst s1. rewrite logEvent_trace. by rewrite <- app_assoc. }
  assert (Hres := call_execute_result module s1).
  set (raced := (m_execute module (the_context s1) (world s1)).1.1) in *.
  assert (Hgen : genuine module (ModuleCall (m_ref module) m_execute_ (the_context s1) raced)).
  { repeat split. by eexists. }
  destruct (call_execute module s1) as [[[]|error] s2] eqn:Ecall; cbn [fst snd] in *.
  - (* the attempt resolved *)
    apply eq_sym, race_normal in Hres.
    eexists _, []. rewrite logEvent_trace, Ht1, logEvent_config, Hc1.
    rewrite <- !app_assoc. split; [reflexivity|]. split; [reflexivity|].
    split; [|split; [constructor|]].
    { apply Forall_app. split; [apply genuine_logEvent|].
      apply Forall_cons. split; [exact Hgen|apply genuine_logEvent]. }
    left. split; [reflexivity|]. split; [cbn; lia|].
    rewrite !rhythm_app, !rhythm_logEvent. cbn. by rewrite Hres.
  - rewrite Hc1. case_decide as Hlast; cbv beta iota; cbn [fst snd].
    + (* the budget is spent *)
      eexists _, []. rewrite logEvent_trace, Ht1, logEvent_config, Hc1.
      rewrite <- !app_assoc. split; [reflexivity|]. split; [reflexivity|].
      split; [|split; [constructor|]].
      { apply Forall_app. split; [apply genuine_logEvent|].
        apply Forall_cons. split; [exact Hgen|apply genuine_logEvent]. }
      right. exists raced. split; [by eapply race_throw|]. split; [done|].
      split; [cbn; lia|].
      rewrite !rhythm_app, !rhythm_logEvent. reflexivity.
    + (* one more turn *)
      set (s3 := wait _ (logEvent _ s2)).
      assert (Hc3 : config s3 = config s)
        by (subst s3; by rewrite wait_config, logEvent_config).
      assert (Ht3 : trace s3 = trace s ++
                logEvent_actions (event_module_execute_start module) s ++
                [ModuleCall (m_ref module) m_execute_ (the_context s1) raced] ++
                logEvent_actions
                  (event_module_execute_retry module (cfg_retryDelay (config s)) error
                     (retries + 1)) s2 ++
                [TimerWait (cfg_retryDelay (config s))]).
      { subst s3. rewrite wait_trace, logEvent_trace, Ht1.
        by rewrite <- !app_assoc. }
      destruct (IH (Z.to_nat (cfg_maxRetries (config s3) + 1 - (retries + 1)))
                  ltac:(rewrite Hc3; lia) (retries + 1) s3 eq_refl ltac:(rewrite Hc3; lia))
        as (d'&fails'&Ht'&Hc'&Hg'&Hf'&Hcase).
      rewrite Hc3 in *.
      eexists _, (raced :: fails'). rewrite Ht', Ht3, Hc'.
      rewrite <- !app_assoc. split; [reflexivity|]. split; [reflexivity|].
      split; [|split; [constructor; [by eapply race_throw|done]|]].
      { apply Forall_app. split; [apply genuine_logEvent|].
        apply Forall_cons. split; [exact Hgen|].
        apply Forall_app. split; [apply genuine_logEvent|]. by apply Forall_cons. }
      assert (Hbeat : rhythm
           (logEvent_actions (event_module_execute_start module) s ++
            [ModuleCall (m_ref module) m_execute_ (the_context s1) raced] ++
            logEvent_actions
              (event_module_execute_retry module (cfg_retryDelay (config s)) error
                 (retries + 1)) s2 ++
            [TimerWait (cfg_retryDelay (config s))] ++ d') = 
           retry_beat (cfg_retryDelay (config s)) raced ++ rhythm d').
      { rewrite !rhythm_app, !rhythm_logEvent. reflexivity. }
      rewrite Hbeat. cbn [mbind list_bind]. rewrite <- !app_assoc.
      destruct Hcase as [(Hn1&Hl1&Hr1)|(final&Hfin&Hn1&Hl1&Hr1)].
      * left. rewrite Hr1. split; [done|]. split; [cbn [List.length]; lia|done].
      * right. exists final. rewrite Hr1. split; [done|]. split; [done|].
        split; [cbn [List.length]; lia|done].
Qed.




Lemma rhythm_attempt d r :
  Attempt r ∈ rhythm d → ∃ ref c, ModuleCall ref m_execute_ c r ∈ d.
Proof.
  unfold rhythm. rewrite list_elem_of_omap. intros (a&Ha&Hb).
  destruct a; cbn in Hb; try done.
  - destruct (ev_level event); done.
  - destruct method; try done. injection Hb as ->. by eexists _, _.
Qed.

(** *** The wait between two attempts *)

Lemma failed_race module r : failed r → ∃ e, race module r = Throw e.
Proof. destruct r as [[]|]; intros Hf; cbn; by eauto. Qed.





Lemma executePhase_try_eq phase s :
  executePhase_try phase s =
  let r := executePhaseModules phase (logEvent (event_phase_start phase) s) in
  match r.1 with
  | Normal _ => (Normal ExecutionResult.SUCCESS, logEvent (event_phase_complete phase) r.2)
  | Throw error =>
      if negb (cfg_continueOnError (config r.2))
      then (Throw error, handlePhaseError error phase r.2)
      else (Normal ExecutionResult.FAILURE, handlePhaseError error phase r.2)
  end.
Proof.
  unfold executePhase_try.
  rewrite in_observers_values_Start, in_observers_values_Complete.
  unfold try_catch, bind, exec, gets, ret, throw.
  destruct (executePhaseModules phase _) as [[[]|e] s1]; cbn [fst snd]; [reflexivity|].
  change (config (handlePhaseError e phase s1)) with (config s1).
  destruct (negb _); reflexivity.
Qed.

Lemma enter_phase_world phase s : world (enter_phase phase s) = world s.
Proof.
  unfold enter_phase, getContext.
  change (context (set_currentPhase (Some phase) s)) with (context s).
  destruct (context s); reflexivity.
Qed.

Lemma executePhase_eq phase s :
  executePhase phase s =
  let s1 := enter_phase phase s in
  let r := executePhase_try phase s1 in
  match update_phase_statistics phase (now (world s1)) (result_of r.1) r.2 with
  | (Normal _, s3) => (match r.1 with Normal _ => Normal tt | Throw e => Throw e end, s3)
  | (Throw e, s3) => (Throw e, s3)
  end.
Proof.
  unfold executePhase, enter_phase, try_finally.
  unfold bind at 1 2 3 4 5, exec at 1 2, gets at 1, getContext, ret.
  change (context (set_currentPhase (Some phase) s)) with (context s).
  destruct (context s); cbn [fst snd];
    destruct (executePhase_try phase _) as [[r|e] s2]; cbn [fst snd result_of];
    destruct (update_phase_statistics _ _ _ _) as [[[]|e'] s3]; reflexivity.
Qed.

(** *** What was added to the trace *)

Lemma added_ext s s' d : trace s' = trace s ++ d → added s s' = d.
Proof. intros E. unfold added. by rewrite E, drop_app_length. Qed.

Lemma added_trans s1 s2 s3 d1 d2 :
  trace s2 = trace s1 ++ d1 → trace s3 = trace s2 ++ d2 → added s1 s3 = d1 ++ d2.
Proof. intros E1 E2. apply added_ext. by rewrite E2, E1, app_assoc. Qed.

Lemma frame_added P s s' : frame P s s' → trace s' = trace s ++ added s s' ∧ Forall P (added s s').
Proof. intros [? ? ? ? ? (d&E&F)]. by rewrite (added_ext _ _ _ E). Qed.

Lemma traced_added P s s' : traced P s s' → trace s' = trace s ++ added s s' ∧ Forall P (added s s').
Proof. intros [? ? ? ? (d&E&F)]. by rewrite (added_ext _ _ _ E). Qed.

Lemma raised_by_weaken (ms ms' : list (LifecycleModule World)) error d d' :
  ms ⊆ ms' → d ⊆ d' → raised_by ms error d → raised_by ms' error d'.
Proof. intros Hm Hd (module&c&r&?&?&?). exists module, c, r. repeat split; auto. Qed.

(** *** A failure travels up unchanged *)

Lemma executeModule_extends module s :
  0 ≤ cfg_maxRetries (config s) →
  trace (executeModule module s).2 = trace s ++ added s (executeModule module s).2 ∧
  config (executeModule module s).2 = config s.
Proof.
  intros Hmax. unfold executeModule.
  destruct (executeModule_while_spec module 0 s ltac:(lia)) as (d&fails&Ht&Hc&_).
  by rewrite (added_ext _ _ _ Ht).
Qed.

Lemma executeModule_throws module s :
  0 ≤ cfg_maxRetries (config s) → always_fails module →
  ∃ e, (executeModule module s).1 = Throw e.
Proof.
  intros Hmax Hfail. unfold executeModule.
  destruct (executeModule_while_spec module 0 s ltac:(lia)) as (d&fails&Ht&_&Hg&_&Hcase).
  destruct Hcase as [(_&_&Hr)|(final&Hf&->&_)]; [|by apply failed_race].
  exfalso. destruct (rhythm_attempt d (SettlesInTime Fulfils)) as (ref&c&Hin).
  { rewrite Hr. apply elem_of_app. right. by left. }
  rewrite Forall_forall in Hg. destruct (Hg _ Hin) as (_&_&w&Hw). by apply (Hfail c w).
Qed.

Lemma executeModule_origin module s e :
  0 ≤ cfg_maxRetries (config s) →
  (executeModule module s).1 = Throw e →
  raised_by [module] e (added s (executeModule module s).2).
Proof.
  intros Hmax He. unfold executeModule in *.
  destruct (executeModule_while_spec module 0 s ltac:(lia)) as (d&fails&Ht&_&Hg&_&Hcase).
  rewrite (added_ext _ _ _ Ht).
  destruct Hcase as [(Hn&_)|(final&Hf&Hr&_&Hbeat)]; [congruence|].
  destruct (rhythm_attempt d final) as (ref&c&Hin).
  { rewrite Hbeat. apply elem_of_app. right. by left. }
  rewrite Forall_forall in Hg. destruct (Hg _ Hin) as (->&_&_).
  exists module, c, final. split; [by left|]. split; [done|congruence].
Qed.

Lemma for_of_cons {A} (x : A) xs (body : A → Eng World unit) s :
  for_of (x :: xs) body s =
  match (body x s).1 with
  | Normal _ => for_of xs body (body x s).2
  | Throw e => (Throw e, (body x s).2)
  end.
Proof. cbn [for_of]. unfold bind. by destruct (body x s) as [[[]|e] s1]. Qed.

Lemma for_of_app_throw {A} (xs ys : list A) (body : A → Eng World unit) s e :
  (for_of xs body s).1 = Throw e → for_of (xs ++ ys) body s = for_of xs body s.
Proof.
  revert s. induction xs as [|x xs IH]; intros s; [done|].
  cbn [app]. rewrite !for_of_cons.
  destruct (body x s).1; [apply IH|done].
Qed.

Lemma executeModules_extends ms s :
  0 ≤ cfg_maxRetries (config s) →
  trace (for_of ms executeModule s).2 = trace s ++ added s (for_of ms executeModule s).2 ∧
  config (for_of ms executeModule s).2 = config s.
Proof.
  revert s. induction ms as [|module ms IH]; intros s Hmax.
  - cbn. unfold added. by rewrite drop_all, app_nil_r.
  - rewrite for_of_cons. destruct (executeModule_extends module s Hmax) as [Ht Hc].
    destruct (executeModule module s) as [[[]|e] s1]; cbn [fst snd] in *; [|done].
    destruct (IH s1 ltac:(by rewrite Hc)) as [Ht' Hc'].
    split; [|congruence].
    by rewrite (added_trans _ _ _ _ _ Ht Ht'), app_assoc, <- Ht.
Qed.

Lemma executeModules_origin ms s e :
  0 ≤ cfg_maxRetries (config s) →
  (for_of ms executeModule s).1 = Throw e →
  raised_by ms e (added s (for_of ms executeModule s).2).
Proof.
  revert s. induction ms as [|module ms IH]; intros s Hmax; [done|].
  rewrite for_of_cons. destruct (executeModule_extends module s Hmax) as [Ht Hc].
  pose proof (executeModule_origin module s) as Ho.
  destruct (executeModule module s) as [[[]|e'] s1]; cbn [fst snd] in *.
  - intros He. destruct (executeModules_extends ms s1 ltac:(by rewrite Hc)) as [Ht' _].
    rewrite (added_trans _ _ _ _ _ Ht Ht').
    eapply raised_by_weaken; [| |apply (IH s1); [by rewrite Hc|done]].
    + by apply list_subseteq_cons.
    + intros a Ha. apply elem_of_app. by right.
  - intros [= ->]. eapply raised_by_weaken; [| |by apply Ho].
    + intros m Hm. apply list_elem_of_singleton in Hm as ->. by left.
    + done.
Qed.

Lemma executeModules_throw module ms s :
  0 ≤ cfg_maxRetries (config s) → module ∈ ms → always_fails module →
  ∃ e, (for_of ms executeModule s).1 = Throw e.
Proof.
  intros Hmax Hin Hfail. revert s Hmax.
  induction ms as [|m ms IH]; intros s Hmax; [by apply elem_of_nil in Hin|].
  rewrite for_of_cons. destruct (executeModule_extends m s Hmax) as [_ Hc].
  apply elem_of_cons in Hin as [<-|Hin].
  - destruct (executeModule_throws module s Hmax Hfail) as [e ->]. by eexists.
  - destruct (executeModule m s) as [[[]|e] s1]; cbn [fst snd] in *; [|by eexists].
    apply IH; [done|by rewrite Hc].
Qed.

Lemma executePhaseModules_for_of phase s :
  executePhaseModules phase s =
  for_of (default [] (modules s !! phase)) executeModule (getContext s).2.
Proof.
  rewrite executePhaseModules_eq. unfold bind, getContext.
  destruct (context s); reflexivity.
Qed.

Lemma getContext_trace s : trace (getContext s).2 = trace s.
Proof. unfold getContext. by destruct (context s). Qed.

Lemma getContext_config s : config (getContext s).2 = config s.
Proof. unfold getContext. by destruct (context s). Qed.

Lemma added_same s1 s2 s3 : trace s2 = trace s1 → added s1 s3 = added s2 s3.
Proof. unfold added. by intros ->. Qed.

Lemma executePhaseModules_extends phase s :
  0 ≤ cfg_maxRetries (config s) →
  trace (executePhaseModules phase s).2 = trace s ++ added s (executePhaseModules phase s).2 ∧
  config (executePhaseModules phase s).2 = config s.
Proof.
  intros Hmax. rewrite executePhaseModules_for_of.
  destruct (executeModules_extends (default [] (modules s !! phase)) (getContext s).2)
    as [Ht Hc]; [by rewrite getContext_config|].
  rewrite getContext_trace, getContext_config in *.
  by rewrite (added_same s (getContext s).2) by (by rewrite getContext_trace).
Qed.

Lemma executePhaseModules_origin phase s e :
  0 ≤ cfg_maxRetries (config s) →
  (executePhaseModules phase s).1 = Throw e →
  raised_by (default [] (modules s !! phase)) e (added s (executePhaseModules phase s).2).
Proof.
  intros Hmax. rewrite executePhaseModules_for_of. intros He.
  rewrite (added_same s (getContext s).2) by (by rewrite getContext_trace).
  apply executeModules_origin; [by rewrite getContext_config|done].
Qed.

Lemma executePhaseModules_throws phase module s :
  0 ≤ cfg_maxRetries (config s) → module ∈ default [] (modules s !! phase) →
  always_fails module → ∃ e, (executePhaseModules phase s).1 = Throw e.
Proof.
  intros Hmax Hin Hfail. rewrite executePhaseModules_for_of.
  eapply executeModules_throw; [by rewrite getContext_config|done..].
Qed.

Lemma handlePhaseError_trace error phase s :
  trace (handlePhaseError error phase s) =
  trace s ++
  logEvent_actions (event_phase_error phase (as_Error error))
    (on_context (ctx_push_error (as_Error error)) s) ++
  (notify_loop (observer_error_calls (as_Error error) phase (observers s)) []).1.
Proof.
  unfold handlePhaseError, not_awaited, notifyObserversError. cbn [fst snd trace emit drop_promise].
  rewrite logEvent_trace. by rewrite <- app_assoc.
Qed.

(** What the [try] block of a phase throws is what its modules threw. *)
Lemma executePhase_try_origin phase s e :
  0 ≤ cfg_maxRetries (config s) →
  (executePhase_try phase s).1 = Throw e →
  cfg_continueOnError (config s) = false ∧
  raised_by (default [] (modules s !! phase)) e (added s (executePhase_try phase s).2).
Proof.
  intros Hmax. rewrite executePhase_try_eq. cbn zeta.
  set (s1 := logEvent (event_phase_start phase) s).
  destruct (executePhaseModules_extends phase s1 Hmax) as [Ht Hc].
  pose proof (executePhaseModules_origin phase s1) as Ho.
  destruct (executePhaseModules phase s1) as [[[]|e'] s2]; cbn [fst snd] in *; [done|].
  rewrite Hc. change (config s1) with (config s).
  destruct (cfg_continueOnError (config s)); cbn [negb fst snd]; [done|].
  intros [= ->]. split; [done|].
  specialize (Ho e Hmax eq_refl).
  assert (Hs1 : trace s1 = trace s ++ logEvent_actions (event_phase_start phase) s)
    by apply logEvent_trace.
  erewrite added_trans; [|exact Hs1|]; last first.
  { rewrite handlePhaseError_trace, Ht, <- app_assoc. reflexivity. }
  eapply raised_by_weaken; [done| |exact Ho].
  intros a Ha. apply elem_of_app. right. apply elem_of_app. by left.
Qed.

Lemma executePhase_try_throws phase module s :
  cfg_continueOnError (config s) = false →
  0 ≤ cfg_maxRetries (config s) → module ∈ default [] (modules s !! phase) →
  always_fails module → ∃ e, (executePhase_try phase s).1 = Throw e.
Proof.
  intros Hstrict Hmax Hin Hfail. rewrite executePhase_try_eq. cbn zeta.
  set (s1 := logEvent (event_phase_start phase) s).
  destruct (executePhaseModules_extends phase s1 Hmax) as [_ Hc].
  destruct (executePhaseModules_throws phase module s1 Hmax Hin Hfail) as [e He].
  destruct (executePhaseModules phase s1) as [r s2]; cbn [fst snd] in *. subst r.
  rewrite Hc. change (config s1) with (config s). rewrite Hstrict. by eexists.
Qed.

Lemma enter_phase_frame P phase s : frame P s (enter_phase phase s).
Proof.
  unfold enter_phase, getContext.
  change (context (set_currentPhase (Some phase) s)) with (context s).
  destruct (context s); by apply frame_silent.
Qed.

Lemma executePhase_throws phase module s :
  cfg_continueOnError (config s) = false →
  0 ≤ cfg_maxRetries (config s) → module ∈ default [] (modules s !! phase) →
  always_fails module → ∃ e, (executePhase phase s).1 = Throw e.
Proof.
  intros Hstrict Hmax Hin Hfail. rewrite executePhase_eq. cbn zeta.
  destruct (enter_phase_frame (fun _ => True) phase s) as [Hc Hm _ _ _ _].
  destruct (executePhase_try_throws phase module (enter_phase phase s)) as [e He];
    [by rewrite Hc|by rewrite Hc|by rewrite Hm|done|].
  rewrite He. destruct (update_phase_statistics _ _ _ _) as [[[]|e'] s3]; by eexists.
Qed.


Lemma update_phase_statistics_ok phase startTime result s :
  is_Some (st_phaseStats (stats s) !! phase) →
  (update_phase_statistics phase startTime result s).1 = Normal tt ∧
  trace (update_phase_statistics phase startTime result s).2 = trace s.
Proof. intros [ps E]. unfold update_phase_statistics. by rewrite E. Qed.

Lemma enter_phase_ctx phase s : ctx_inv (fun _ => True) (enter_phase phase s).
Proof.
  unfold enter_phase, getContext.
  change (context (set_currentPhase (Some phase) s)) with (context s).
  destruct (context s) eqn:E; (eexists; split; [cbn; rewrite ?E; reflexivity|done]).
Qed.

Lemma executePhase_try_frame_at refs hooks phase s :
  ctx_inv (fun _ => True) s →
  (∀ module, module ∈ default [] (modules s !! phase) → m_ref module ∈ refs) →
  frame (run_action (fun _ => True) refs hooks) s (executePhase_try phase s).2.
Proof.
  intros Hc Hrefs.
  apply (executePhase_try_maintains (fun _ => True) refs hooks stable_True phase (modules s)).
  - intros module Hin. split; [apply respects_True|by apply Hrefs].
  - by split.
Qed.

Lemma executePhase_frame_at refs hooks phase s :
  (∀ module, module ∈ default [] (modules s !! phase) → m_ref module ∈ refs) →
  frame (run_action (fun _ => True) refs hooks) s (executePhase phase s).2.
Proof. intros Hrefs. by apply (executePhase_framed (modules s) refs hooks phase Hrefs s). Qed.

Lemma all_refs (ms : list (LifecycleModule World)) module : module ∈ ms → m_ref module ∈ m_ref <$> ms.
Proof. apply list_elem_of_fmap_2. Qed.

(** With its statistics in place a phase ends as its [try] block ends. *)
Lemma executePhase_result phase s :
  is_Some (st_phaseStats (stats s) !! phase) →
  (executePhase phase s).1 =
    match (executePhase_try phase (enter_phase phase s)).1 with
    | Normal _ => Normal tt
    | Throw e => Throw e
    end ∧
  trace (executePhase phase s).2 = trace (executePhase_try phase (enter_phase phase s)).2.
Proof.
  intros Hst. rewrite executePhase_eq. cbn zeta.
  set (s1 := enter_phase phase s). set (r := executePhase_try phase s1).
  destruct (executePhase_try_frame_at (m_ref <$> default [] (modules s1 !! phase)) [] phase s1)
    as [_ _ _ _ (_&_&_&Hk) _]; [apply enter_phase_ctx|apply all_refs|].
  destruct (enter_phase_frame (fun _ => True) phase s) as [_ _ _ _ (_&_&_&Hk0) _].
  destruct (update_phase_statistics_ok phase (now (world s1)) (result_of r.1) r.2) as [Hn Ht].
  { by apply Hk, Hk0. }
  destruct (update_phase_statistics _ _ _ _) as [[[]|e] s3]; cbn [fst snd] in *; done.
Qed.

Lemma enter_phase_trace phase s : trace (enter_phase phase s) = trace s.
Proof.
  unfold enter_phase, getContext.
  change (context (set_currentPhase (Some phase) s)) with (context s).
  destruct (context s); reflexivity.
Qed.

Lemma executePhase_origin phase s e :
  is_Some (st_phaseStats (stats s) !! phase) →
  0 ≤ cfg_maxRetries (config s) →
  (executePhase phase s).1 = Throw e →
  cfg_continueOnError (config s) = false ∧
  raised_by (default [] (modules s !! phase)) e (added s (executePhase phase s).2).
Proof.
  intros Hst Hmax He.
  destruct (executePhase_result phase s Hst) as [Hr Ht]. rewrite Hr in He.
  destruct (enter_phase_frame (fun _ => True) phase s) as [Hc Hm _ _ _ _].
  destruct (executePhase_try_origin phase (enter_phase phase s) e) as [Hstrict Ho].
  { by rewrite Hc. }
  { revert He. destruct (executePhase_try phase _).1; [done|]. by intros [= ->]. }
  rewrite Hc in Hstrict. rewrite Hm in Ho. split; [done|].
  unfold added in *. by rewrite Ht, <- (enter_phase_trace phase s).
Qed.

(** *** The loop over the phases *)

Lemma phases_frame_at refs hooks phases s :
  (∀ p module, p ∈ phases → module ∈ default [] (modules s !! p) → m_ref module ∈ refs) →
  frame (run_action (fun _ => True) refs hooks) s (for_of phases executePhase s).2.
Proof.
  intros Hrefs.
  assert (Hh : hoare (fun s' => modules s' = modules s) (fun s' => modules s' = modules s)
                 (frame (run_action (fun _ => True) refs hooks)) (for_of phases executePhase)).
  { apply hoare_for_of; [apply _|]. intros p Hp.
    apply executePhase_framed. intros module Hin. by eapply Hrefs. }
  by destruct (Hh s eq_refl).
Qed.

Lemma registered_cons (M : gmap LifecyclePhase.t (list (LifecycleModule World))) p phases :
  registered M (p :: phases) = default [] (M !! p) ++ registered M phases.
Proof. reflexivity. Qed.

Lemma phases_origin phases s e :
  stats_complete s →
  0 ≤ cfg_maxRetries (config s) →
  (for_of phases executePhase s).1 = Throw e →
  raised_by (registered (modules s) phases) e (added s (for_of phases executePhase s).2).
Proof.
  revert s. induction phases as [|p phases IH]; intros s Hst Hmax; [done|].
  rewrite for_of_cons, registered_cons.
  destruct (executePhase_frame_at (m_ref <$> default [] (modules s !! p)) [] p s (all_refs _))
    as [Hc Hm _ _ Hrel Htr].
  pose proof (executePhase_origin p s) as Ho.
  destruct (executePhase p s) as [[[]|e'] s1]; cbn [fst snd] in *.
  - intros He.
    assert (Hst1 : stats_complete s1) by (intros q; apply Hrel, Hst).
    specialize (IH s1 Hst1 ltac:(by rewrite Hc) He). rewrite Hm in IH.
    destruct Htr as (d1&Ht1&_).
    destruct (phases_frame_at (registered_refs (modules s1) phases) [] phases s1)
      as [_ _ _ _ _ (d2&Ht2&_)].
    { intros q module Hq Hin. unfold registered_refs. apply list_elem_of_bind.
      exists q. split; [|done]. by apply all_refs. }
    rewrite (added_ext _ _ _ Ht2) in IH. rewrite (added_trans _ _ _ _ _ Ht1 Ht2).
    eapply raised_by_weaken; [| |exact IH].
    + intros m Hin. apply elem_of_app. by right.
    + intros a Ha. apply elem_of_app. by right.
  - intros [= ->]. destruct (Ho e (Hst p) Hmax eq_refl) as [_ Hr].
    eapply raised_by_weaken; [| |exact Hr]; [|done].
    intros m Hin. apply elem_of_app. by left.
Qed.

(** *** start, summed up *)

Lemma start_try_eq s :
  start_try s =
  let s1 := logEvent event_lifecycle_start (set_state LifecycleState.RUNNING s) in
  let r := for_of start_phases executePhase s1 in
  match r.1 with
  | Normal _ =>
      let duration := now (world r.2) - now (world s1) in
      (Normal tt,
       logEvent (event_lifecycle_complete duration)
         (set_state LifecycleState.STOPPED (record_successful_run duration r.2)))
  | Throw error =>
      (Throw error,
       handleLifecycleError error (record_failed_run (set_state LifecycleState.ERROR r.2)))
  end.
Proof.
  unfold start_try, try_catch, bind, exec, gets, ret, throw. cbn zeta.
  destruct (for_of start_phases executePhase _) as [[[]|e] s2]; reflexivity.
Qed.

Lemma start_ready s :
  state s = LifecycleState.STOPPED ∨ state s = LifecycleState.PAUSED →
  start s = start_try s.
Proof.
  intros Hst. unfold start, bind, gets, ret.
  destruct Hst as [E|E]; rewrite E; rewrite decide_False by done; rewrite E;
    rewrite decide_False by (by intros [? ?]); reflexivity.
Qed.

Lemma start_new s :
  state s = LifecycleState.UNINITIALIZED →
  start s =
  match (initialize s).1 with
  | Normal _ =>
      if decide (state (initialize s).2 ≠ LifecycleState.STOPPED ∧
                 state (initialize s).2 ≠ LifecycleState.PAUSED)
      then (Throw cannot_start_error, (initialize s).2)
      else start_try (initialize s).2
  | Throw e => (Throw e, (initialize s).2)
  end.
Proof.
  intros Hst. unfold start, bind at 1 2, gets at 1. rewrite Hst.
  rewrite decide_True by done.
  destruct (initialize s) as [[[]|e] s1]; cbn [fst snd]; [|reflexivity].
  unfold bind, gets, throw. case_decide; reflexivity.
Qed.

Lemma initialize_new s :
  state s = LifecycleState.UNINITIALIZED → initialize s = initialize_try s.
Proof. intros Hst. unfold initialize, bind, gets. rewrite Hst. reflexivity. Qed.

Lemma initialize_old s :
  state s ≠ LifecycleState.UNINITIALIZED → initialize s = (Throw already_initialized_error, s).
Proof. intros Hst. unfold initialize, bind, gets. by rewrite decide_True. Qed.

Lemma bind_normal_inv {A B} (m : Eng World A) (k : A → Eng World B) s b s' :
  bind m k s = (Normal b, s') → ∃ a s1, m s = (Normal a, s1) ∧ k a s1 = (Normal b, s').
Proof. unfold bind. destruct (m s) as [[a|e] s1]; [by eexists _, _|done]. Qed.

(** The last two statements of the [try] block of [initialize], or
    the first of its [catch], decide the state. *)
Lemma initialize_try_state s :
  match (initialize_try s).1 with
  | Normal _ => state (initialize_try s).2 = LifecycleState.STOPPED
  | Throw _ => state (initialize_try s).2 = LifecycleState.ERROR
  end.
Proof.
  unfold initialize_try, try_catch.
  match goal with |- context [match ?body s with _ => _ end] =>
    destruct (body s) as [[[]|e] s'] eqn:E end; cbn [fst snd]; [|reflexivity].
  repeat (apply bind_normal_inv in E as (?&?&?&E)).
  unfold exec in *.
  match goal with H : (_, set_state LifecycleState.STOPPED _) = _ |- _ => injection H as _ <- end.
  injection E as <-. reflexivity.
Qed.

Lemma start_wrong_state s :
  state s ≠ LifecycleState.UNINITIALIZED → state s ≠ LifecycleState.STOPPED →
  state s ≠ LifecycleState.PAUSED → start s = (Throw cannot_start_error, s).
Proof.
  intros H1 H2 H3. unfold start, bind, gets, ret.
  rewrite decide_False by done. by rewrite decide_True.
Qed.

Lemma initialize_leaves_uninitialized s :
  state (initialize s).2 ≠ LifecycleState.UNINITIALIZED.
Proof.
  destruct (decide (state s = LifecycleState.UNINITIALIZED)) as [E|E].
  - rewrite (initialize_new s E). pose proof (initialize_try_state s) as H.
    destruct (initialize_try s).1; by rewrite H.
  - by rewrite (initialize_old s E).
Qed.

(** C7.  [initialize()] on an engine that is not [UNINITIALIZED] throws
    the "already initialized" error, and [start()] on an engine that is
    neither [UNINITIALIZED] nor [STOPPED] nor [PAUSED] throws the "wrong
    state" error; the rejected call changes nothing, the state included.
    No call of [initialize()] leaves the engine [UNINITIALIZED]: an
    engine is initialized once. *)
Theorem wrong_state_is_rejected s :
  state s ≠ LifecycleState.UNINITIALIZED →
  initialize s = (Throw already_initialized_error, s) ∧
  (state s ≠ LifecycleState.STOPPED → state s ≠ LifecycleState.PAUSED →
   start s = (Throw cannot_start_error, s)) ∧
  state (initialize (initialize s).2).2 = state s ∧
  ∀ s0 : Machine World, state (initialize s0).2 ≠ LifecycleState.UNINITIALIZED.
Proof.
  intros Hst. split; [by apply initialize_old|].
  split; [by apply start_wrong_state|].
  split; [|apply initialize_leaves_uninitialized].
  rewrite (initialize_old s Hst). cbn [snd]. by rewrite (initialize_old s Hst).
Qed.

(** *** A run that is aborted *)

Lemma last_snoc' {A} (l : list A) x : last (l ++ [x]) = Some x.
Proof. apply last_snoc. Qed.

Lemma logEvent_actions_last event s :
  default EventLevel.INFO (pe_level event) ≠ EventLevel.DEBUG →
  last (logEvent_actions event s) =
  Some (ConsoleCall (console_method (default EventLevel.INFO (pe_level event)))
          (fullEvent event (set_eventCounter (eventCounter s + 1) s))).
Proof.
  intros Hl. unfold logEvent_actions. cbn zeta.
  change (ev_level (fullEvent event _)) with (default EventLevel.INFO (pe_level event)).
  rewrite (bool_decide_true _ Hl), orb_true_r. apply last_snoc.
Qed.

Lemma run_action_weaken I refs refs' hooks hooks' a :
  refs ⊆ refs' → hooks ⊆ hooks' →
  run_action I refs hooks a → run_action I refs' hooks' a.
Proof. intros Hr Hh. destruct a; cbn; try done; [by auto|]. intros (?&?&?). auto. Qed.

Lemma registered_refs_mono (M : gmap LifecyclePhase.t (list (LifecycleModule World))) phases phases' :
  phases ⊆ phases' → registered_refs M phases ⊆ registered_refs M phases'.
Proof.
  intros Hp ref. unfold registered_refs. rewrite !list_elem_of_bind.
  intros (p&?&?). exists p. auto.
Qed.

(** *** A phase that goes on after a failure *)

Lemma getContext_exists I s : ctx_inv I s → (getContext s).2 = s.
Proof. intros (c&E&_). unfold getContext. by rewrite E. Qed.


Lemma executeModules_frame_at (ms : list (LifecycleModule World)) s :
  ctx_inv (fun _ => True) s →
  ctx_inv (fun _ => True) (for_of ms executeModule s).2 ∧
  frame (run_action (fun _ => True) (m_ref <$> ms) []) s (for_of ms executeModule s).2.
Proof.
  intros Hc.
  assert (Hh : hoare (ctx_inv (fun _ => True)) (ctx_inv (fun _ => True))
                 (frame (run_action (fun _ => True) (m_ref <$> ms) []))
                 (for_of ms executeModule)).
  { apply hoare_for_of; [apply _|]. intros m Hm.
    apply executeModule_maintains; [apply stable_True|apply respects_True|by apply all_refs]. }
  exact (Hh s Hc).
Qed.

Lemma handlePhaseError_context error phase s c :
  context s = Some c →
  ∃ e, context (handlePhaseError error phase s) =
         Some (ctx_push_event e (ctx_push_error (as_Error error) c)) ∧
       ev_type e = "phase_error" ∧ ev_level e = EventLevel.ERROR ∧ ev_phase e = phase.
Proof.
  intros E. eexists. split.
  - unfold handlePhaseError, not_awaited, notifyObserversError.
    cbn [fst snd context emit drop_promise]. rewrite logEvent_context.
    cbn [context on_context set_context]. rewrite E. reflexivity.
  - done.
Qed.




(** *** What the trace of a run never holds *)

Lemma run_action_no_initialize I refs hooks ref d :
  Forall (run_action I refs hooks) d → module_calls ref m_initialize_ d = [].
Proof.
  induction 1 as [|a d Ha _ IH]; [done|].
  unfold module_calls in *. cbn [List.filter]. rewrite IH.
  destruct a; try done. destruct Ha as (_&->&_). cbn. by case_bool_decide as E; [destruct E|].
Qed.

Lemma run_action_hook_calls I refs hooks d :
  Forall (run_action I refs hooks) d → Forall (fun call => call.2 ∈ hooks) (hook_calls d).
Proof.
  induction 1 as [|a d Ha _ IH]; [constructor|].
  unfold hook_calls in *. destruct a; cbn [omap list_omap]; try done. by constructor.
Qed.

Lemma registered_refs_all (M : gmap LifecyclePhase.t (list (LifecycleModule World))) p module :
  module ∈ default [] (M !! p) → m_ref module ∈ registered_refs M LifecyclePhase.values.
Proof.
  intros Hin. unfold registered_refs. apply list_elem_of_bind. exists p. split.
  - by apply all_refs.
  - destruct p; set_solver.
Qed.

Lemma executePhaseModules_frame_at phase s :
  frame (run_action (fun _ => True) (m_ref <$> default [] (modules s !! phase)) [])
    s (executePhaseModules phase s).2.
Proof.
  rewrite executePhaseModules_for_of.
  assert (Hc : ctx_inv (fun _ => True) (getContext s).2).
  { unfold getContext. destruct (context s) eqn:E; cbn [snd]; by eexists. }
  etransitivity; [|apply (executeModules_frame_at _ _ Hc)].
  apply frame_silent; unfold getContext; by destruct (context s).
Qed.

Lemma registerModule_trace phase (m : option (LifecycleModule World)) s :
  ∃ d, trace (registerModule phase m s).2 = trace s ++ d ∧
       Forall (run_action (fun _ => True) [] []) d.
Proof.
  unfold registerModule. destruct m as [m|]; [|exists []; by rewrite app_nil_r].
  destruct (m_initialize m); [|exists []; by rewrite app_nil_r].
  unfold bind, exec. cbn [fst snd]. eexists. split; [rewrite logEvent_trace; reflexivity|].
  apply logEvent_actions_run.
Qed.

(** C1, as the code has it.  The engine never calls a module's
    [initialize]: [registerModule] only checks that the member is a
    function, and [initialize()], [start()] and [executePhaseModules]
    call nothing but [execute] on the modules, whatever the modules'
    own [isInitialized] says. *)
Theorem setup_is_checked_and_never_called s ref :
  module_calls ref m_initialize_ (added s (start s).2) = [] ∧
  module_calls ref m_initialize_ (added s (initialize s).2) = [] ∧
  (∀ phase, module_calls ref m_initialize_ (added s (executePhaseModules phase s).2) = []) ∧
  (∀ phase (m : option (LifecycleModule World)),
     module_calls ref m_initialize_ (added s (registerModule phase m s).2) = []) ∧
  ∀ phase module,
    registerModule phase (Some module) s =
    match m_initialize module with
    | None => (Throw invalid_module_error, s)
    | Some _ =>
        (Normal tt,
         logEvent (event_module_registered phase module)
           (set_modules (<[phase := default [] (modules s !! phase) ++ [module]]> (modules s)) s))
    end.
Proof.
  assert (Hrefs : ∀ p module, module ∈ default [] (modules s !! p) →
            m_ref module ∈ registered_refs (modules s) LifecyclePhase.values)
    by apply registered_refs_all.
  split; [|split; [|split; [|split]]].
  - destruct (start_hoare (modules s) _ ["onInitializationStart"; "onInitializationComplete"]
                Hrefs ltac:(set_solver) ltac:(set_solver) s eq_refl) as [_ F].
    apply traced_added in F as [_ F]. by eapply run_action_no_initialize.
  - destruct (initialize_hoare (modules s) _ ["onInitializationStart"; "onInitializationComplete"]
                Hrefs ltac:(set_solver) ltac:(set_solver) s eq_refl) as [_ F].
    apply frame_added in F as [_ F]. by eapply run_action_no_initialize.
  - intros phase. pose proof (executePhaseModules_frame_at phase s) as F.
    apply frame_added in F as [_ F]. by eapply run_action_no_initialize.
  - intros phase m. destruct (registerModule_trace phase m s) as (d&E&F).
    rewrite (added_ext _ _ _ E). by eapply run_action_no_initialize.
  - intros phase module. unfold registerModule. by destruct (m_initialize module).
Qed.

(** C2, as the code has it.  [executePhase] tests the hook's name with
    [in] against the iterator [this.observers.values()], which holds no
    such key: no phase hook is called, whatever the observers define.
    The only hooks [start()] calls are the two of [initialize()]. *)
Theorem phase_hooks_are_not_called phase s :
  in_observers_values ("on" +:+ getPhaseMethodName phase +:+ "Start") = false ∧
  in_observers_values ("on" +:+ getPhaseMethodName phase +:+ "Complete") = false ∧
  hook_calls (added s (executePhase phase s).2) = [] ∧
  Forall (fun call => call.2 ∈ ["onInitializationStart"; "onInitializationComplete"])
    (hook_calls (added s (start s).2)).
Proof.
  split; [apply in_observers_values_Start|]. split; [apply in_observers_values_Complete|]. split.
  - pose proof (executePhase_frame_at (m_ref <$> default [] (modules s !! phase)) [] phase s
                  (fun m => all_refs _ m)) as F.
    apply frame_added in F as [_ F]. apply run_action_hook_calls in F.
    destruct (hook_calls _) as [|call ?]; [done|]. apply Forall_cons in F as [F _]. set_solver.
  - destruct (start_hoare (modules s) _ ["onInitializationStart"; "onInitializationComplete"]
                (registered_refs_all (modules s)) ltac:(set_solver) ltac:(set_solver) s eq_refl)
      as [_ F].
    apply traced_added in F as [_ F]. by eapply run_action_hook_calls.
Qed.

Lemma omap_after_fmap {A B C} (f : A → B) (g : B → option C) (l : list A) :
  omap g (f <$> l) = omap (fun x => g (f x)) l.
Proof. induction l as [|x l IH]; [done|]. cbn. by rewrite IH. Qed.

(** C8, as the code has it.  [logEvent] calls every registered listener,
    in registration order, before it returns, as long as none throws
    synchronously; it awaits nothing: the promises the listeners returned
    sit in the one promise of [notifyListeners], which [logEvent] drops. *)
Theorem listeners_are_called_and_not_awaited event s :
  let e := fullEvent event (set_eventCounter (eventCounter s + 1) s) in
  Forall (fun l => throws_sync (l_call l e) = false) (listeners s) →
  (∃ console,
     trace (logEvent event s) =
       trace s ++ ((fun l => ListenerCall (l_ref l) e) <$> listeners s) ++ console ∧
     forallb is_console_call console = true) ∧
  unawaited (logEvent event s) =
    unawaited s ++
    [match omap (fun l => returned_promise (l_call l e)) (listeners s) with
     | [] => Settled (Normal tt)
     | promises => AwaitingAll promises
     end].
Proof.
  intros e Hsync.
  destruct (notify_loop_complete (listener_calls e (listeners s)) []) as [E1 E2].
  { unfold listener_calls. apply Forall_fmap. exact Hsync. }
  split.
  - eexists. split.
    + rewrite logEvent_trace. unfold logEvent_actions. fold e. rewrite E1.
      unfold listener_calls. rewrite <- list_fmap_compose. reflexivity.
    + match goal with |- context [if ?b then _ else _] => destruct b end; reflexivity.
  - rewrite logEvent_unawaited. fold e. rewrite E2. cbn [app].
    unfold listener_calls. rewrite omap_after_fmap. reflexivity.
Qed.

Lemma stable_markers current previous : stable (markers current previous).
Proof. intros c Hc. split; intros e; exact Hc. Qed.

(** C9, as the code has it.  [executePhase] sets the context's markers
    once, before the modules of the phase: every module of the phase is
    handed a context whose [currentPhase] is the phase, as long as the
    modules leave the markers alone.  [previousPhase] is the former
    [currentPhase] of the context when there was a context; when
    [executePhase] has to create it, it is the phase being entered. *)
Theorem phase_markers_are_set_on_entry phase s :
  (∀ module current previous,
     module ∈ default [] (modules s !! phase) → respects (markers current previous) module) →
  let previous :=
    match context s with Some c => ctx_currentPhase c | None => phase end in
  currentPhase (enter_phase phase s) = Some phase ∧
  ctx_inv (markers phase (Some previous)) (enter_phase phase s) ∧
  Forall (run_action (markers phase (Some previous))
            (m_ref <$> default [] (modules s !! phase)) [])
    (added s (executePhase phase s).2) ∧
  ctx_inv (markers phase (Some previous)) (executePhase phase s).2.
Proof.
  intros Hmods previous.
  split; [unfold enter_phase, getContext; by destruct (context _)|].
  split.
  { unfold enter_phase, getContext, previous, ctx_inv, on_context.
    change (context (set_currentPhase (Some phase) s)) with (context s).
    destruct (context s) as [c|] eqn:E; cbn [snd context set_context set_currentPhase].
    - rewrite E. by eexists.
    - by eexists. }
  destruct (executePhase_hoare (markers phase (Some previous))
              (m_ref <$> default [] (modules s !! phase)) [] (stable_markers _ _)
              phase (modules s)) with (s := s) as [[Hc _] F].
  - intros module Hin. split; [by apply Hmods|by apply all_refs].
  - split; [done|]. unfold previous. by destruct (context s).
  - split; [|done]. by apply frame_added in F as [_ F].
Qed.

(** *** The phase a module is registered under, and its own *)

Lemma logEvent_actions_tagged p event s :
  pe_phase event = Some p → Forall (tagged p) (logEvent_actions event s).
Proof.
  intros Hp. unfold logEvent_actions. apply Forall_app. split.
  - eapply Forall_prefix; [apply notify_loop_prefix|].
    unfold listener_calls. rewrite <- list_fmap_compose.
    apply Forall_fmap, Forall_forall. intros l _. cbn. by rewrite Hp.
  - case_match; repeat constructor. cbn. by rewrite Hp.
Qed.

Lemma logEvent_tagged p event s :
  pe_phase event = Some p → frame (tagged p) s (logEvent event s).
Proof.
  intros Hp. split; [reflexivity..|apply stats_rel_refl|].
  eexists. split; [apply logEvent_trace|by apply logEvent_actions_tagged].
Qed.

Lemma wait_tagged p ms s : frame (tagged p) s (wait ms s).
Proof.
  split; [reflexivity..|apply stats_rel_refl|].
  eexists. split; [reflexivity|]. by repeat constructor.
Qed.

Lemma attempt_tagged module retries s :
  frame (tagged (m_phase module)) s (attempt module retries s).2.
Proof.
  rewrite attempt_eq. cbn zeta.
  set (s0 := logEvent (event_module_execute_start module) s).
  assert (F0 : frame (tagged (m_phase module)) s s0) by by apply logEvent_tagged.
  assert (F1 : frame (tagged (m_phase module)) s0 (call_execute module s0).2).
  { rewrite call_execute_eq. cbn zeta. split; [reflexivity..|apply stats_rel_refl|].
    eexists. split; [reflexivity|]. by repeat constructor. }
  destruct (call_execute module s0) as [[[]|error] s1]; cbn [fst snd] in *.
  - etransitivity; [exact F0|]. etransitivity; [exact F1|]. by apply logEvent_tagged.
  - case_decide; cbn [snd].
    + etransitivity; [exact F0|]. etransitivity; [exact F1|]. by apply logEvent_tagged.
    + etransitivity; [exact F0|]. etransitivity; [exact F1|].
      etransitivity; [|apply wait_tagged]. by apply logEvent_tagged.
Qed.

Lemma executeModule_while_tagged module maxRetries retries s :
  frame (tagged (m_phase module)) s (executeModule_while module maxRetries retries s).2.
Proof.
  remember (Z.to_nat (maxRetries + 1 - retries)) as n eqn:Hn.
  revert retries Hn s. induction n as [n IH] using lt_wf_ind. intros retries Hn s.
  rewrite executeModule_while_eq.
  destruct (retries <=? maxRetries) eqn:Hle; [|reflexivity].
  pose proof (attempt_tagged module retries s) as F1.
  destruct (attempt module retries s) as [[[]|e] s1]; cbn [snd] in *; try done.
  etransitivity; [exact F1|].
  apply (IH (Z.to_nat (maxRetries + 1 - (retries + 1)))); lia.
Qed.

(** *** A module that is reached is executed *)

Lemma executeModule_succeeds module s :
  always_succeeds module → 0 ≤ cfg_maxRetries (config s) →
  (executeModule module s).1 = Normal tt.
Proof.
  intros Hm Hmax. unfold executeModule. rewrite executeModule_while_eq.
  destruct (0 <=? cfg_maxRetries (config s)) eqn:Hle; [|lia].
  rewrite attempt_eq. cbn zeta. rewrite call_execute_result, Hm. reflexivity.
Qed.

Lemma executeModule_calls module s :
  0 ≤ cfg_maxRetries (config s) →
  ∃ c r, ModuleCall (m_ref module) m_execute_ c r ∈ added s (executeModule module s).2.
Proof.
  intros Hmax.
  destruct (executeModule_while_spec module 0 s ltac:(lia)) as (d&fails&Ht&_&Hg&_&Hr).
  unfold executeModule. rewrite (added_ext _ _ _ Ht).
  assert (∃ r, Attempt r ∈ rhythm d) as [r Hin].
  { destruct Hr as [(_&_&->)|(final&_&_&_&->)]; eexists;
      apply elem_of_app; right; apply list_elem_of_here. }
  apply rhythm_attempt in Hin as (ref&c&Hin).
  exists c, r. rewrite Forall_forall in Hg. by destruct (Hg _ Hin) as (->&_).
Qed.

Lemma for_of_app_normal {A} (xs ys : list A) (body : A → Eng World unit) s :
  (for_of xs body s).1 = Normal tt → for_of (xs ++ ys) body s = for_of ys body (for_of xs body s).2.
Proof.
  revert s. induction xs as [|x xs IH]; intros s; [done|].
  cbn [app]. rewrite !for_of_cons. destruct (body x s).1; [|done]. apply IH.
Qed.

Lemma executeModules_succeed ms s :
  Forall always_succeeds ms → 0 ≤ cfg_maxRetries (config s) →
  (for_of ms executeModule s).1 = Normal tt.
Proof.
  intros Hms. revert s. induction Hms as [|m ms Hm _ IH]; intros s Hmax; [done|].
  rewrite for_of_cons, (executeModule_succeeds _ _ Hm Hmax). apply IH.
  by destruct (executeModule_extends m s Hmax) as [_ ->].
Qed.

Lemma executeModules_reach before module after s :
  Forall always_succeeds before → 0 ≤ cfg_maxRetries (config s) →
  ∃ c r, ModuleCall (m_ref module) m_execute_ c r ∈
           added s (for_of (before ++ module :: after) executeModule s).2.
Proof.
  intros Hb Hmax.
  rewrite (for_of_app_normal _ _ _ _ (executeModules_succeed before s Hb Hmax)).
  destruct (executeModules_extends before s Hmax) as [E1 C1].
  set (s1 := (for_of before executeModule s).2) in *.
  rewrite for_of_cons.
  destruct (executeModule_extends module s1 ltac:(by rewrite C1)) as [E2 C2].
  destruct (executeModule_calls module s1 ltac:(by rewrite C1)) as (c&r&Hin).
  exists c, r.
  assert (∃ d, trace (match (executeModule module s1).1 with
                      | Normal _ => for_of after executeModule (executeModule module s1).2
                      | Throw e => (Throw e, (executeModule module s1).2)
                      end).2 = trace (executeModule module s1).2 ++ d) as [d E3].
  { destruct (executeModule module s1).1; [|exists []; by rewrite app_nil_r].
    eexists. apply (executeModules_extends after). by rewrite C2, C1. }
  erewrite added_ext; [|rewrite E3, E2, E1, <- !app_assoc; reflexivity].
  set_solver.
Qed.

Lemma update_phase_statistics_trace phase startTime result s :
  trace (update_phase_statistics phase startTime result s).2 = trace s.
Proof. unfold update_phase_statistics. by destruct (_ !! _). Qed.

(** What [executePhase] adds to the trace holds what the loop over the
    modules added. *)
Lemma executePhase_holds_modules phase s a :
  0 ≤ cfg_maxRetries (config s) →
  (let s0 := (getContext (logEvent (event_phase_start phase) (enter_phase phase s))).2 in
   a ∈ added s0 (for_of (default [] (modules s !! phase)) executeModule s0).2) →
  a ∈ added s (executePhase phase s).2.
Proof.
  intros Hmax. cbn zeta. rewrite executePhase_eq. cbn zeta.
  set (s1 := enter_phase phase s).
  assert (Hm1 : modules s1 = modules s) by apply (enter_phase_frame (fun _ => True)).
  assert (Hc1 : config s1 = config s) by apply (enter_phase_frame (fun _ => True)).
  pose proof (enter_phase_trace phase s) as Ht1. fold s1 in Ht1.
  rewrite executePhase_try_eq. cbn zeta. rewrite executePhaseModules_for_of.
  change (modules (logEvent (event_phase_start phase) s1)) with (modules s1). rewrite Hm1.
  set (s0 := (getContext (logEvent (event_phase_start phase) s1)).2).
  assert (Ht0 : trace s0 = trace s ++ logEvent_actions (event_phase_start phase) s1).
  { unfold s0. by rewrite getContext_trace, logEvent_trace, Ht1. }
  destruct (executeModules_extends (default [] (modules s !! phase)) s0) as [E _].
  { unfold s0. by rewrite getContext_config, logEvent_config, Hc1. }
  revert E. generalize (for_of (default [] (modules s !! phase)) executeModule s0).
  intros [r s2] E Hin. cbn [fst snd] in *.
  assert (∃ d, trace
     (match
        match r with
        | Normal _ => (Normal ExecutionResult.SUCCESS, logEvent (event_phase_complete phase) s2)
        | Throw error =>
            if negb (cfg_continueOnError (config s2))
            then (Throw error, handlePhaseError error phase s2)
            else (Normal ExecutionResult.FAILURE, handlePhaseError error phase s2)
        end with
      | (c, s3) => s3 end) = trace s2 ++ d) as [d E3].
  { destruct r; [eexists; apply logEvent_trace|].
    destruct (negb _); eexists; cbn [snd]; apply handlePhaseError_trace. }
  revert E3.
  generalize (match r with
        | Normal _ => (Normal ExecutionResult.SUCCESS, logEvent (event_phase_complete phase) s2)
        | Throw error =>
            if negb (cfg_continueOnError (config s2))
            then (Throw error, handlePhaseError error phase s2)
            else (Normal ExecutionResult.FAILURE, handlePhaseError error phase s2)
        end).
  intros [c s3] E3. cbn [fst snd].
  pose proof (update_phase_statistics_trace phase (now (world s1)) (result_of c) s3) as E4.
  destruct (update_phase_statistics phase (now (world s1)) (result_of c) s3) as [[[]|e] s4];
    cbn [snd] in *.
  all: erewrite added_ext; [|rewrite E4, E3, E, Ht0, <- !app_assoc; reflexivity].
  all: set_solver.
Qed.

(** *** Two executions that differ by the module's [phase] member *)

Lemma same_but_tags_refl s : same_but_tags s s.
Proof. by split. Qed.

Lemma untag_history_push cfg e h :
  untag <$> history_push cfg e h = history_push cfg (untag e) (untag <$> h).
Proof.
  unfold history_push. destruct (cfg_saveHistory cfg); [|done].
  change [untag e] with (untag <$> [e]).
  rewrite <- (fmap_app untag h [e]), !length_fmap.
  case_decide; [|done]. by destruct (h ++ [e]).
Qed.

Lemma history_push_untag cfg e e' h h' :
  untag e' = untag e → untag <$> h' = untag <$> h →
  untag <$> history_push cfg e' h' = untag <$> history_push cfg e h.
Proof. intros He Hh. by rewrite !untag_history_push, He, Hh. Qed.

Lemma notify_loop_untag e e' (ls : list LifecycleListener) promises :
  Forall phase_blind ls → untag e' = untag e →
  untag_action <$> (notify_loop (listener_calls e' ls) promises).1 =
    untag_action <$> (notify_loop (listener_calls e ls) promises).1 ∧
  (notify_loop (listener_calls e' ls) promises).2 =
    (notify_loop (listener_calls e ls) promises).2.
Proof.
  intros Hls He. revert promises. induction Hls as [|l ls Hl _ IH]; intros promises; [done|].
  change (listener_calls e' (l :: ls))
    with ((ListenerCall (l_ref l) e', l_call l e') :: listener_calls e' ls).
  change (listener_calls e (l :: ls))
    with ((ListenerCall (l_ref l) e, l_call l e) :: listener_calls e ls).
  assert (Hcall : l_call l e' = l_call l e) by by rewrite <- (Hl e'), <- (Hl e), He.
  rewrite Hcall.
  destruct (l_call l e) as [|p|err]; cbn [notify_loop fst snd]; rewrite !fmap_cons;
    cbn [untag_action]; rewrite He.
  - by destruct (IH promises) as [-> ->].
  - by destruct (IH (promises ++ [p])) as [-> ->].
  - done.
Qed.

Lemma ev_level_untag e e' : untag e' = untag e → ev_level e' = ev_level e.
Proof. intros He. by apply (f_equal ev_level) in He. Qed.

Lemma untag_context_push e e' c c' :
  untag e' = untag e → untag_context c' = untag_context c →
  untag_context (ctx_push_event e' c') = untag_context (ctx_push_event e c).
Proof.
  intros He Hc. destruct c, c'. unfold untag_context, ctx_push_event in *. cbn in *.
  injection Hc as -> -> -> -> -> Hev ->. rewrite !fmap_app, Hev. cbn. by rewrite He.
Qed.

(** The same literal but for the phase, logged on either side. *)
Lemma same_but_tags_logEvent p p' type name level description data duration s s' :
  Forall phase_blind (listeners s) → same_but_tags s s' →
  same_but_tags
    (logEvent (event_literal p type name level description data duration) s)
    (logEvent (event_literal p' type name level description data duration) s').
Proof.
  intros Hls [Hst Hcp Hmo Hli Hob Hsa Hcf Hec Hwo Hun Hhi Hcx Htr].
  set (pe := event_literal p type name level description data duration).
  set (pe' := event_literal p' type name level description data duration).
  set (e := fullEvent pe (set_eventCounter (eventCounter s + 1) s)).
  set (e' := fullEvent pe' (set_eventCounter (eventCounter s' + 1) s')).
  assert (He : untag e' = untag e).
  { unfold e, e', untag, retag, fullEvent. cbn. by rewrite Hec, Hwo. }
  destruct (notify_loop_untag e e' (listeners s) [] Hls He) as [Hn1 Hn2].
  split.
  - by rewrite !logEvent_state.
  - by rewrite !logEvent_currentPhase.
  - by rewrite !logEvent_modules.
  - by rewrite !logEvent_listeners.
  - by rewrite !logEvent_observers.
  - by rewrite !logEvent_stats.
  - by rewrite !logEvent_config.
  - by rewrite !logEvent_eventCounter, Hec.
  - by rewrite !logEvent_world.
  - rewrite !logEvent_unawaited. fold e e'. by rewrite Hun, Hli, Hn2.
  - rewrite !logEvent_eventHistory. fold e e'. rewrite Hcf. by apply history_push_untag.
  - rewrite !logEvent_context. fold e e'.
    destruct (context s') as [c'|], (context s) as [c|]; try done.
    assert (Hc : untag_context c' = untag_context c) by (simpl in Hcx; congruence).
    simpl. f_equal. by apply untag_context_push.
  - rewrite !logEvent_trace, !fmap_app, Htr. f_equal.
    unfold logEvent_actions. fold e e'. rewrite !fmap_app, Hli, Hn1, Hcf, (ev_level_untag _ _ He).
    f_equal. destruct (_ || _); [|done]. cbn. by rewrite He.
Qed.

Lemma the_context_untag s s' :
  same_but_tags s s' → untag_context (the_context s') = untag_context (the_context s).
Proof.
  intros [Hst Hcp Hmo Hli Hob Hsa Hcf Hec Hwo Hun Hhi Hcx Htr]. unfold the_context.
  destruct (context s') as [c'|], (context s) as [c|]; try done.
  - simpl in Hcx. simpl. congruence.
  - cbn. unfold createContext, currentPhase_or_INITIALIZATION. by rewrite Hcp, Hwo.
Qed.

Lemma same_but_tags_call_execute q module s s' :
  events_blind module → same_but_tags s s' →
  (call_execute (with_phase q module) s').1 = (call_execute module s).1 ∧
  same_but_tags (call_execute module s).2 (call_execute (with_phase q module) s').2.
Proof.
  intros Hm Hs. pose proof (the_context_untag s s' Hs) as Hc.
  destruct Hs as [Hst Hcp Hmo Hli Hob Hsa Hcf Hec Hwo Hun Hhi Hcx Htr].
  rewrite !call_execute_eq. cbn zeta. cbn [with_phase m_execute m_ref fst snd].
  destruct (Hm _ _ (world s) Hc) as (Hr&Hw&Hc').
  rewrite Hwo in *. split.
  - rewrite Hr. by destruct (m_execute module (the_context s) (world s)).1.1 as [[]|].
  - split; try done.
    + change (Some (untag_context (m_execute module (the_context s') (world s)).1.2) =
              Some (untag_context (m_execute module (the_context s) (world s)).1.2)).
      by rewrite Hc'.
    + change (untag_action <$>
                (trace s' ++ [ModuleCall (m_ref module) m_execute_ (the_context s')
                                (m_execute module (the_context s') (world s)).1.1]) =
              untag_action <$>
                (trace s ++ [ModuleCall (m_ref module) m_execute_ (the_context s)
                               (m_execute module (the_context s) (world s)).1.1])).
      rewrite !fmap_app, Htr, Hr. f_equal. cbn [fmap list_fmap untag_action]. by rewrite Hc.
Qed.

Lemma same_but_tags_wait ms s s' : same_but_tags s s' → same_but_tags (wait ms s) (wait ms s').
Proof.
  intros [Hst Hcp Hmo Hli Hob Hsa Hcf Hec Hwo Hun Hhi Hcx Htr].
  split; cbn; try done; [by rewrite Hwo|by rewrite !fmap_app, Htr].
Qed.

Lemma same_but_tags_attempt q module retries s s' :
  events_blind module → Forall phase_blind (listeners s) → same_but_tags s s' →
  (attempt (with_phase q module) retries s').1 = (attempt module retries s).1 ∧
  same_but_tags (attempt module retries s).2 (attempt (with_phase q module) retries s').2.
Proof.
  intros Hm Hls Hs. rewrite !attempt_eq. cbn zeta.
  pose proof (same_but_tags_logEvent (m_phase module) q "module_execute_start"
                ("模块 " +:+ quoted (m_name module) +:+ " 执行开始") EventLevel.DEBUG
                ("模块 " +:+ quoted (m_name module) +:+ " (v" +:+ m_version module +:+ ") 开始执行")
                None None s s' Hls Hs) as H0.
  change (logEvent (event_literal (m_phase module) _ _ _ _ _ _) s)
    with (logEvent (event_module_execute_start module) s) in H0.
  change (logEvent (event_literal q _ _ _ _ _ _) s')
    with (logEvent (event_module_execute_start (with_phase q module)) s') in H0.
  assert (Hls0 : Forall phase_blind (listeners (logEvent (event_module_execute_start module) s)))
    by by rewrite logEvent_listeners.
  assert (Hw : now (world s') = now (world s)) by by destruct Hs as [_ _ _ _ _ _ _ _ -> _ _ _ _].
  revert H0 Hls0.
  generalize (logEvent (event_module_execute_start module) s).
  generalize (logEvent (event_module_execute_start (with_phase q module)) s').
  intros t' t H0 Hls0.
  destruct (same_but_tags_call_execute q module t t' Hm H0) as [Hr H1].
  assert (Hls1 : Forall phase_blind (listeners (call_execute module t).2)).
  { rewrite call_execute_eq. exact Hls0. }
  revert Hr H1 Hls1.
  generalize (call_execute module t). generalize (call_execute (with_phase q module) t').
  intros [r' u'] [r u] Hr H1 Hls1. cbn [fst snd] in *. subst r'.
  pose proof (sbt_config _ _ H1) as Hcf. pose proof (sbt_world _ _ H1) as Hwo.
  destruct r as [[]|error].
  - cbn [fst snd]. split; [done|]. rewrite Hw, Hwo.
    by apply (same_but_tags_logEvent (m_phase module) q).
  - rewrite Hcf. case_decide; cbn [fst snd].
    + split; [done|]. by apply (same_but_tags_logEvent (m_phase module) q).
    + split; [done|]. apply same_but_tags_wait.
      by apply (same_but_tags_logEvent (m_phase module) q).
Qed.

Lemma attempt_listeners module retries s : listeners (attempt module retries s).2 = listeners s.
Proof. apply (attempt_tagged module retries s). Qed.

Lemma same_but_tags_while q module maxRetries retries s s' :
  events_blind module → Forall phase_blind (listeners s) → same_but_tags s s' →
  (executeModule_while (with_phase q module) maxRetries retries s').1 =
    (executeModule_while module maxRetries retries s).1 ∧
  same_but_tags (executeModule_while module maxRetries retries s).2
    (executeModule_while (with_phase q module) maxRetries retries s').2.
Proof.
  intros Hm.
  remember (Z.to_nat (maxRetries + 1 - retries)) as n eqn:Hn.
  revert retries Hn s s'. induction n as [n IH] using lt_wf_ind. intros retries Hn s s' Hls Hs.
  rewrite !executeModule_while_eq.
  destruct (retries <=? maxRetries) eqn:Hle; [|done].
  destruct (same_but_tags_attempt q module retries s s' Hm Hls Hs) as [Hr H1].
  pose proof (attempt_listeners module retries s) as Hl1.
  destruct (attempt module retries s) as [r t], (attempt (with_phase q module) retries s')
    as [r' t']. cbn [fst snd] in *. subst r'.
  destruct r as [[]|e]; try done.
  apply (IH (Z.to_nat (maxRetries + 1 - (retries + 1)))); [lia|done|by rewrite Hl1|done].
Qed.

Lemma run_action_no_calls I refs hooks ref method d :
  ref ∉ refs → Forall (run_action I refs hooks) d → module_calls ref method d = [].
Proof.
  intros Hnot. induction 1 as [|a d Ha _ IH]; [done|].
  unfold module_calls in *. cbn [List.filter]. rewrite IH.
  destruct a; try done. destruct Ha as (Hin&_&_). cbn.
  case_bool_decide as E; [|done]. destruct E as [-> _]. done.
Qed.

Lemma registerModule_accepts phase module s :
  is_Some (m_initialize module) →
  registerModule phase (Some module) s =
  (Normal tt,
   logEvent (event_module_registered phase module)
     (set_modules (<[phase := default [] (modules s !! phase) ++ [module]]> (modules s)) s)).
Proof. intros [f Hf]. unfold registerModule. by rewrite Hf. Qed.

End Proofs.
(** ** More of the engine *)

Section More.

Context {World : Type} `{!Runtime World}.
Implicit Types (s : Machine World) (event : PartialEvent) (module : LifecycleModule World).

#[local] Existing Instance frame_preorder.
#[local] Existing Instance traced_preorder.

(** *** The sets of listeners and observers *)

Lemma filter_all {A} (P : A → Prop) `{!∀ x, Decision (P x)} (l : list A) :
  Forall P l → filter P l = l.
Proof.
  induction 1 as [|x l Hx _ IH]; [done|]. by rewrite filter_cons_True, IH.
Qed.

Lemma filter_other_refs {A} (ref : A → nat) (r : nat) (l : list A) :
  r ∉ ref <$> l → filter (fun x => ref x ≠ r) l = l.
Proof.
  intros Hnot. apply filter_all, Forall_forall. intros x Hx E.
  apply Hnot. rewrite <- E. by apply list_elem_of_fmap_2.
Qed.

Lemma filter_refs_length {A} (ref : A → nat) (r : nat) (l : list A) :
  NoDup (ref <$> l) → r ∈ ref <$> l →
  List.length l = S (List.length (filter (fun x => ref x ≠ r) l)) ∧
  (r ∉ ref <$> filter (fun x => ref x ≠ r) l) ∧
  NoDup (ref <$> filter (fun x => ref x ≠ r) l).
Proof.
  induction l as [|x l IH]; intros Hnd Hin; [by apply elem_of_nil in Hin|].
  rewrite fmap_cons in Hnd, Hin. apply NoDup_cons in Hnd as [Hx Hnd].
  destruct (decide (ref x = r)) as [E|E].
  - rewrite filter_cons_False by (by intros ?). subst r.
    rewrite (filter_other_refs ref (ref x) l Hx). done.
  - rewrite filter_cons_True by done. apply elem_of_cons in Hin as [?|Hin]; [done|].
    destruct (IH Hnd Hin) as (Hlen&Hnot&Hnd'). rewrite fmap_cons. split; [cbn; lia|].
    split.
    + apply not_elem_of_cons. split; [done|exact Hnot].
    + apply NoDup_cons. split; [|exact Hnd'].
      intros Hin'. apply Hx. apply list_elem_of_fmap in Hin' as (y&->&Hy).
      apply list_elem_of_filter in Hy as [_ Hy]. by apply list_elem_of_fmap_2.
Qed.

(** X1.  [addEventListener] then [removeEventListener] of a listener
    that was not registered gives the set of listeners back;
    [removeEventListener] answers whether the listener was there. *)
Theorem a_new_listener_comes_and_goes (l : LifecycleListener) s :
  l_ref l ∉ l_ref <$> listeners s →
  listeners (addEventListener l s) = listeners s ++ [l] ∧
  (removeEventListener l (addEventListener l s)).1 = true ∧
  listeners (removeEventListener l (addEventListener l s)).2 = listeners s ∧
  (removeEventListener l s).1 = false ∧
  listeners (removeEventListener l s).2 = listeners s.
Proof.
  intros Hnew.
  assert (Hadd : listeners (addEventListener l s) = listeners s ++ [l]).
  { unfold addEventListener. rewrite logEvent_listeners. cbn [listeners set_listeners].
    by rewrite bool_decide_eq_false_2. }
  split; [exact Hadd|]. unfold removeEventListener. cbn [fst snd listeners set_listeners].
  rewrite Hadd. split; [|split; [|split]].
  - apply bool_decide_eq_true_2. rewrite fmap_app. apply elem_of_app. right. apply list_elem_of_here.
  - rewrite filter_app, (filter_other_refs l_ref (l_ref l) _ Hnew).
    rewrite filter_cons_False by (by intros ?). by rewrite app_nil_r.
  - by apply bool_decide_eq_false_2.
  - by apply filter_other_refs.
Qed.

(** X2.  The listeners are a set: adding a registered listener again
    changes nothing, removing it takes out that one listener. *)
Theorem a_registered_listener_is_one (l : LifecycleListener) s :
  NoDup (l_ref <$> listeners s) →
  l_ref l ∈ l_ref <$> listeners s →
  listeners (addEventListener l s) = listeners s ∧
  (removeEventListener l s).1 = true ∧
  List.length (listeners s) = S (List.length (listeners (removeEventListener l s).2)) ∧
  (l_ref l ∉ l_ref <$> listeners (removeEventListener l s).2) ∧
  NoDup (l_ref <$> listeners (removeEventListener l s).2) ∧
  ∀ l', NoDup (l_ref <$> listeners (addEventListener l' s)).
Proof.
  intros Hnd Hin. split.
  { unfold addEventListener. rewrite logEvent_listeners. cbn [listeners set_listeners].
    by rewrite bool_decide_eq_true_2. }
  unfold removeEventListener. cbn [fst snd listeners set_listeners].
  split; [by apply bool_decide_eq_true_2|].
  destruct (filter_refs_length l_ref (l_ref l) (listeners s) Hnd Hin) as (?&?&?).
  repeat (split; [done|]).
  intros l'. unfold addEventListener. rewrite logEvent_listeners. cbn [listeners set_listeners].
  case_bool_decide as E; [done|]. rewrite fmap_app. apply NoDup_app.
  split; [done|]. split; [|apply NoDup_singleton].
  intros r Hr Hr'. apply list_elem_of_singleton in Hr'. by subst r.
Qed.

(** X3.  The observers are a set in the same way. *)
Theorem observers_are_a_set (o : LifecycleObserver) s :
  NoDup (o_ref <$> observers s) →
  (o_ref o ∉ o_ref <$> observers s →
   observers (addObserver o s) = observers s ++ [o] ∧
   (removeObserver o (addObserver o s)).1 = true ∧
   observers (removeObserver o (addObserver o s)).2 = observers s ∧
   (removeObserver o s).1 = false) ∧
  (o_ref o ∈ o_ref <$> observers s →
   observers (addObserver o s) = observers s ∧
   (removeObserver o s).1 = true ∧
   List.length (observers s) = S (List.length (observers (removeObserver o s).2))) ∧
  NoDup (o_ref <$> observers (addObserver o s)) ∧
  NoDup (o_ref <$> observers (removeObserver o s).2).
Proof.
  intros Hnd.
  assert (Hadd : observers (addObserver o s) =
                 if bool_decide (o_ref o ∈ o_ref <$> observers s) then observers s
                 else observers s ++ [o]).
  { unfold addObserver. by rewrite logEvent_observers. }
  split; [|split; [|split]].
  - intros Hnew. rewrite Hadd, bool_decide_eq_false_2 by done.
    split; [done|]. unfold removeObserver. cbn [fst snd observers set_observers].
    rewrite Hadd. rewrite (bool_decide_eq_false_2 (o_ref o ∈ o_ref <$> observers s)) by exact Hnew.
    split; [|split].
    + apply bool_decide_eq_true_2. rewrite fmap_app. apply elem_of_app. right.
      apply list_elem_of_here.
    + rewrite filter_app, (filter_other_refs o_ref (o_ref o) _ Hnew).
      rewrite filter_cons_False by (by intros ?). by rewrite app_nil_r.
    + done.
  - intros Hin. rewrite Hadd, bool_decide_eq_true_2 by done. split; [done|].
    unfold removeObserver. cbn [fst snd observers set_observers].
    split; [by apply bool_decide_eq_true_2|].
    by destruct (filter_refs_length o_ref (o_ref o) (observers s) Hnd Hin) as (?&?&?).
  - rewrite Hadd. case_bool_decide as E; [done|]. rewrite fmap_app. apply NoDup_app.
    split; [done|]. split; [|apply NoDup_singleton].
    intros r Hr Hr'. apply list_elem_of_singleton in Hr'. by subst r.
  - unfold removeObserver. cbn [snd observers set_observers].
    destruct (decide (o_ref o ∈ o_ref <$> observers s)) as [Hin|Hnew].
    + by destruct (filter_refs_length o_ref (o_ref o) (observers s) Hnd Hin) as (?&?&?).
    + by rewrite filter_other_refs.
Qed.

(** *** getEventHistory *)

(** X4.  [getEventHistory(limit)] with a positive limit is the last
    [limit] events of the history, all of them when there are fewer;
    without a limit, and with the limit 0, it is the whole history, and a
    negative limit drops that many of the oldest events. *)
Theorem getEventHistory_is_a_slice (limit : Z) s :
  0 < limit →
  getEventHistory (Some limit) s = keep_last (Z.to_nat limit) (eventHistory s) ∧
  List.length (getEventHistory (Some limit) s) =
    Nat.min (Z.to_nat limit) (List.length (eventHistory s)) ∧
  getEventHistory (Some limit) s `suffix_of` eventHistory s ∧
  getEventHistory (Some 0) s = eventHistory s ∧
  getEventHistory None s = eventHistory s ∧
  getEventHistory (Some (- limit)) s = drop (Z.to_nat limit) (eventHistory s).
Proof.
  intros Hpos.
  assert (Hlast : getEventHistory (Some limit) s =
                  drop (List.length (eventHistory s) - Z.to_nat limit) (eventHistory s)).
  { unfold getEventHistory. rewrite decide_True by lia. f_equal. lia. }
  rewrite Hlast. unfold keep_last.
  split; [done|]. split; [rewrite length_drop; lia|]. split; [apply suffix_drop|].
  split; [|split; [done|]].
  - unfold getEventHistory. rewrite decide_False by lia.
    by replace (Z.to_nat _) with 0%nat by lia.
  - unfold getEventHistory. rewrite decide_False by lia.
    destruct (decide (Z.to_nat limit ≤ List.length (eventHistory s))%nat).
    + f_equal. lia.
    + rewrite !drop_ge by lia. done.
Qed.

(** *** The context's data store *)

(** X5.  The five closures of the context work on the one map [data]:
    what [set] stores [get] and [has] find, another key is left alone,
    [delete] answers whether the key was there and removes it, [clear]
    empties the map; none of them touches the markers, the events or
    the errors. *)
Theorem context_store_laws (key key' : string) (value : JsValue) c :
  key ≠ key' →
  ctx_get key (ctx_set key value c) = Some value ∧
  ctx_has key (ctx_set key value c) = true ∧
  ctx_get key' (ctx_set key value c) = ctx_get key' c ∧
  ctx_has key' (ctx_set key value c) = ctx_has key' c ∧
  (ctx_delete key c).1 = ctx_has key c ∧
  ctx_has key (ctx_delete key c).2 = false ∧
  ctx_get key' (ctx_delete key c).2 = ctx_get key' c ∧
  (ctx_delete key (ctx_set key value c)).1 = true ∧
  ctx_get key (ctx_clear c) = None ∧
  ctx_data (ctx_set key value c) !! key = ctx_get key (ctx_set key value c) ∧
  ctx_with_data (ctx_data c) (ctx_set key value c) = c.
Proof.
  intros Hne. destruct c. unfold ctx_get, ctx_has, ctx_delete, ctx_set, ctx_clear. cbn.
  rewrite !lookup_insert_eq, !lookup_insert_ne, !lookup_delete_eq, !lookup_delete_ne by done.
  rewrite lookup_empty.
  repeat split; try done.
  all: first [by apply bool_decide_eq_true_2 | apply bool_decide_eq_false_2; by intros []
             | unfold ctx_has; cbn; rewrite lookup_insert_eq; by apply bool_decide_eq_true_2].
Qed.

(** *** What one [logEvent] prints *)

Lemma console_calls_app d1 d2 : console_calls (d1 ++ d2) = console_calls d1 ++ console_calls d2.
Proof. unfold console_calls. apply List.filter_app. Qed.

Lemma console_calls_none d : Forall (fun a => is_console_call a = false) d → console_calls d = [].
Proof.
  induction 1 as [|a d Ha _ IH]; [done|]. unfold console_calls in *. cbn. by rewrite Ha.
Qed.

Lemma console_calls_listeners e (ls : list LifecycleListener) promises :
  console_calls (notify_loop (listener_calls e ls) promises).1 = [].
Proof.
  apply console_calls_none. eapply Forall_prefix; [apply notify_loop_prefix|].
  unfold listener_calls. rewrite <- list_fmap_compose. apply Forall_fmap, Forall_forall.
  by intros.
Qed.

Lemma console_calls_actions event s :
  console_calls (logEvent_actions event s) =
  let e := fullEvent event (set_eventCounter (eventCounter s + 1) s) in
  if cfg_enableDebugLogging (config s) || bool_decide (ev_level e ≠ EventLevel.DEBUG)
  then [ConsoleCall (console_method (ev_level e)) e] else [].
Proof.
  unfold logEvent_actions. cbn zeta.
  rewrite console_calls_app, console_calls_listeners. by destruct (_ || _).
Qed.

Lemma console_calls_logEvent event s :
  console_calls (added s (logEvent event s)) =
  let e := fullEvent event (set_eventCounter (eventCounter s + 1) s) in
  if cfg_enableDebugLogging (config s) || bool_decide (ev_level e ≠ EventLevel.DEBUG)
  then [ConsoleCall (console_method (ev_level e)) e] else [].
Proof. rewrite (added_ext _ _ _ (logEvent_trace event s)). apply console_calls_actions. Qed.

(** The console line of an event literal above DEBUG. *)
Lemma console_calls_literal phase type name level description data duration s :
  level ≠ EventLevel.DEBUG →
  console_calls
    (logEvent_actions (event_literal phase type name level description data duration) s) =
  [ConsoleCall (console_method level)
     (fullEvent (event_literal phase type name level description data duration)
        (set_eventCounter (eventCounter s + 1) s))].
Proof.
  intros Hl. rewrite console_calls_actions. cbn zeta.
  change (ev_level (fullEvent (event_literal phase type name level description data duration) _))
    with level.
  by rewrite (bool_decide_eq_true_2 _ Hl), orb_true_r.
Qed.

(** X6.  One [logEvent] prints at most one console line, after the
    listeners were called: none for a DEBUG event unless
    [enableDebugLogging] is set, one otherwise, on the console method of
    the event's level. *)
Theorem one_console_line_per_event event s :
  let e := fullEvent event (set_eventCounter (eventCounter s + 1) s) in
  console_calls (added s (logEvent event s)) =
    (if cfg_enableDebugLogging (config s) || bool_decide (ev_level e ≠ EventLevel.DEBUG)
     then [ConsoleCall (console_method (ev_level e)) e] else []) ∧
  (∀ l e', ListenerCall l e' ∈ added s (logEvent event s) → e' = e) ∧
  (console_method (ev_level e) = console_error ↔
   ev_level e = EventLevel.ERROR ∨ ev_level e = EventLevel.CRITICAL) ∧
  (console_method (ev_level e) = console_debug ↔ ev_level e = EventLevel.DEBUG).
Proof.
  intros e. split; [apply console_calls_logEvent|].
  rewrite (added_ext _ _ _ (logEvent_trace event s)). unfold logEvent_actions.
  fold e. split; [|split].
  - intros l e' Hin. apply elem_of_app in Hin as [Hin|Hin].
    + assert (Hall : Forall (fun a => ∀ l e', a = ListenerCall l e' → e' = e)
                       (notify_loop (listener_calls e (listeners s)) []).1).
      { eapply Forall_prefix; [apply notify_loop_prefix|].
        unfold listener_calls. rewrite <- list_fmap_compose. apply Forall_fmap, Forall_forall.
        intros l0 _ l1 e1 E. cbn in E. congruence. }
      rewrite Forall_forall in Hall. by eapply Hall.
    + destruct (_ || _); [|by apply elem_of_nil in Hin].
      by apply list_elem_of_singleton in Hin.
  - destruct (ev_level e); cbn; split; intros; try done; try intuition discriminate; eauto.
  - destruct (ev_level e); cbn; split; intros; try done.
Qed.

(** *** Event ids *)

Lemma to_int_not_nil z :
  Z.to_int z ≠ Decimal.Pos Decimal.Nil ∧ Z.to_int z ≠ Decimal.Neg Decimal.Nil.
Proof.
  split; intros E; pose proof (DecimalZ.of_to z) as H; rewrite E in H; cbn in H;
    subst z; discriminate.
Qed.

Lemma show_Z_inj a b : show_Z a = show_Z b → a = b.
Proof.
  unfold show_Z. intros E. apply DecimalZ.to_int_inj.
  destruct (to_int_not_nil a), (to_int_not_nil b).
  assert (Some (Z.to_int a) = Some (Z.to_int b)) as [= ->]; [|done].
  rewrite <- (NilZero.isi (Z.to_int a)), <- (NilZero.isi (Z.to_int b)) by done. by rewrite E.
Qed.

Lemma append_inj (prefix a b : string) : prefix +:+ a = prefix +:+ b → a = b.
Proof. induction prefix as [|x prefix IH]; [done|]. cbn. intros [= E]. by apply IH. Qed.

Lemma emitted_ids events s :
  ev_id <$> emitted events s =
  (fun i => "event_" +:+ show_Z (eventCounter s + 1 + Z.of_nat i)) <$> seq 0 (List.length events).
Proof.
  revert s. induction events as [|event events IH]; intros s; [done|].
  cbn [emitted List.length seq fmap list_fmap]. f_equal.
  - cbn. by rewrite Z.add_0_r.
  - fold (fmap (M := list) ev_id). rewrite IH, logEvent_eventCounter.
    fold (fmap (M := list) (fun i => "event_" +:+ show_Z (eventCounter s + 1 + Z.of_nat i))).
    rewrite <- (fmap_S_seq 0), <- list_fmap_compose. apply list_fmap_ext. intros _ i _. cbn.
    do 2 f_equal. lia.
Qed.

Lemma keep_last_sublist {A} n (l : list A) : keep_last n l `sublist_of` l.
Proof. apply sublist_drop. Qed.

(** X7.  The ids of the events are [event_1], [event_2], ... in the
    order of emission: the events of one engine have pairwise distinct
    ids, in the history too. *)
Theorem event_ids_are_distinct events s :
  cfg_saveHistory (config s) = true →
  0 ≤ cfg_maxHistorySize (config s) →
  eventHistory s = [] →
  ev_id <$> emitted events s =
    (fun i => "event_" +:+ show_Z (eventCounter s + 1 + Z.of_nat i)) <$>
      seq 0 (List.length events) ∧
  eventCounter (emit_all events s) = eventCounter s + Z.of_nat (List.length events) ∧
  NoDup (ev_id <$> emitted events s) ∧
  NoDup (ev_id <$> eventHistory (emit_all events s)).
Proof.
  intros Hsave Hmax Hempty.
  assert (Hnd : NoDup (ev_id <$> emitted events s)).
  { rewrite emitted_ids. apply NoDup_fmap_2; [|apply NoDup_seq].
    intros i j E. apply append_inj, show_Z_inj in E. lia. }
  split; [apply emitted_ids|]. split.
  { clear. revert s. induction events as [|event events IH]; intros s; [cbn; lia|].
    rewrite emit_all_cons, IH, logEvent_eventCounter. cbn [List.length]. lia. }
  split; [exact Hnd|].
  rewrite emit_all_history by (rewrite ?Hempty; cbn; done || lia).
  rewrite Hempty. cbn [app].
  eapply sublist_NoDup; [exact Hnd|]. apply fmap_sublist, keep_last_sublist.
Qed.

(** *** A listener that throws *)

(** X8.  A listener that throws synchronously ends the round: the
    listeners registered after it do not get the event.  [logEvent]
    itself goes on: the event is in the history, the console line is
    printed, and the rejected promise of [notifyListeners] is dropped. *)
Theorem a_throwing_listener_ends_the_round event before (l : LifecycleListener) after error s :
  let e := fullEvent event (set_eventCounter (eventCounter s + 1) s) in
  listeners s = before ++ l :: after →
  Forall (fun l0 => throws_sync (l_call l0 e) = false) before →
  l_call l e = ThrowsSync error →
  added s (logEvent event s) =
    ((fun l0 => ListenerCall (l_ref l0) e) <$> before ++ [l]) ++
    console_calls (added s (logEvent event s)) ∧
  last (unawaited (logEvent event s)) = Some (Settled (Throw error)) ∧
  eventHistory (logEvent event s) = history_push (config s) e (eventHistory s).
Proof.
  intros e Hls Hbefore Hthrow.
  assert (Hloop : ∀ promises,
            notify_loop (listener_calls e (before ++ l :: after)) promises =
            (((fun l0 => ListenerCall (l_ref l0) e) <$> before ++ [l]), Settled (Throw error))).
  { clear Hls. induction Hbefore as [|l0 before H0 _ IH]; intros promises.
    - cbn. by rewrite Hthrow.
    - cbn [app listener_calls fmap list_fmap notify_loop].
      destruct (l_call l0 e) as [|p|?]; [| |done].
      + fold (fmap (M := list) (fun l1 => (ListenerCall (l_ref l1) e, l_call l1 e))).
        fold (listener_calls e (before ++ l :: after)). rewrite IH. reflexivity.
      + fold (fmap (M := list) (fun l1 => (ListenerCall (l_ref l1) e, l_call l1 e))).
        fold (listener_calls e (before ++ l :: after)). rewrite IH. reflexivity. }
  split; [|split].
  - rewrite (added_ext _ _ _ (logEvent_trace event s)). unfold logEvent_actions. fold e.
    rewrite Hls, Hloop. cbn [fst]. f_equal.
    rewrite console_calls_app.
    rewrite (console_calls_none ((fun l0 => ListenerCall (l_ref l0) e) <$> before ++ [l]))
      by (apply Forall_fmap, Forall_forall; by intros).
    by destruct (_ || _).
  - rewrite logEvent_unawaited. fold e. rewrite Hls, Hloop. apply last_snoc.
  - apply logEvent_eventHistory.
Qed.

(** *** The constructor *)

Lemma initializePhaseStats_lookup s p :
  st_phaseStats (stats (initializePhaseStats s)) !! p = Some (fresh_phase_statistics p).
Proof.
  unfold initializePhaseStats, LifecyclePhase.values. cbn.
  destruct p; repeat first [rewrite lookup_insert_eq; reflexivity | rewrite lookup_insert_ne by done].
Qed.

(** X9.  [new LifecycleEngine(config)]: the engine is uninitialized,
    has no context, no module, no listener and no observer; every phase
    has its statistics at zero; the configuration is the defaults with
    the members of [config] over them; one event, [engine_created] with
    id [event_1], was logged to the console and, when the history is
    kept, to the history.  [initialize()] on that engine goes through
    and leaves it stopped. *)
Theorem a_new_engine cfg (w : World) :
  let s := new_LifecycleEngine cfg w in
  state s = LifecycleState.UNINITIALIZED ∧ currentPhase s = None ∧ context s = None ∧
  modules s = ∅ ∧ listeners s = [] ∧ observers s = [] ∧
  config s = spread_config cfg ∧
  (cfg = None → config s = default_config) ∧
  stats_complete s ∧
  (∀ p, st_phaseStats (stats s) !! p = Some (fresh_phase_statistics p)) ∧
  eventCounter s = 1 ∧
  (∃ e, trace s = [ConsoleCall console_info e] ∧
        ev_id e = "event_1" ∧ ev_type e = "engine_created" ∧
        ev_phase e = LifecyclePhase.INITIALIZATION ∧ ev_level e = EventLevel.INFO ∧
        eventHistory s = history_push (spread_config cfg) e []) ∧
  (initialize s).1 = Normal tt ∧
  state (initialize s).2 = LifecycleState.STOPPED.
Proof.
  intros s.
  assert (Hstats : ∀ p, st_phaseStats (stats s) !! p = Some (fresh_phase_statistics p)).
  { intros p. unfold s, new_LifecycleEngine. rewrite logEvent_stats.
    apply initializePhaseStats_lookup. }
  repeat (split; [reflexivity|]).
  split; [by intros ->|]. split; [intros p; by rewrite Hstats|]. split; [exact Hstats|].
  split; [reflexivity|]. split.
  { eexists. split.
    { unfold s, new_LifecycleEngine. rewrite logEvent_trace. unfold logEvent_actions.
      rewrite (bool_decide_eq_true_2 (_ ≠ EventLevel.DEBUG)) by done.
      rewrite orb_true_r. reflexivity. }
    repeat (split; [reflexivity|]).
    unfold s, new_LifecycleEngine. rewrite logEvent_eventHistory. reflexivity. }
  assert (Hinit : (initialize s).1 = Normal tt) by reflexivity.
  split; [exact Hinit|].
  pose proof (initialize_try_state s) as Hst. rewrite <- (initialize_new s eq_refl) in Hst.
  by rewrite Hinit in Hst.
Qed.

(** *** stop, pause, resume *)

Lemma start_try_traced s :
  traced (run_action (fun _ => True) (registered_refs (modules s) start_phases) []) s
    (start_try s).2.
Proof.
  rewrite start_try_eq. cbn zeta.
  set (P := run_action (fun _ => True) (registered_refs (modules s) start_phases) []).
  set (s1 := logEvent event_lifecycle_start (set_state LifecycleState.RUNNING s)).
  assert (F1 : frame P s s1).
  { etransitivity; [|apply logEvent_frame]. by apply frame_silent. }
  assert (F2 : frame P s1 (for_of start_phases executePhase s1).2).
  { apply phases_frame_at. intros p m Hp Hm. unfold registered_refs.
    apply list_elem_of_bind. exists p. split; [by apply all_refs|done]. }
  destruct (for_of start_phases executePhase s1) as [r s2]. cbn [fst snd] in *.
  etransitivity; [apply frame_traced, F1|]. etransitivity; [apply frame_traced, F2|].
  destruct r as [[]|error]; cbn [snd].
  - etransitivity; [|apply frame_traced, logEvent_frame]. by apply traced_silent.
  - unfold handleLifecycleError. etransitivity; [|apply frame_traced, logEvent_frame].
    by apply traced_silent.
Qed.

Lemma stop_state s : state (stop s) = LifecycleState.STOPPED.
Proof.
  unfold stop. case_decide as E; [by rewrite logEvent_state|].
  by destruct (decide (state s = LifecycleState.STOPPED)).
Qed.

(** X10.  [stop()] leaves the engine stopped from any state, is
    idempotent, and logs one INFO event when it acts.  A stopped engine
    is started without [initialize()], also when it was never
    initialized or is in the error state: [start()] then executes
    modules of the five phases of a run only, and calls no hook of the
    observers but [onError]. *)
Theorem stop_lets_start_skip_initialize s :
  state (stop s) = LifecycleState.STOPPED ∧
  stop (stop s) = stop s ∧
  (state s = LifecycleState.STOPPED → stop s = s) ∧
  (state s ≠ LifecycleState.STOPPED →
   ∃ e, console_calls (added s (stop s)) = [ConsoleCall console_info e] ∧
        ev_type e = "lifecycle_stopped" ∧ ev_level e = EventLevel.INFO) ∧
  start (stop s) = start_try (stop s) ∧
  Forall (run_action (fun _ => True) (registered_refs (modules s) start_phases) [])
    (added (stop s) (start (stop s)).2) ∧
  hook_calls (added (stop s) (start (stop s)).2) = [].
Proof.
  pose proof (stop_state s) as Hst.
  assert (Hstart : start (stop s) = start_try (stop s)) by (apply start_ready; by left).
  assert (Hmods : modules (stop s) = modules s).
  { unfold stop. case_decide; [by rewrite logEvent_modules|done]. }
  pose proof (start_try_traced (stop s)) as F. rewrite Hmods in F.
  apply traced_added in F as [_ F]. rewrite <- Hstart in F.
  split; [exact Hst|]. split.
  { unfold stop at 1. by rewrite decide_False by (by intros ?). }
  split.
  { intros E. unfold stop. by rewrite decide_False by (by intros ?). }
  split.
  { intros E. unfold stop. rewrite decide_True by done. eexists.
    rewrite (added_same s (set_state LifecycleState.STOPPED s)) by reflexivity.
    rewrite console_calls_logEvent. cbn zeta. split.
    - cbn [ev_level fullEvent pe_level event_lifecycle_stopped event_literal default
           from_option id].
      rewrite bool_decide_eq_true_2 by done. rewrite orb_true_r. reflexivity.
    - split; reflexivity. }
  split; [exact Hstart|]. split; [exact F|].
  apply run_action_hook_calls in F. destruct (hook_calls _) as [|call ?]; [done|].
  apply Forall_cons in F as [F _]. by apply elem_of_nil in F.
Qed.

Lemma logEvent_frame_any (P : Action → Prop) event s :
  (∀ l e, P (ListenerCall l e)) → (∀ m e, P (ConsoleCall m e)) →
  frame P s (logEvent event s).
Proof.
  intros Hl Hc. split; [reflexivity..|apply stats_rel_refl|].
  eexists. split; [apply logEvent_trace|]. unfold logEvent_actions. apply Forall_app. split.
  - eapply Forall_prefix; [apply notify_loop_prefix|].
    unfold listener_calls. rewrite <- list_fmap_compose. apply Forall_fmap, Forall_forall.
    intros l _. apply Hl.
  - destruct (_ || _); repeat constructor. apply Hc.
Qed.

Lemma set_state_frame P v s : frame P s (set_state v s).
Proof. by apply frame_silent. Qed.

Lemma set_state_trace v s : trace (set_state v s) = trace s.
Proof. reflexivity. Qed.

(** X11.  [pause()] acts on a running engine only and [resume()] on a
    paused one; each sets the state and logs one INFO event of the
    current phase, calls no module, and leaves the registrations and
    the statistics alone.  A paused engine accepts [start()]. *)
Theorem pause_and_resume s :
  state s = LifecycleState.RUNNING →
  state (pause s) = LifecycleState.PAUSED ∧
  state (resume (pause s)) = LifecycleState.RUNNING ∧
  pause (pause s) = pause s ∧
  resume s = s ∧
  (∃ e1 e2,
     console_calls (added s (resume (pause s))) =
       [ConsoleCall console_info e1; ConsoleCall console_info e2] ∧
     ev_type e1 = "lifecycle_paused" ∧ ev_type e2 = "lifecycle_resumed" ∧
     ev_phase e1 = currentPhase_or_INITIALIZATION s ∧
     ev_phase e2 = currentPhase_or_INITIALIZATION s) ∧
  frame (fun a => ∀ m method c r, a ≠ ModuleCall m method c r) s (resume (pause s)) ∧
  stats (resume (pause s)) = stats s ∧
  start (pause s) = start_try (pause s).
Proof.
  intros Hrun.
  set (s1 := set_state LifecycleState.PAUSED s).
  set (p := logEvent (event_lifecycle_paused (currentPhase_or_INITIALIZATION s)) s1).
  set (s2 := set_state LifecycleState.RUNNING p).
  set (r := logEvent (event_lifecycle_resumed (currentPhase_or_INITIALIZATION s)) s2).
  assert (Hp : pause s = p) by (unfold pause; by rewrite decide_True by done).
  assert (Hr : resume p = r) by (unfold resume; by rewrite decide_True by done).
  rewrite !Hp, !Hr.
  split; [reflexivity|]. split; [reflexivity|].
  split; [unfold pause; by rewrite decide_False|].
  split; [unfold resume; rewrite decide_False; [done|by rewrite Hrun]|].
  assert (Ht : trace r = trace s ++
            logEvent_actions (event_lifecycle_paused (currentPhase_or_INITIALIZATION s)) s1 ++
            logEvent_actions (event_lifecycle_resumed (currentPhase_or_INITIALIZATION s)) s2).
  { unfold r. rewrite logEvent_trace. unfold s2. rewrite set_state_trace.
    unfold p. rewrite logEvent_trace. unfold s1. rewrite set_state_trace.
    by rewrite <- app_assoc. }
  split.
  { eexists _, _. rewrite (added_ext _ _ _ Ht), console_calls_app.
    unfold event_lifecycle_paused, event_lifecycle_resumed.
    rewrite !console_calls_literal by done. split; [reflexivity|]. repeat split. }
  split.
  { etransitivity; [|etransitivity; [|by apply logEvent_frame_any]].
    - etransitivity; [|by apply logEvent_frame_any]. apply set_state_frame.
    - apply set_state_frame. }
  split; [unfold r, s2, p, s1; by rewrite !logEvent_stats|].
  apply start_ready. by right.
Qed.

(** *** Statistics *)

Lemma call_execute_stats module s : stats (call_execute module s).2 = stats s.
Proof. by rewrite call_execute_eq. Qed.

Lemma attempt_stats module retries s : stats (attempt module retries s).2 = stats s.
Proof.
  rewrite attempt_eq. cbn zeta.
  pose proof (call_execute_stats module (logEvent (event_module_execute_start module) s)) as E.
  rewrite logEvent_stats in E.
  destruct (call_execute module (logEvent (event_module_execute_start module) s))
    as [[[]|error] s1]; cbn [fst snd] in *.
  - by rewrite logEvent_stats.
  - case_decide; cbn [snd]; [by rewrite logEvent_stats|].
    unfold wait. cbn [stats emit set_world]. by rewrite logEvent_stats.
Qed.

Lemma executeModule_while_stats module maxRetries retries s :
  stats (executeModule_while module maxRetries retries s).2 = stats s.
Proof.
  remember (Z.to_nat (maxRetries + 1 - retries)) as n eqn:Hn.
  revert retries Hn s. induction n as [n IH] using lt_wf_ind. intros retries Hn s.
  rewrite executeModule_while_eq.
  destruct (retries <=? maxRetries) eqn:Hle; [|done].
  pose proof (attempt_stats module retries s) as E.
  destruct (attempt module retries s) as [[[]|e] s1]; cbn [snd] in *; try done.
  rewrite (IH (Z.to_nat (maxRetries + 1 - (retries + 1)))) by lia. exact E.
Qed.

Lemma executeModules_stats (ms : list (LifecycleModule World)) s :
  stats (for_of ms executeModule s).2 = stats s.
Proof.
  revert s. induction ms as [|m ms IH]; intros s; [done|].
  rewrite for_of_cons.
  pose proof (executeModule_while_stats m (cfg_maxRetries (config s)) 0 s) as E.
  fold (executeModule m s) in E.
  destruct (executeModule m s) as [[[]|e] s1]; cbn [fst snd] in *; [|done].
  by rewrite IH.
Qed.

Lemma notifyObserversError_stats error phase s :
  stats (not_awaited (notifyObserversError error phase) s) = stats s.
Proof. reflexivity. Qed.

Lemma handlePhaseError_stats error phase s : stats (handlePhaseError error phase s) = stats s.
Proof.
  unfold handlePhaseError. cbv zeta.
  by rewrite notifyObserversError_stats, logEvent_stats.
Qed.

Lemma getContext_stats s : stats (getContext s).2 = stats s.
Proof. unfold getContext. by destruct (context s). Qed.

Lemma executePhase_try_stats phase s : stats (executePhase_try phase s).2 = stats s.
Proof.
  rewrite executePhase_try_eq. cbn zeta. rewrite executePhaseModules_for_of.
  pose proof (executeModules_stats
                (default [] (modules (logEvent (event_phase_start phase) s) !! phase))
                (getContext (logEvent (event_phase_start phase) s)).2) as E.
  rewrite getContext_stats, logEvent_stats in E.
  destruct (for_of _ executeModule _) as [[[]|error] s1]; cbn [fst snd] in *.
  - by rewrite logEvent_stats.
  - destruct (negb _); cbn [snd]; by rewrite handlePhaseError_stats.
Qed.

Lemma enter_phase_stats phase s : stats (enter_phase phase s) = stats s.
Proof. unfold enter_phase. cbn. by rewrite getContext_stats. Qed.

(** The statistics of a phase once one more execution is counted. *)
Lemma update_phase_statistics_eq phase startTime result old s :
  st_phaseStats (stats s) !! phase = Some old →
  update_phase_statistics phase startTime result s =
  (Normal tt,
   set_stats
     (stats_with_phaseStats
        (<[phase := counted old (now (world s) - startTime) (now (world s))
                      (bool_decide (result = ExecutionResult.SUCCESS))]>
           (st_phaseStats (stats s))) (stats s)) s).
Proof.
  intros E. unfold update_phase_statistics. rewrite E. unfold counted.
  repeat f_equal; by case_bool_decide; case_decide.
Qed.

(** X12.  [executePhase] counts the phase once, in its [finally]
    block: one more execution, as a success when the loop over the
    modules of the phase went through and as a failure when it threw
    (also under [continueOnError], where [executePhase] itself does not
    throw); the duration is the time from the entry of the phase to the
    [finally] block.  The statistics of the other phases and the
    counters of whole runs are left alone. *)
Theorem a_phase_is_counted_once phase old s :
  st_phaseStats (stats s) !! phase = Some old →
  let final := (executePhase phase s).2 in
  let went_through :=
    is_normal (executePhaseModules phase
                 (logEvent (event_phase_start phase) (enter_phase phase s))).1 in
  st_phaseStats (stats final) !! phase =
    Some (counted old (now (world final) - now (world s)) (now (world final)) went_through) ∧
  (∀ p, p ≠ phase → st_phaseStats (stats final) !! p = st_phaseStats (stats s) !! p) ∧
  stats_with_phaseStats (st_phaseStats (stats s)) (stats final) = stats s ∧
  ((executePhase phase s).1 = Normal tt ↔
   went_through = true ∨ cfg_continueOnError (config s) = true).
Proof.
  intros Hold final went_through. unfold final. rewrite executePhase_eq. cbn zeta.
  set (s1 := enter_phase phase s) in *.
  pose proof (executePhase_try_stats phase s1) as Est.
  pose proof (enter_phase_stats phase s) as Est1. fold s1 in Est1.
  assert (Hres : (executePhase_try phase s1).1 =
                 match (executePhaseModules phase (logEvent (event_phase_start phase) s1)).1 with
                 | Normal _ => Normal ExecutionResult.SUCCESS
                 | Throw error =>
                     if negb (cfg_continueOnError (config s))
                     then Throw error else Normal ExecutionResult.FAILURE
                 end).
  { rewrite executePhase_try_eq. cbn zeta.
    assert (Hc : config (executePhaseModules phase (logEvent (event_phase_start phase) s1)).2 =
                 config s).
    { pose proof (executePhaseModules_frame_at phase (logEvent (event_phase_start phase) s1)) as F.
      rewrite (frame_config _ _ _ F), logEvent_config.
      apply (enter_phase_frame (fun _ => True)). }
    rewrite Hc.
    destruct (executePhaseModules phase (logEvent (event_phase_start phase) s1)).1; [done|].
    by destruct (negb _). }
  fold went_through in Hres |- *.
  assert (Hresult : bool_decide (result_of (executePhase_try phase s1).1 = ExecutionResult.SUCCESS)
                    = went_through).
  { rewrite Hres. unfold went_through.
    destruct (executePhaseModules phase (logEvent (event_phase_start phase) s1)).1;
      [|destruct (negb _)]; cbn;
      first [by rewrite bool_decide_eq_true_2 | by rewrite bool_decide_eq_false_2]. }
  assert (Hnormal : is_normal (executePhase_try phase s1).1 =
                    went_through || cfg_continueOnError (config s)).
  { rewrite Hres. unfold went_through.
    destruct (executePhaseModules phase (logEvent (event_phase_start phase) s1)).1; [done|].
    by destruct (cfg_continueOnError (config s)). }
  revert Est Hresult Hnormal. generalize (executePhase_try phase s1). intros [r s2] Est Hresult Hnormal.
  cbn [fst snd] in *.
  rewrite (update_phase_statistics_eq phase (now (world s1)) (result_of r) old s2)
    by (by rewrite Est, Est1).
  rewrite Hresult. unfold s1 at 1 2. rewrite enter_phase_world.
  cbn [fst snd stats set_stats world st_phaseStats stats_with_phaseStats].
  rewrite Est, Est1.
  split; [by rewrite lookup_insert_eq|].
  split; [intros p Hp; by rewrite lookup_insert_ne|].
  split; [by destruct (stats s)|].
  destruct r as [res|e]; cbn in Hnormal |- *.
  - split; [intros _|done]. by apply orb_true_iff.
  - split; [done|]. intros H. apply orb_true_iff in H. congruence.
Qed.

(** *** The statistics of a run *)

Lemma executePhase_totals phase s :
  stats_with_phaseStats (st_phaseStats (stats s)) (stats (executePhase phase s).2) = stats s.
Proof.
  rewrite executePhase_eq. cbn zeta.
  pose proof (executePhase_try_stats phase (enter_phase phase s)) as E.
  rewrite enter_phase_stats in E. revert E.
  generalize (now (world (enter_phase phase s))).
  generalize (executePhase_try phase (enter_phase phase s)). intros [r s2] t E. cbn [fst snd] in *.
  unfold update_phase_statistics.
  destruct (st_phaseStats (stats s2) !! phase); cbn [fst snd stats set_stats]; rewrite E;
    by destruct (stats s).
Qed.

Lemma stats_with_phaseStats_twice m m' st :
  stats_with_phaseStats m (stats_with_phaseStats m' st) = stats_with_phaseStats m st.
Proof. reflexivity. Qed.

Lemma phases_totals phases s :
  stats_with_phaseStats (st_phaseStats (stats s)) (stats (for_of phases executePhase s).2) =
  stats s.
Proof.
  revert s. induction phases as [|p phases IH]; intros s.
  { change (stats (for_of [] executePhase s).2) with (stats s). by destruct (stats s). }
  rewrite for_of_cons. pose proof (executePhase_totals p s) as E.
  destruct (executePhase p s) as [[[]|e] s1]; cbn [fst snd] in *; [|exact E].
  rewrite <- (stats_with_phaseStats_twice (st_phaseStats (stats s)) (st_phaseStats (stats s1))
                (stats (for_of phases executePhase s1).2)).
  by rewrite (IH s1).
Qed.

Lemma world_logEvent_set_state event v (st : LifecycleStats) s :
  world (logEvent event (set_state v (set_stats st s))) = world s.
Proof. by rewrite logEvent_world. Qed.

(** X13.  A [start()] that passes its guard counts as one run: the
    total goes up by one, and so does the count of successful runs when
    [start()] returns, with the duration of the run added to the total
    duration and compared with the shortest and the longest run so far,
    or the count of failed runs when [start()] throws, with the
    durations left alone.  The engine ends stopped in the first case and
    in the error state in the second, and the last console line is the
    event of the outcome. *)
Theorem start_counts_the_run s :
  state s = LifecycleState.STOPPED ∨ state s = LifecycleState.PAUSED →
  let final := (start s).2 in
  let duration := now (world final) - now (world s) in
  st_totalExecutions (stats final) = st_totalExecutions (stats s) + 1 ∧
  match (start s).1 with
  | Normal _ =>
      state final = LifecycleState.STOPPED ∧
      st_successfulExecutions (stats final) = st_successfulExecutions (stats s) + 1 ∧
      st_failedExecutions (stats final) = st_failedExecutions (stats s) ∧
      st_totalDuration (stats final) = st_totalDuration (stats s) + duration ∧
      st_maxDuration (stats final) = Z.max (st_maxDuration (stats s)) duration ∧
      st_minDuration (stats final) =
        Some (match st_minDuration (stats s) with
              | None => duration
              | Some shortest => Z.min shortest duration
              end) ∧
      ∃ e, last (trace final) = Some (ConsoleCall console_info e) ∧
           ev_type e = "lifecycle_complete" ∧ ev_duration e = Some duration
  | Throw error =>
      state final = LifecycleState.ERROR ∧
      st_successfulExecutions (stats final) = st_successfulExecutions (stats s) ∧
      st_failedExecutions (stats final) = st_failedExecutions (stats s) + 1 ∧
      st_totalDuration (stats final) = st_totalDuration (stats s) ∧
      ∃ e, last (trace final) = Some (ConsoleCall console_error e) ∧
           ev_type e = "lifecycle_error" ∧ ev_level e = EventLevel.CRITICAL ∧
           ev_description e = "生命周期执行失败: " +:+ message (as_Error error)
  end.
Proof.
  intros Hready final duration. unfold duration, final. clear final duration.
  rewrite (start_ready s Hready), start_try_eq. cbn zeta.
  set (s1 := logEvent event_lifecycle_start (set_state LifecycleState.RUNNING s)).
  assert (Hw1 : world s1 = world s) by (unfold s1; by rewrite logEvent_world).
  pose proof (phases_totals start_phases s1) as Htot.
  assert (Hs1 : stats s1 = stats s) by (unfold s1; by rewrite logEvent_stats).
  rewrite Hs1 in Htot. rewrite Hw1. clearbody s1.
  destruct (for_of start_phases executePhase s1) as [[[]|error] s2]; cbn [fst snd] in *.
  - unfold record_successful_run. rewrite world_logEvent_set_state, logEvent_state, logEvent_stats.
    cbn [state stats set_state set_stats st_totalExecutions st_successfulExecutions
         st_failedExecutions st_totalDuration st_maxDuration st_minDuration].
    destruct (stats s2), (stats s). cbn in Htot. injection Htot as -> -> -> -> -> -> ->.
    cbn [st_totalExecutions st_successfulExecutions st_failedExecutions st_totalDuration
         st_maxDuration st_minDuration].
    do 7 (split; [reflexivity|]).
    eexists. rewrite logEvent_trace, last_app.
    unfold event_lifecycle_complete. rewrite logEvent_actions_last by done.
    split; [reflexivity|]. split; reflexivity.
  - unfold handleLifecycleError, record_failed_run. cbv zeta.
    rewrite logEvent_state, logEvent_stats.
    cbn [state stats set_state set_stats st_totalExecutions st_successfulExecutions
         st_failedExecutions st_totalDuration].
    destruct (stats s2), (stats s). cbn in Htot. injection Htot as -> -> -> -> -> -> ->.
    cbn [st_totalExecutions st_successfulExecutions st_failedExecutions st_totalDuration
         st_maxDuration st_minDuration].
    do 5 (split; [reflexivity|]).
    eexists. rewrite logEvent_trace, last_app.
    unfold event_lifecycle_error. rewrite logEvent_actions_last by done.
    split; [reflexivity|]. repeat split.
Qed.

(** *** Timeouts *)




(** *** The order of the modules *)







(** *** What [start()] leaves alone *)

(** X16.  [initialize()] and [start()] do not register or remove
    anything and do not touch the configuration; the calls they make
    are: [execute] on registered modules, the listeners, the console,
    timers, [onError], and the two hooks of [initialize()]. *)
Theorem start_leaves_the_registrations_alone s :
  config (start s).2 = config s ∧ modules (start s).2 = modules s ∧
  listeners (start s).2 = listeners s ∧ observers (start s).2 = observers s ∧
  config (initialize s).2 = config s ∧ modules (initialize s).2 = modules s ∧
  listeners (initialize s).2 = listeners s ∧ observers (initialize s).2 = observers s ∧
  Forall (run_action (fun _ => True) (registered_refs (modules s) LifecyclePhase.values)
            ["onInitializationStart"; "onInitializationComplete"])
    (added s (start s).2) ∧
  (state s ≠ LifecycleState.UNINITIALIZED →
   Forall (run_action (fun _ => True) (registered_refs (modules s) start_phases) [])
     (added s (start s).2)).
Proof.
  destruct (start_hoare (modules s) _ ["onInitializationStart"; "onInitializationComplete"]
              (registered_refs_all (modules s)) ltac:(set_solver) ltac:(set_solver) s eq_refl)
    as [_ F].
  destruct (initialize_hoare (modules s) _ ["onInitializationStart"; "onInitializationComplete"]
              (registered_refs_all (modules s)) ltac:(set_solver) ltac:(set_solver) s eq_refl)
    as [_ G].
  pose proof (traced_added _ _ _ F) as [_ Hall].
  destruct F as [? ? ? ? _], G as [? ? ? ? _ _].
  repeat (split; [done|]).
  intros Hst.
  destruct (decide (state s = LifecycleState.STOPPED ∨ state s = LifecycleState.PAUSED))
    as [Hready|Hnot].
  - rewrite (start_ready s Hready). by apply traced_added, start_try_traced.
  - rewrite start_wrong_state by tauto. unfold added. cbn. by rewrite drop_all.
Qed.

(** *** initialize *)

Lemma initialize_try_eq s :
  initialize_try s =
  let s0 := set_state LifecycleState.PREPARING s in
  let s1 := logEvent event_initialization_start (set_context (Some (createContext s0)) s0) in
  let r1 := notifyObservers "onInitializationStart" s1 in
  match r1.1 with
  | Throw error => initialize_catch error r1.2
  | Normal _ =>
      let r2 := executePhaseModules LifecyclePhase.INITIALIZATION r1.2 in
      match r2.1 with
      | Throw error => initialize_catch error r2.2
      | Normal _ =>
          let r3 := notifyObservers "onInitializationComplete" r2.2 in
          match r3.1 with
          | Throw error => initialize_catch error r3.2
          | Normal _ =>
              (Normal tt,
               logEvent event_initialization_complete (set_state LifecycleState.STOPPED r3.2))
          end
      end
  end.
Proof.
  unfold initialize_try, initialize_catch, try_catch, bind, exec, throw. cbn zeta.
  destruct (notifyObservers "onInitializationStart" _) as [[[]|e1] t1]; cbn [fst snd]; [|done].
  destruct (executePhaseModules LifecyclePhase.INITIALIZATION t1) as [[[]|e2] t2];
    cbn [fst snd]; [|done].
  by destruct (notifyObservers "onInitializationComplete" t2) as [[[]|e3] t3].
Qed.

Lemma notifyObservers_ctx name s :
  ctx_inv (fun _ => True) s →
  ctx_inv (fun _ => True) (notifyObservers name s).2 ∧
  modules (notifyObservers name s).2 = modules s ∧
  config (notifyObservers name s).2 = config s.
Proof. intros Hc. by repeat split. Qed.

(** X17.  [initialize()] does not look at [continueOnError]: whenever
    it throws (a hook of the observers rejected or threw, or a module
    registered under INITIALIZATION failed for good) it leaves the
    engine in the error state, with the failure at the end of the
    context's error list and the ERROR event "phase_error" of
    INITIALIZATION the last event of the context.  [start()] on that
    new engine throws the same without entering any phase, and the
    engine then refuses [start()]. *)
Theorem a_failing_initialization_is_not_continued error s :
  state s = LifecycleState.UNINITIALIZED →
  (initialize s).1 = Throw error →
  ∃ c e,
    state (initialize s).2 = LifecycleState.ERROR ∧
    start s = initialize s ∧
    context (initialize s).2 = Some c ∧
    last (ctx_errors c) = Some (as_Error error) ∧
    last (ctx_events c) = Some e ∧
    ev_type e = "phase_error" ∧ ev_level e = EventLevel.ERROR ∧
    ev_phase e = LifecyclePhase.INITIALIZATION ∧
    start (initialize s).2 = (Throw cannot_start_error, (initialize s).2) ∧
    Forall (run_action (fun _ => True)
              (registered_refs (modules s) [LifecyclePhase.INITIALIZATION])
              ["onInitializationStart"; "onInitializationComplete"])
      (added s (initialize s).2).
Proof.
  intros Hst Hthrow.
  assert (Hthrows : ∃ s2, initialize s = initialize_catch error s2 ∧ ctx_inv (fun _ => True) s2).
  { revert Hthrow. rewrite (initialize_new s Hst), initialize_try_eq. cbn zeta.
    set (s0 := set_state LifecycleState.PREPARING s).
    set (s1 := logEvent event_initialization_start (set_context (Some (createContext s0)) s0)).
    assert (Hc1 : ctx_inv (fun _ => True) s1).
    { apply logEvent_ctx_inv; [apply stable_True|]. by eexists. }
    destruct (notifyObservers_ctx "onInitializationStart" s1 Hc1) as (Hc2&_&_).
    revert Hc2. generalize (notifyObservers "onInitializationStart" s1).
    intros [[[]|e1] t1] Hc2; cbn [fst snd] in *; [|intros [= ->]; by exists t1].
    destruct (executePhaseModules_maintains (fun _ => True)
                (m_ref <$> default [] (modules t1 !! LifecyclePhase.INITIALIZATION)) []
                stable_True LifecyclePhase.INITIALIZATION (modules t1)) with (s := t1)
      as [[Hc3 _] _].
    { intros m Hm. split; [apply respects_True|by apply all_refs]. }
    { done. }
    revert Hc3. generalize (executePhaseModules LifecyclePhase.INITIALIZATION t1).
    intros [[[]|e2] t2] Hc3; cbn [fst snd] in *; [|intros [= ->]; by exists t2].
    destruct (notifyObservers_ctx "onInitializationComplete" t2 Hc3) as (Hc4&_&_).
    revert Hc4. generalize (notifyObservers "onInitializationComplete" t2).
    intros [[[]|e3] t3] Hc4; cbn [fst snd] in *; [done|intros [= ->]; by exists t3]. }
  destruct Hthrows as (s2&Heq&(c&Hc&_)).
  destruct (handlePhaseError_context error LifecyclePhase.INITIALIZATION
              (set_state LifecycleState.ERROR s2) c Hc) as (e&Hctx&?&?&?).
  assert (Herr : state (initialize s).2 = LifecycleState.ERROR) by (by rewrite Heq).
  exists (ctx_push_event e (ctx_push_error (as_Error error) c)), e.
  split; [exact Herr|]. split.
  { rewrite (start_new s Hst), Heq. reflexivity. }
  split; [by rewrite Heq|]. split; [cbn; apply last_snoc|].
  split; [apply last_snoc|]. do 3 (split; [done|]).
  split; [apply start_wrong_state; by rewrite Herr|].
  destruct (initialize_framed (modules s)
              (registered_refs (modules s) [LifecyclePhase.INITIALIZATION])
              ["onInitializationStart"; "onInitializationComplete"]) with (s := s) as [_ F].
  - intros m Hm. unfold registered_refs. apply list_elem_of_bind.
    exists LifecyclePhase.INITIALIZATION. split; [by apply all_refs|apply list_elem_of_here].
  - clear; set_solver.
  - clear; set_solver.
  - done.
  - by apply frame_added in F as [_ F].
Qed.

(** *** The hooks of the observers *)


End More.

(** ** Runs of [start()] *)

Section Runs.

Context {World : Type} `{!Runtime World}.
Implicit Types (s : Machine World) (event : PartialEvent) (module : LifecycleModule World).

#[local] Existing Instance frame_preorder.
#[local] Existing Instance traced_preorder.

(** *** The first module of a phase that fails for good *)

Lemma for_of_first_throw {A} (before : list A) x after (body : A → Eng World unit) s e :
  (for_of before body s).1 = Normal tt →
  (body x (for_of before body s).2).1 = Throw e →
  for_of (before ++ x :: after) body s = (Throw e, (body x (for_of before body s).2).2).
Proof.
  intros Hb Hx. rewrite (for_of_app_normal _ _ _ _ Hb), for_of_cons. by rewrite Hx.
Qed.

Lemma executeModules_frame_in refs (ms : list (LifecycleModule World)) s :
  (∀ m, m ∈ ms → m_ref m ∈ refs) →
  ctx_inv (fun _ => True) s →
  ctx_inv (fun _ => True) (for_of ms executeModule s).2 ∧
  frame (run_action (fun _ => True) refs []) s (for_of ms executeModule s).2.
Proof.
  intros Hrefs Hc.
  assert (Hh : hoare (ctx_inv (fun _ => True)) (ctx_inv (fun _ => True))
                 (frame (run_action (fun _ => True) refs []))
                 (for_of ms executeModule)).
  { apply hoare_for_of; [apply _|]. intros m Hm.
    apply executeModule_maintains; [apply stable_True|apply respects_True|by apply Hrefs]. }
  exact (Hh s Hc).
Qed.

Lemma executeModule_frame_in refs module s :
  m_ref module ∈ refs →
  ctx_inv (fun _ => True) s →
  ctx_inv (fun _ => True) (executeModule module s).2 ∧
  frame (run_action (fun _ => True) refs []) s (executeModule module s).2.
Proof.
  intros Href Hc.
  exact (executeModule_maintains (fun _ => True) refs [] stable_True module
           (respects_True module) Href s Hc).
Qed.

Lemma handlePhaseError_unawaited error phase s :
  last (unawaited (handlePhaseError error phase s)) =
  Some (notify_loop (observer_error_calls (as_Error error) phase (observers s)) []).2.
Proof.
  unfold handlePhaseError, not_awaited, notifyObserversError.
  cbn [fst snd unawaited emit drop_promise]. rewrite logEvent_observers.
  cbn [observers on_context set_context]. apply last_snoc.
Qed.

Lemma modules_start_ctx phase s : ctx_inv (fun _ => True) (modules_start phase s).
Proof. apply logEvent_ctx_inv; [apply stable_True|apply enter_phase_ctx]. Qed.

(** The [try] block of a phase and its [catch], when a module of the
    phase fails for good. *)
Lemma executePhase_try_handles phase before module after error s :
  0 ≤ cfg_maxRetries (config s) →
  ctx_inv (fun _ => True) s →
  modules s !! phase = Some (before ++ module :: after) →
  (for_of before executeModule (logEvent (event_phase_start phase) s)).1 = Normal tt →
  (executeModule module
     (for_of before executeModule (logEvent (event_phase_start phase) s)).2).1 = Throw error →
  ∃ c e d,
    (executePhase_try phase s).1 =
      (if cfg_continueOnError (config s) then Normal ExecutionResult.FAILURE else Throw error) ∧
    raised_by [module] error (added s (executePhase_try phase s).2) ∧
    context (executePhase_try phase s).2 =
      Some (ctx_push_event e (ctx_push_error (as_Error error) c)) ∧
    ev_type e = "phase_error" ∧ ev_level e = EventLevel.ERROR ∧ ev_phase e = phase ∧
    added s (executePhase_try phase s).2 =
      d ++ (notify_loop (observer_error_calls (as_Error error) phase (observers s)) []).1 ∧
    last (unawaited (executePhase_try phase s).2) =
      Some (notify_loop (observer_error_calls (as_Error error) phase (observers s)) []).2 ∧
    frame (run_action (fun _ => True) (m_ref <$> before ++ [module]) [])
      s (executePhase_try phase s).2.
Proof.
  intros Hmax Hctx Hreg Hbefore Hthrow. rewrite executePhase_try_eq. cbn zeta.
  set (s1 := logEvent (event_phase_start phase) s) in *.
  set (P := run_action (fun _ => True) (m_ref <$> before ++ [module]) []).
  assert (F1 : frame P s s1) by apply logEvent_frame.
  assert (C1 : ctx_inv (fun _ => True) s1) by (by apply logEvent_ctx_inv; [apply stable_True|]).
  rewrite executePhaseModules_for_of, (getContext_exists _ s1 C1).
  change (modules s1) with (modules s). rewrite Hreg. cbn [default from_option id].
  rewrite (for_of_first_throw before module after executeModule s1 error Hbefore Hthrow).
  destruct (executeModules_frame_in (m_ref <$> before ++ [module]) before s1) as [CB FB];
    [intros m Hm; apply all_refs; set_solver|done|].
  assert (HcB : config (for_of before executeModule s1).2 = config s)
    by (by rewrite (frame_config _ _ _ FB)).
  revert Hthrow CB FB HcB. generalize (for_of before executeModule s1).2.
  intros sB Hthrow CB FB HcB.
  destruct (executeModule_frame_in (m_ref <$> before ++ [module]) module sB) as [C2 F2];
    [apply all_refs; set_solver|done|].
  pose proof (executeModule_origin module sB error ltac:(by rewrite HcB) Hthrow) as Ho.
  revert C2 F2 Ho. generalize (executeModule module sB).2. intros s2 C2 F2 Ho.
  cbn [fst snd].
  assert (F12 : frame P s1 s2) by (etransitivity; [exact FB|exact F2]).
  rewrite (frame_config _ _ _ F12). change (config s1) with (config s).
  assert (Hres : ∀ s3 : Machine World,
    (if negb (cfg_continueOnError (config s))
     then (Throw error, s3) else (Normal ExecutionResult.FAILURE, s3)) =
    (if cfg_continueOnError (config s) then Normal ExecutionResult.FAILURE else Throw error, s3))
    by (intros s3; by destruct (cfg_continueOnError (config s))).
  rewrite Hres. clear Hres. cbn [fst snd].
  assert (F3 : frame P s2 (handlePhaseError error phase s2)).
  { by apply (handlePhaseError_maintains (fun _ => True) _ _ stable_True error phase s2). }
  assert (Fall : frame P s (handlePhaseError error phase s2)).
  { etransitivity; [exact F1|]. etransitivity; [exact F12|exact F3]. }
  destruct C2 as (c&Ec&_).
  destruct (handlePhaseError_context error phase s2 c Ec) as (e&Ectx&?&?&?).
  pose proof (frame_observers _ _ _ F12) as Hobs. change (observers s1) with (observers s) in Hobs.
  destruct F1 as [_ _ _ _ _ (d1&E1&P1)].
  destruct FB as [_ _ _ _ _ (dB&EB&PB)].
  destruct F2 as [_ _ _ _ _ (d2&E2&P2)].
  exists c, e, (d1 ++ dB ++ d2 ++
    logEvent_actions (event_phase_error phase (as_Error error))
      (on_context (ctx_push_error (as_Error error)) s2)).
  split; [done|].
  assert (Hadd : added s (handlePhaseError error phase s2) =
    (d1 ++ dB ++ d2 ++
     logEvent_actions (event_phase_error phase (as_Error error))
       (on_context (ctx_push_error (as_Error error)) s2)) ++
    (notify_loop (observer_error_calls (as_Error error) phase (observers s)) []).1).
  { apply added_ext. rewrite handlePhaseError_trace, E2, EB, E1, Hobs.
    by rewrite <- !app_assoc. }
  split.
  { rewrite Hadd. rewrite (added_ext _ _ _ E2) in Ho.
    eapply raised_by_weaken; [done| |exact Ho]. intros a Ha. set_solver. }
  split; [exact Ectx|]. do 3 (split; [done|]). split; [exact Hadd|].
  split; [by rewrite handlePhaseError_unawaited, Hobs|exact Fall].
Qed.

Lemma modules_start_config phase s : config (modules_start phase s) = config s.
Proof.
  unfold modules_start. rewrite logEvent_config.
  apply (frame_config _ _ _ (enter_phase_frame (fun _ => True) phase s)).
Qed.


(** *** A run that a failure ends *)

Lemma executePhase_aborts phase before module after error s :
  cfg_continueOnError (config s) = false →
  0 ≤ cfg_maxRetries (config s) →
  is_Some (st_phaseStats (stats s) !! phase) →
  modules s !! phase = Some (before ++ module :: after) →
  fails_for_good phase before module error s →
  (executePhase phase s).1 = Throw error ∧
  raised_by [module] error (added s (executePhase phase s).2).
Proof.
  intros Hstrict Hmax Hst Hreg [Hbefore Hthrow]. unfold modules_start in Hbefore, Hthrow.
  destruct (enter_phase_frame (fun _ => True) phase s) as [Hc1 Hm1 _ _ _ _].
  destruct (executePhase_try_handles phase before module after error (enter_phase phase s))
    as (c&e&d&Hres&Horigin&_);
    [by rewrite Hc1|apply enter_phase_ctx|by rewrite Hm1|done|done|].
  rewrite Hc1, Hstrict in Hres.
  destruct (executePhase_result phase s Hst) as [Hr Ht]. rewrite Hres in Hr.
  split; [exact Hr|].
  unfold added in *. by rewrite Ht, <- (enter_phase_trace phase s).
Qed.

Lemma before_phase_VALIDATION :
  before_phase LifecyclePhase.VALIDATION start_phases = [LifecyclePhase.PREPARATION].
Proof. reflexivity. Qed.

Lemma phase_entry_eq phase s :
  phase_entry phase s = for_of (before_phase phase start_phases) executePhase (phases_start s).
Proof. reflexivity. Qed.

Lemma phases_start_eq s :
  phases_start s =
  logEvent event_lifecycle_start
    (set_state LifecycleState.RUNNING
       (if decide (state s = LifecycleState.UNINITIALIZED) then (initialize s).2 else s)).
Proof. reflexivity. Qed.

(** [start()] past its guards is its [try] block, run on the
    initialized engine. *)
Lemma start_of_ready s :
  ready s →
  start s =
    start_try (if decide (state s = LifecycleState.UNINITIALIZED) then (initialize s).2 else s).
Proof.
  intros [Hs|[Hs|[Hnew Hinit]]].
  - rewrite (start_ready s) by (by left). by rewrite decide_False by (by rewrite Hs).
  - rewrite (start_ready s) by (by right). by rewrite decide_False by (by rewrite Hs).
  - rewrite (start_new s Hnew), Hinit, (decide_True _ _ Hnew).
    pose proof (initialize_try_state s) as Hstate.
    rewrite <- (initialize_new s Hnew), Hinit in Hstate.
    by rewrite decide_False by (intros [? _]; done).
Qed.

Lemma start_try_fails before module after error s :
  cfg_continueOnError (config s) = false →
  0 ≤ cfg_maxRetries (config s) →
  stats_complete s →
  modules s !! LifecyclePhase.VALIDATION = Some (before ++ module :: after) →
  let s1 := logEvent event_lifecycle_start (set_state LifecycleState.RUNNING s) in
  (for_of [LifecyclePhase.PREPARATION] executePhase s1).1 = Normal tt →
  fails_for_good LifecyclePhase.VALIDATION before module error
    (for_of [LifecyclePhase.PREPARATION] executePhase s1).2 →
  (start_try s).1 = Throw error ∧
  state (start_try s).2 = LifecycleState.ERROR ∧
  st_failedExecutions (stats (start_try s).2) = st_failedExecutions (stats s) + 1 ∧
  (∃ e, last (trace (start_try s).2) = Some (ConsoleCall console_error e) ∧
        ev_level e = EventLevel.CRITICAL ∧ ev_type e = "lifecycle_error") ∧
  raised_by [module] error (added s (start_try s).2) ∧
  traced
    (run_action (fun _ => True)
       (registered_refs (modules s) [LifecyclePhase.PREPARATION; LifecyclePhase.VALIDATION])
       [])
    s (start_try s).2.
Proof.
  intros Hstrict Hmax Hst Hreg s1 Hprep Hfail. rewrite start_try_eq. cbn zeta. fold s1.
  set (refs := registered_refs (modules s)
                 [LifecyclePhase.PREPARATION; LifecyclePhase.VALIDATION]).
  set (P := run_action (fun _ => True) refs []).
  assert (F1 : frame P s s1).
  { etransitivity; [|apply logEvent_frame]. by apply frame_silent. }
  assert (FP : frame P s1 (for_of [LifecyclePhase.PREPARATION] executePhase s1).2).
  { apply phases_frame_at. intros p m Hp Hm. subst refs. unfold registered_refs.
    apply list_elem_of_bind. exists p. split; [by apply all_refs|set_solver]. }
  change start_phases with
    ([LifecyclePhase.PREPARATION] ++ LifecyclePhase.VALIDATION ::
     [LifecyclePhase.EXECUTION; LifecyclePhase.MONITORING; LifecyclePhase.CLEANUP]).
  rewrite (for_of_app_normal _ _ _ _ Hprep), for_of_cons.
  revert Hfail FP. generalize (for_of [LifecyclePhase.PREPARATION] executePhase s1).2.
  intros sP Hfail FP.
  assert (FPs : frame P s sP) by (etransitivity; [exact F1|exact FP]).
  destruct (executePhase_aborts LifecyclePhase.VALIDATION before module after error sP)
    as [He Ho]; [by rewrite (frame_config _ _ _ FPs)|by rewrite (frame_config _ _ _ FPs)| |
                 by rewrite (frame_modules _ _ _ FPs)|done|].
  { destruct FPs as [_ _ _ _ (_&_&_&Hk) _]. apply Hk, Hst. }
  assert (F2 : frame P sP (executePhase LifecyclePhase.VALIDATION sP).2).
  { apply executePhase_frame_at. intros m Hm. subst refs. unfold registered_refs.
    apply list_elem_of_bind. exists LifecyclePhase.VALIDATION.
    rewrite <- (frame_modules _ _ _ FPs). split; [by apply all_refs|set_solver]. }
  rewrite He. revert Ho F2. generalize (executePhase LifecyclePhase.VALIDATION sP).2.
  intros s2 Ho F2. cbn [fst snd].
  set (s3 := record_failed_run (set_state LifecycleState.ERROR s2)).
  assert (T3 : traced P s2 (handleLifecycleError error s3)).
  { etransitivity; [|apply frame_traced, logEvent_frame]. by apply traced_silent. }
  split; [done|]. split; [reflexivity|].
  split.
  { assert (F : frame P s s2) by (etransitivity; [exact FPs|exact F2]).
    destruct F as [_ _ _ _ (_&_&Hf&_) _]. cbn. rewrite Hf. reflexivity. }
  split.
  { eexists. unfold handleLifecycleError. cbv zeta. rewrite logEvent_trace, last_app.
    rewrite logEvent_actions_last by done. done. }
  assert (T : traced P s (handleLifecycleError error s3)).
  { etransitivity; [apply frame_traced, FPs|].
    etransitivity; [apply frame_traced, F2|exact T3]. }
  split; [|exact T].
  destruct FPs as [_ _ _ _ _ (d1&E1&_)], F2 as [_ _ _ _ _ (d2&E2&_)], T3 as [_ _ _ _ (d3&E3&_)].
  rewrite (added_ext _ _ _ E2) in Ho.
  rewrite (added_ext s (handleLifecycleError error s3) (d1 ++ d2 ++ d3))
    by (by rewrite E3, E2, E1, <- !app_assoc).
  eapply raised_by_weaken; [done| |exact Ho].
  intros a Ha. apply elem_of_app. right. apply elem_of_app. by left.
Qed.

Lemma start_entry_frame refs s :
  refs = registered_refs (modules s)
           [LifecyclePhase.INITIALIZATION; LifecyclePhase.PREPARATION;
            LifecyclePhase.VALIDATION] →
  frame (run_action (fun _ => True) refs
           ["onInitializationStart"; "onInitializationComplete"])
    s (if decide (state s = LifecycleState.UNINITIALIZED) then (initialize s).2 else s).
Proof.
  intros ->. destruct (decide (state s = LifecycleState.UNINITIALIZED)); [|reflexivity].
  apply (initialize_framed (modules s)); [|set_solver..|done].
  intros m Hm. unfold registered_refs. apply list_elem_of_bind.
  exists LifecyclePhase.INITIALIZATION. split; [by apply all_refs|set_solver].
Qed.

Lemma start_refs_sub (M : gmap LifecyclePhase.t (list (LifecycleModule World))) :
  registered_refs M [LifecyclePhase.PREPARATION; LifecyclePhase.VALIDATION] ⊆
  registered_refs M
    [LifecyclePhase.INITIALIZATION; LifecyclePhase.PREPARATION; LifecyclePhase.VALIDATION].
Proof. apply registered_refs_mono. set_solver. Qed.

Lemma start_try_fails_from before module after error s s0 :
  frame
    (run_action (fun _ => True)
       (registered_refs (modules s)
          [LifecyclePhase.INITIALIZATION; LifecyclePhase.PREPARATION;
           LifecyclePhase.VALIDATION])
       ["onInitializationStart"; "onInitializationComplete"])
    s s0 →
  cfg_continueOnError (config s) = false →
  0 ≤ cfg_maxRetries (config s) →
  stats_complete s →
  modules s !! LifecyclePhase.VALIDATION = Some (before ++ module :: after) →
  (for_of [LifecyclePhase.PREPARATION] executePhase
     (logEvent event_lifecycle_start (set_state LifecycleState.RUNNING s0))).1 = Normal tt →
  fails_for_good LifecyclePhase.VALIDATION before module error
    (for_of [LifecyclePhase.PREPARATION] executePhase
       (logEvent event_lifecycle_start (set_state LifecycleState.RUNNING s0))).2 →
  (start_try s0).1 = Throw error ∧
  state (start_try s0).2 = LifecycleState.ERROR ∧
  st_failedExecutions (stats (start_try s0).2) = st_failedExecutions (stats s) + 1 ∧
  (∃ e, last (trace (start_try s0).2) = Some (ConsoleCall console_error e) ∧
        ev_level e = EventLevel.CRITICAL ∧ ev_type e = "lifecycle_error") ∧
  raised_by [module] error (added s (start_try s0).2) ∧
  Forall
    (run_action (fun _ => True)
       (registered_refs (modules s)
          [LifecyclePhase.INITIALIZATION; LifecyclePhase.PREPARATION;
           LifecyclePhase.VALIDATION])
       ["onInitializationStart"; "onInitializationComplete"])
    (added s (start_try s0).2).
Proof.
  intros F0 Hstrict Hmax Hst Hreg Hprep Hfail.
  pose proof (start_refs_sub (modules s)) as Hsub.
  destruct F0 as [Hc Hm _ _ (_&_&Hf&Hk) (d0&E0&P0)].
  destruct (start_try_fails before module after error s0) as (?&?&Hcount&?&Ho&T);
    [by rewrite Hc|by rewrite Hc|by intros p; apply Hk|by rewrite Hm|exact Hprep|exact Hfail|].
  split; [done|]. split; [done|]. split; [by rewrite Hcount, Hf|].
  split; [done|].
  destruct T as [_ _ _ _ (d1&E1&P1)].
  rewrite (added_ext _ _ _ E1) in Ho. rewrite Hm in P1.
  rewrite (added_trans _ _ _ _ _ E0 E1). split.
  - eapply raised_by_weaken; [done| |exact Ho]. intros a Ha. apply elem_of_app. by right.
  - apply Forall_app. split; [done|]. eapply Forall_impl; [exact P1|].
    intros a. apply run_action_weaken; [done|clear; set_solver].
Qed.

(** C5.  With [continueOnError] off, when a module registered under
    VALIDATION fails for good in a run of [start()] (the engine is one
    [start()] accepts, with its statistics in place; PREPARATION and
    the modules registered before it under VALIDATION have gone
    through, its own execution throws, its retries spent): [start()]
    throws that failure on to its caller, leaves the state [ERROR] and
    the count of failed runs one higher, logs the CRITICAL
    "lifecycle_error" event last, and has executed no module but those
    registered under INITIALIZATION, PREPARATION and VALIDATION. *)
Theorem validation_failure_aborts_the_run before module after error s :
  cfg_continueOnError (config s) = false →
  0 ≤ cfg_maxRetries (config s) →
  stats_complete s →
  ready s →
  modules s !! LifecyclePhase.VALIDATION = Some (before ++ module :: after) →
  (phase_entry LifecyclePhase.VALIDATION s).1 = Normal tt →
  fails_for_good LifecyclePhase.VALIDATION before module error
    (phase_entry LifecyclePhase.VALIDATION s).2 →
  (start s).1 = Throw error ∧
  state (start s).2 = LifecycleState.ERROR ∧
  st_failedExecutions (stats (start s).2) = st_failedExecutions (stats s) + 1 ∧
  (∃ e, last (trace (start s).2) = Some (ConsoleCall console_error e) ∧
        ev_level e = EventLevel.CRITICAL ∧ ev_type e = "lifecycle_error") ∧
  raised_by [module] error (added s (start s).2) ∧
  Forall
    (run_action (fun _ => True)
       (registered_refs (modules s)
          [LifecyclePhase.INITIALIZATION; LifecyclePhase.PREPARATION;
           LifecyclePhase.VALIDATION])
       ["onInitializationStart"; "onInitializationComplete"])
    (added s (start s).2).
Proof.
  intros Hstrict Hmax Hst Hready Hreg Hprep Hfail.
  rewrite phase_entry_eq, before_phase_VALIDATION, phases_start_eq in Hprep, Hfail.
  rewrite (start_of_ready s Hready).
  exact (start_try_fails_from before module after error s _
           (start_entry_frame _ s eq_refl) Hstrict Hmax Hst Hreg Hprep Hfail).
Qed.

(** *** A module in a run *)

Lemma frame_prefix P s s' : frame P s s' → trace s `prefix_of` trace s'.
Proof. intros [_ _ _ _ _ (d&E&_)]. by exists d. Qed.

Lemma traced_prefix P s s' : traced P s s' → trace s `prefix_of` trace s'.
Proof. intros [_ _ _ _ (d&E&_)]. by exists d. Qed.

Lemma added_mono s1 s2 s3 s4 a :
  trace s1 `prefix_of` trace s2 → trace s2 `prefix_of` trace s3 →
  trace s3 `prefix_of` trace s4 →
  a ∈ added s2 s3 → a ∈ added s1 s4.
Proof.
  intros [d1 E1] [d2 E2] [d3 E3]. rewrite (added_ext _ _ _ E2).
  rewrite (added_ext s1 s4 (d1 ++ d2 ++ d3)) by (by rewrite E3, E2, E1, <- !app_assoc).
  intros Hin. apply elem_of_app. right. apply elem_of_app. by left.
Qed.

Lemma logEvent_prefix event s : trace s `prefix_of` trace (logEvent event s).
Proof. eexists. apply logEvent_trace. Qed.

Lemma notifyObservers_prefix name s : trace s `prefix_of` trace (notifyObservers name s).2.
Proof. by eexists. Qed.

Lemma handlePhaseError_prefix error phase s :
  trace s `prefix_of` trace (handlePhaseError error phase s).
Proof. eexists. apply handlePhaseError_trace. Qed.

Lemma executeModules_prefix (ms : list (LifecycleModule World)) s :
  0 ≤ cfg_maxRetries (config s) →
  trace s `prefix_of` trace (for_of ms executeModule s).2.
Proof. intros Hmax. eexists. apply (executeModules_extends ms s Hmax). Qed.

Lemma executePhase_prefix phase s : trace s `prefix_of` trace (executePhase phase s).2.
Proof.
  apply (frame_prefix (run_action (fun _ => True)
                         (m_ref <$> default [] (modules s !! phase)) [])).
  apply executePhase_frame_at, all_refs.
Qed.

Lemma phases_prefix phases s : trace s `prefix_of` trace (for_of phases executePhase s).2.
Proof.
  apply (frame_prefix (run_action (fun _ => True) (registered_refs (modules s) phases) [])).
  apply phases_frame_at. intros p m Hp Hm. unfold registered_refs.
  apply list_elem_of_bind. exists p. split; [by apply all_refs|done].
Qed.

Lemma start_try_prefix s : trace s `prefix_of` trace (start_try s).2.
Proof. eapply traced_prefix, start_try_traced. Qed.

Lemma initialize_prefix s : trace s `prefix_of` trace (initialize s).2.
Proof.
  apply (frame_prefix (run_action (fun _ => True)
                         (m_ref <$> default [] (modules s !! LifecyclePhase.INITIALIZATION))
                         ["onInitializationStart"; "onInitializationComplete"])).
  apply (initialize_framed (modules s)); [apply all_refs|set_solver..|done].
Qed.

(** The loop over the modules gets to the module the modules before
    which go through. *)
Lemma executeModules_calls before module after s :
  0 ≤ cfg_maxRetries (config s) →
  (for_of before executeModule s).1 = Normal tt →
  ∃ c r, ModuleCall (m_ref module) m_execute_ c r ∈
           added s (for_of (before ++ module :: after) executeModule s).2.
Proof.
  intros Hmax Hb. rewrite (for_of_app_normal _ _ _ _ Hb), for_of_cons.
  pose proof (executeModules_prefix before s Hmax) as P1.
  destruct (executeModules_extends before s Hmax) as [_ C1].
  revert P1 C1. generalize (for_of before executeModule s).2. intros s1 P1 C1.
  destruct (executeModule_calls module s1 ltac:(by rewrite C1)) as (c&r&Hin).
  destruct (executeModule_extends module s1 ltac:(by rewrite C1)) as [E2 C2].
  exists c, r.
  eapply (added_mono s s1 (executeModule module s1).2); [exact P1|by eexists| |exact Hin].
  destruct (executeModule module s1).1; [|done].
  apply executeModules_prefix. by rewrite C2, C1.
Qed.

Lemma executePhase_calls p before module after s :
  0 ≤ cfg_maxRetries (config s) →
  modules s !! p = Some (before ++ module :: after) →
  (for_of before executeModule (modules_start p s)).1 = Normal tt →
  ∃ c r, ModuleCall (m_ref module) m_execute_ c r ∈ added s (executePhase p s).2.
Proof.
  intros Hmax Hreg Hb.
  destruct (executeModules_calls before module after (modules_start p s)) as (c&r&Hin);
    [by rewrite modules_start_config|done|].
  exists c, r. apply executePhase_holds_modules; [done|]. cbn zeta.
  change (logEvent (event_phase_start p) (enter_phase p s)) with (modules_start p s).
  by rewrite (getContext_exists _ _ (modules_start_ctx p s)), Hreg.
Qed.

(** What a phase of the loop adds to the trace is in the trace of the
    loop. *)
Lemma phases_hold_phase pre p post s a :
  (for_of pre executePhase s).1 = Normal tt →
  a ∈ added (for_of pre executePhase s).2 (executePhase p (for_of pre executePhase s).2).2 →
  a ∈ added s (for_of (pre ++ p :: post) executePhase s).2.
Proof.
  intros Hpre. rewrite (for_of_app_normal _ _ _ _ Hpre), for_of_cons.
  pose proof (phases_prefix pre s) as P1.
  revert P1. generalize (for_of pre executePhase s).2. intros s3 P1 Hin.
  eapply (added_mono s s3 (executePhase p s3).2);
    [exact P1|apply executePhase_prefix| |exact Hin].
  destruct (executePhase p s3).1; [apply phases_prefix|done].
Qed.

Lemma start_try_holds_phases s a :
  a ∈ added (logEvent event_lifecycle_start (set_state LifecycleState.RUNNING s))
        (for_of start_phases executePhase
           (logEvent event_lifecycle_start (set_state LifecycleState.RUNNING s))).2 →
  a ∈ added s (start_try s).2.
Proof.
  rewrite start_try_eq. cbn zeta.
  assert (P1 : trace s `prefix_of`
               trace (logEvent event_lifecycle_start (set_state LifecycleState.RUNNING s)))
    by apply (logEvent_prefix _ (set_state LifecycleState.RUNNING s)).
  revert P1. generalize (logEvent event_lifecycle_start (set_state LifecycleState.RUNNING s)).
  intros s1 P1. pose proof (phases_prefix start_phases s1) as P2. revert P2.
  generalize (for_of start_phases executePhase s1). intros [r s2]. cbn [fst snd]. intros P2 Hin.
  eapply (added_mono s s1 s2); [exact P1|exact P2| |exact Hin].
  destruct r as [[]|error]; cbn [snd].
  - apply (logEvent_prefix _ (set_state LifecycleState.STOPPED (record_successful_run _ s2))).
  - apply (logEvent_prefix _ (record_failed_run (set_state LifecycleState.ERROR s2))).
Qed.

Lemma start_entry_prefix s :
  trace s `prefix_of`
  trace (if decide (state s = LifecycleState.UNINITIALIZED) then (initialize s).2 else s).
Proof. case_decide; [apply initialize_prefix|done]. Qed.

Lemma start_holds_phases s a :
  ready s →
  a ∈ added (phases_start s) (for_of start_phases executePhase (phases_start s)).2 →
  a ∈ added s (start s).2.
Proof.
  intros Hready. rewrite (start_of_ready s Hready), phases_start_eq.
  pose proof (start_entry_prefix s) as P0. revert P0.
  generalize (if decide (state s = LifecycleState.UNINITIALIZED) then (initialize s).2 else s).
  intros s0 P0 Hin. apply start_try_holds_phases in Hin.
  by eapply (added_mono s s0 (start_try s0).2); [exact P0|apply start_try_prefix| |exact Hin].
Qed.

Lemma start_phases_split p :
  p ≠ LifecyclePhase.INITIALIZATION →
  ∃ post, start_phases = before_phase p start_phases ++ p :: post.
Proof. destruct p; [done|by eexists..]. Qed.

Lemma reaches_phase p (before : list (LifecycleModule World)) s :
  p ≠ LifecyclePhase.INITIALIZATION →
  reaches p before s →
  ready s ∧ (phase_entry p s).1 = Normal tt ∧
  (for_of before executeModule (modules_start p (phase_entry p s).2)).1 = Normal tt.
Proof. by destruct p. Qed.

Lemma initialization_entry_ctx s : ctx_inv (fun _ => True) (initialization_entry s).2.
Proof.
  unfold initialization_entry. cbn zeta. apply notifyObservers_ctx.
  apply logEvent_ctx_inv; [apply stable_True|]. by eexists.
Qed.

Lemma initialization_entry_modules s : modules (initialization_entry s).2 = modules s.
Proof. reflexivity. Qed.

Lemma initialization_entry_config s : config (initialization_entry s).2 = config s.
Proof. reflexivity. Qed.

Lemma initialization_entry_prefix s : trace s `prefix_of` trace (initialization_entry s).2.
Proof.
  unfold initialization_entry. cbn zeta. etransitivity; [|apply notifyObservers_prefix].
  apply (logEvent_prefix _ (set_context _ (set_state LifecycleState.PREPARING s))).
Qed.

Lemma initialize_catch_prefix error s : trace s `prefix_of` trace (initialize_catch error s).2.
Proof.
  apply (handlePhaseError_prefix error LifecyclePhase.INITIALIZATION
           (set_state LifecycleState.ERROR s)).
Qed.

(** What the modules of INITIALIZATION add to the trace is in the
    trace of [initialize()]. *)
Lemma initialize_try_holds_modules s a :
  0 ≤ cfg_maxRetries (config s) →
  (initialization_entry s).1 = Normal tt →
  a ∈ added (initialization_entry s).2
        (for_of (default [] (modules s !! LifecyclePhase.INITIALIZATION)) executeModule
           (initialization_entry s).2).2 →
  a ∈ added s (initialize_try s).2.
Proof.
  intros Hmax Hentry. rewrite initialize_try_eq. cbn zeta.
  change (notifyObservers "onInitializationStart" _) with (initialization_entry s).
  pose proof (initialization_entry_prefix s) as P1.
  pose proof (initialization_entry_ctx s) as C1.
  pose proof (initialization_entry_modules s) as M1.
  pose proof (initialization_entry_config s) as K1.
  revert Hentry P1 C1 M1 K1. generalize (initialization_entry s).
  intros [r1 t1]. cbn [fst snd]. intros -> P1 C1 M1 K1.
  rewrite executePhaseModules_for_of, (getContext_exists _ _ C1), M1.
  pose proof (executeModules_prefix
                (default [] (modules s !! LifecyclePhase.INITIALIZATION))
                t1 ltac:(by rewrite K1)) as P2.
  revert P2.
  generalize (for_of (default [] (modules s !! LifecyclePhase.INITIALIZATION)) executeModule t1).
  intros [r2 t2] P2 Hin. cbn [fst snd] in *.
  eapply (added_mono s t1 t2); [exact P1|exact P2| |exact Hin].
  destruct r2 as [[]|e]; [|apply initialize_catch_prefix].
  pose proof (notifyObservers_prefix "onInitializationComplete" t2) as P3. revert P3.
  generalize (notifyObservers "onInitializationComplete" t2). intros [[[]|e] t3] P3;
    cbn [fst snd] in *.
  - etransitivity; [exact P3|].
    apply (logEvent_prefix _ (set_state LifecycleState.STOPPED t3)).
  - etransitivity; [exact P3|apply initialize_catch_prefix].
Qed.

(** What [initialize()] adds to the trace is in the trace of the
    [start()] that calls it. *)
Lemma start_holds_initialize s a : a ∈ added s (initialize s).2 → a ∈ added s (start s).2.
Proof.
  destruct (decide (state s = LifecycleState.UNINITIALIZED)) as [Hnew|Hold].
  - rewrite (start_new s Hnew). pose proof (initialize_prefix s) as P1. revert P1.
    generalize (initialize s). intros [[[]|e] s1] P1 Hin; cbn [fst snd] in *; [|done].
    case_decide; [done|].
    by eapply (added_mono s s s1); [|exact P1|apply start_try_prefix|exact Hin].
  - rewrite (initialize_old s Hold). unfold added. cbn [snd]. rewrite drop_all.
    by intros ?%elem_of_nil.
Qed.

Lemma phase_entry_frame p s :
  modules (phase_entry p s).2 = modules s ∧ config (phase_entry p s).2 = config s.
Proof.
  rewrite phase_entry_eq, phases_start_eq.
  assert (F0 : frame (run_action (fun _ => True)
                        (m_ref <$> default [] (modules s !! LifecyclePhase.INITIALIZATION))
                        ["onInitializationStart"; "onInitializationComplete"])
                 s (if decide (state s = LifecycleState.UNINITIALIZED)
                    then (initialize s).2 else s)).
  { case_decide; [|done].
    apply (initialize_framed (modules s)); [apply all_refs|set_solver..|done]. }
  revert F0.
  generalize (if decide (state s = LifecycleState.UNINITIALIZED) then (initialize s).2 else s).
  intros s0 [Hc Hm _ _ _ _].
  set (s1 := logEvent event_lifecycle_start (set_state LifecycleState.RUNNING s0)).
  destruct (phases_frame_at
              (registered_refs (modules s1) (before_phase p start_phases)) []
              (before_phase p start_phases) s1) as [Hc1 Hm1 _ _ _ _].
  { intros p' m Hp Hin. unfold registered_refs. apply list_elem_of_bind.
    exists p'. split; [by apply all_refs|done]. }
  rewrite Hc1, Hm1. by split.
Qed.

Lemma start_makes_no_call ref s :
  state s ≠ LifecycleState.UNINITIALIZED →
  ref ∉ registered_refs (modules s) start_phases →
  module_calls ref m_execute_ (added s (start s).2) = [].
Proof.
  intros Hold Href.
  destruct (decide (state s = LifecycleState.STOPPED ∨ state s = LifecycleState.PAUSED))
    as [Hready|Hnot].
  - rewrite (start_ready s Hready).
    eapply run_action_no_calls; [exact Href|]. by apply traced_added, start_try_traced.
  - rewrite start_wrong_state by tauto. unfold added. cbn [snd]. by rewrite drop_all.
Qed.

(** C10.  [registerModule(p, m)] appends [m] to the modules of [p] and
    of no other phase.  A module so registered is executed by the run
    of [start()] that gets to it: in [initialize()] for INITIALIZATION,
    on a new engine, in the [executePhase(p)] of the loop otherwise,
    once what comes before it in the run has ended without throwing.
    A module registered under no other phase is executed by no other
    phase, nor by [initialize()] unless [p] is INITIALIZATION, nor by
    the [start()] of an initialized engine if it is.  The [phase]
    member of [m] is the phase tag of the events its execution logs,
    and nothing else: with another value there, the execution ends the
    same way and leaves the same state but for the tags. *)
Theorem a_module_runs_in_the_phase_it_was_registered_under p q module s :
  is_Some (m_initialize module) →
  0 ≤ cfg_maxRetries (config s) →
  Forall phase_blind (listeners s) →
  events_blind module →
  let s1 := (registerModule p (Some module) s).2 in
  modules s1 !! p = Some (default [] (modules s !! p) ++ [module]) ∧
  (∀ p', p' ≠ p → modules s1 !! p' = modules s !! p') ∧
  (∀ s2 before after,
     modules s2 !! p = Some (before ++ module :: after) →
     0 ≤ cfg_maxRetries (config s2) →
     reaches p before s2 →
     ∃ c r, ModuleCall (m_ref module) m_execute_ c r ∈ added s2 (start s2).2) ∧
  (∀ s2,
     (∀ p', p' ≠ p → m_ref module ∉ m_ref <$> default [] (modules s2 !! p')) →
     (∀ p', p' ≠ p →
        module_calls (m_ref module) m_execute_ (added s2 (executePhase p' s2).2) = []) ∧
     (p ≠ LifecyclePhase.INITIALIZATION →
        module_calls (m_ref module) m_execute_ (added s2 (initialize s2).2) = []) ∧
     (p = LifecyclePhase.INITIALIZATION → state s2 ≠ LifecycleState.UNINITIALIZED →
        module_calls (m_ref module) m_execute_ (added s2 (start s2).2) = [])) ∧
  Forall (tagged (m_phase module)) (added s (executeModule module s).2) ∧
  (executeModule (with_phase q module) s).1 = (executeModule module s).1 ∧
  same_but_tags (executeModule module s).2 (executeModule (with_phase q module) s).2.
Proof.
  intros Hinit Hmax Hls Hm s1. unfold s1. rewrite registerModule_accepts by done.
  cbn [snd]. clear s1.
  set (s1 := logEvent _ _).
  assert (Hmods : modules s1 = <[p := default [] (modules s !! p) ++ [module]]> (modules s))
    by reflexivity.
  split; [by rewrite Hmods, lookup_insert_eq|].
  split; [intros p' Hp'; by rewrite Hmods, lookup_insert_ne|].
  clear s1 Hmods. split.
  { intros s2 before after Hreg Hmax2 Hreach.
    destruct (decide (p = LifecyclePhase.INITIALIZATION)) as [->|Hp].
    - destruct Hreach as (Hnew&Hentry&Hb).
      destruct (executeModules_calls before module after (initialization_entry s2).2)
        as (c&r&Hin); [done|done|].
      exists c, r. apply start_holds_initialize. rewrite (initialize_new s2 Hnew).
      apply initialize_try_holds_modules; [done|done|]. by rewrite Hreg.
    - destruct (reaches_phase p before s2 Hp Hreach) as (Hready&Hentry&Hb).
      destruct (start_phases_split p Hp) as [post Hsplit].
      destruct (phase_entry_frame p s2) as [Hm3 Hc3].
      destruct (executePhase_calls p before module after (phase_entry p s2).2)
        as (c&r&Hin); [by rewrite Hc3|by rewrite Hm3|done|].
      exists c, r. apply start_holds_phases; [done|].
      rewrite phase_entry_eq in Hentry, Hin. rewrite Hsplit at 1.
      by apply phases_hold_phase. }
  split.
  { intros s2 Hnot. split; [|split].
    - intros p' Hp'.
      pose proof (executePhase_frame_at (m_ref <$> default [] (modules s2 !! p')) [] p' s2
                    (fun m => all_refs _ m)) as F.
      apply frame_added in F as [_ F]. eapply run_action_no_calls; [|exact F]. by apply Hnot.
    - intros Hp.
      destruct (initialize_framed (modules s2)
                  (m_ref <$> default [] (modules s2 !! LifecyclePhase.INITIALIZATION))
                  ["onInitializationStart"; "onInitializationComplete"]) with (s := s2)
        as [_ F]; [apply all_refs|set_solver..|done|].
      apply frame_added in F as [_ F]. eapply run_action_no_calls; [|exact F].
      apply Hnot. by intros <-.
    - intros -> Hold. apply start_makes_no_call; [done|].
      unfold registered_refs. rewrite list_elem_of_bind. intros (p'&Hin&Hp').
      apply (Hnot p'); [|done]. intros ->. revert Hp'. clear. set_solver. }
  split.
  { pose proof (executeModule_while_tagged module (cfg_maxRetries (config s)) 0 s) as F.
    by apply frame_added in F as [_ F]. }
  apply (same_but_tags_while q module (cfg_maxRetries (config s)) 0 s s Hm Hls).
  apply same_but_tags_refl.
Qed.

End Runs.

(** ** The statements on the concrete runtime *)



Lemma steady_respects I ref name phase : respects I (Lab.steady ref name phase).
Proof. intros c w Hc. exact Hc. Qed.

Lemma steady_events_blind ref name phase : events_blind (Lab.steady ref name phase).
Proof. intros c c' w Hc. split; [reflexivity|]. split; [reflexivity|exact Hc]. Qed.

(** C1: a module registered under PREPARATION is executed by [start()]
    and its [initialize] has not been called. *)
Lemma execute_without_setup :
  (start Lab.one_module).1 = Normal tt ∧
  List.length (module_calls 1 m_execute_ (trace (start Lab.one_module).2)) = 1%nat ∧
  module_calls 1 m_initialize_ (trace (start Lab.one_module).2) = [].
Proof. vm_compute. repeat split. Qed.

(** C2: the observer defines [onPreparationStart] and the other phase
    hooks, [start()] goes through the five phases, and the hooks called
    are the two of [initialize()]. *)
Lemma phase_hooks_stay_silent :
  (start Lab.watched).1 = Normal tt ∧
  o_method (Lab.keen_observer 7) "onPreparationStart" = Some ReturnsVoid ∧
  List.length (module_calls 1 m_execute_ (trace (start Lab.watched).2)) = 1%nat ∧
  hook_calls (trace (start Lab.watched).2) =
    [(7%nat, "onInitializationStart"); (7%nat, "onInitializationComplete")].
Proof. vm_compute. repeat split. Qed.




Lemma validation_failure_witness :
  (start Lab.needy_validation).1 = Throw Lab.boom ∧
  state (start Lab.needy_validation).2 = LifecycleState.ERROR.
Proof.
  destruct (validation_failure_aborts_the_run
              [Lab.steady 2 "u" LifecyclePhase.VALIDATION]
              (Lab.needy 3 "v" LifecyclePhase.VALIDATION) [] Lab.boom Lab.needy_validation)
    as (H1&H2&_).
  - vm_compute. reflexivity.
  - vm_compute. discriminate.
  - intros p. destruct p; vm_compute; eexists; reflexivity.
  - right. right. split; vm_compute; reflexivity.
  - vm_compute. reflexivity.
  - vm_compute. reflexivity.
  - split; vm_compute; reflexivity.
  - split; [exact H1|exact H2].
Defined.

Lemma history_witness :
  eventHistory
    (emit_all [event_engine_created; event_initialization_start; event_lifecycle_start]
       Lab.under_construction) =
  drop 1
    (emitted [event_engine_created; event_initialization_start; event_lifecycle_start]
       Lab.under_construction).
Proof.
  apply (history_holds_the_most_recent_events Lab.under_construction
           [event_engine_created; event_initialization_start; event_lifecycle_start] 1).
  - reflexivity.
  - vm_compute. reflexivity.
  - reflexivity.
  - reflexivity.
  - lia.
Defined.

Lemma wrong_state_witness :
  initialize (initialize Lab.fresh).2 = (Throw already_initialized_error, (initialize Lab.fresh).2).
Proof.
  apply (wrong_state_is_rejected (initialize Lab.fresh).2).
  vm_compute. discriminate.
Defined.

(** C8: when [logEvent] returns, the promise of the listener is
    pending in a promise nobody holds. *)
Lemma listener_promise_is_dropped :
  last (unawaited (logEvent event_lifecycle_start Lab.listened)) = Some (AwaitingAll [Fulfils]) ∧
  settled (AwaitingAll [Fulfils]) = false.
Proof. vm_compute. split; reflexivity. Qed.

Lemma listeners_witness :
  unawaited (logEvent event_lifecycle_start Lab.listened) =
  unawaited Lab.listened ++ [AwaitingAll [Fulfils]].
Proof.
  apply (listeners_are_called_and_not_awaited event_lifecycle_start Lab.listened).
  vm_compute. repeat constructor.
Defined.

(** C9: [start()] after [stop()] on a new engine: there is no context
    and no current phase, and the module of the first phase is handed a
    context whose [previousPhase] is that phase. *)
Lemma previousPhase_of_a_late_context :
  context Lab.stopped_before_use = None ∧
  currentPhase Lab.stopped_before_use = None ∧
  (start Lab.stopped_before_use).1 = Normal tt ∧
  markers_handed 1 (trace (start Lab.stopped_before_use).2) =
    [(LifecyclePhase.PREPARATION, Some LifecyclePhase.PREPARATION)].
Proof. vm_compute. repeat split. Qed.

Lemma phase_markers_witness :
  ctx_inv (markers LifecyclePhase.PREPARATION (Some LifecyclePhase.INITIALIZATION))
    (executePhase LifecyclePhase.PREPARATION (initialize Lab.one_module).2).2.
Proof.
  apply (phase_markers_are_set_on_entry LifecyclePhase.PREPARATION (initialize Lab.one_module).2).
  intros module current previous Hin.
  vm_compute in Hin. apply list_elem_of_singleton in Hin. rewrite Hin.
  apply (steady_respects _ 1 "m" LifecyclePhase.PREPARATION).
Defined.

Lemma registered_phase_witness :
  ∃ c r, ModuleCall 1 m_execute_ c r ∈ added Lab.misfiled (start Lab.misfiled).2.
Proof.
  destruct (a_module_runs_in_the_phase_it_was_registered_under
              LifecyclePhase.PREPARATION LifecyclePhase.VALIDATION
              (Lab.steady 1 "m" LifecyclePhase.CLEANUP) Lab.fresh)
    as (_&_&H&_).
  - eexists. reflexivity.
  - vm_compute. discriminate.
  - vm_compute. constructor.
  - apply steady_events_blind.
  - apply (H Lab.misfiled [] []).
    + vm_compute. reflexivity.
    + vm_compute. discriminate.
    + split; [right; right; split; vm_compute; reflexivity|].
      split; vm_compute; reflexivity.
Defined.

Lemma new_listener_witness :
  listeners (removeEventListener (Lab.async_listener 1)
               (addEventListener (Lab.async_listener 1) Lab.fresh)).2 = listeners Lab.fresh.
Proof.
  apply (a_new_listener_comes_and_goes (Lab.async_listener 1) Lab.fresh).
  apply not_elem_of_nil.
Defined.

Lemma registered_listener_witness :
  listeners (addEventListener (Lab.async_listener 1) Lab.listened) = listeners Lab.listened.
Proof.
  apply (a_registered_listener_is_one (Lab.async_listener 1) Lab.listened).
  - apply NoDup_singleton.
  - apply list_elem_of_here.
Defined.

Lemma observers_witness :
  NoDup (o_ref <$> observers (removeObserver (Lab.keen_observer 7) Lab.watched).2).
Proof.
  apply (observers_are_a_set (Lab.keen_observer 7) Lab.watched).
  apply NoDup_singleton.
Defined.

Lemma getEventHistory_witness :
  List.length (getEventHistory (Some 1) Lab.one_module) =
  Nat.min (Z.to_nat 1) (List.length (eventHistory Lab.one_module)).
Proof. apply (getEventHistory_is_a_slice 1 Lab.one_module). lia. Defined.

Lemma context_store_witness :
  ctx_get "a" (ctx_set "a" (JsNumber 1) (createContext Lab.fresh)) = Some (JsNumber 1).
Proof. apply (context_store_laws "a" "b" (JsNumber 1) (createContext Lab.fresh)). discriminate. Defined.

Lemma event_ids_witness :
  NoDup (ev_id <$> eventHistory
           (emit_all [event_engine_created; event_initialization_start; event_lifecycle_start]
              Lab.under_construction)).
Proof.
  apply (event_ids_are_distinct
           [event_engine_created; event_initialization_start; event_lifecycle_start]
           Lab.under_construction).
  - reflexivity.
  - vm_compute. discriminate.
  - reflexivity.
Defined.

Lemma throwing_listener_witness :
  last (unawaited (logEvent event_lifecycle_start Lab.interrupted)) = Some (Settled (Throw Lab.boom)).
Proof.
  apply (a_throwing_listener_ends_the_round event_lifecycle_start
           [Lab.async_listener 1] (Lab.throwing_listener 2) [Lab.async_listener 3]
           Lab.boom Lab.interrupted).
  - reflexivity.
  - repeat constructor.
  - reflexivity.
Defined.

Lemma pause_and_resume_witness :
  state (resume (pause Lab.running)) = LifecycleState.RUNNING.
Proof.
  destruct (pause_and_resume Lab.running) as (_&H&_).
  - vm_compute. reflexivity.
  - exact H.
Defined.

Lemma phase_statistics_witness :
  (executePhase LifecyclePhase.PREPARATION Lab.one_module).1 = Normal tt.
Proof.
  destruct (a_phase_is_counted_once LifecyclePhase.PREPARATION
              (fresh_phase_statistics LifecyclePhase.PREPARATION) Lab.one_module)
    as (_&_&_&H).
  - vm_compute. reflexivity.
  - apply H. left. vm_compute. reflexivity.
Defined.

Lemma start_counts_witness :
  st_totalExecutions (stats (start (initialize Lab.one_module).2).2) =
  st_totalExecutions (stats (initialize Lab.one_module).2) + 1.
Proof.
  destruct (start_counts_the_run (initialize Lab.one_module).2) as (H&_).
  - left. vm_compute. reflexivity.
  - exact H.
Defined.



Lemma failing_initialization_witness :
  state (initialize Lab.failing_initialization).2 = LifecycleState.ERROR ∧
  start Lab.failing_initialization = initialize Lab.failing_initialization.
Proof.
  destruct (a_failing_initialization_is_not_continued Lab.boom Lab.failing_initialization)
    as (c&e&H1&H2&_).
  - vm_compute. reflexivity.
  - vm_compute. reflexivity.
  - split; [exact H1|exact H2].
Defined.


